(** * curator: the [sthree] store handle and the repository build job

    A shallow embedding of [sthree/bucket.go] and of [Job.Run] with its
    helpers from [repobuilder/job.go], together with the properties of the
    natural-language specification that concern them.

    Conventions.
    - Go [int] values are modelled as [Z].  The only arithmetic performed on
      them is the retry counter [i++] bounded by [numRetries], which stays
      far from the 64-bit limits for any realistic configuration.
    - A Go [error] value is an [option error]; [None] is [nil].
    - The remote bucket, the local disk and the log output form the
      [World]; every operation is a state transformer on it.
    - Channels fed by a producer goroutine are modelled by the list of the
      values sent before the channel is closed. *)

From Stdlib Require Import ZArith Ascii String List Lia.
From stdpp Require Import base option list gmap strings sorting pretty.

Local Open Scope string_scope.
Local Open Scope Z_scope.
Local Open Scope list_scope.

(** ** [github.com/pkg/errors] and the [grip] catcher *)

Module errors.

(** Error values keep the format string and the arguments of the call
    that built them, so that what a message cites can be read back. *)
#[warnings="-register-all"]
Inductive error : Type :=
| New (msg : string)
| Errorf (format : string) (args : list arg)
| Wrapped (cause : error) (format : string) (args : list arg)
| Resolved (errs : list error)
with arg : Type :=
| Str (s : string)
| Int (z : Z)
| Err (e : option error).

(** [errors.Wrapf(err, format, args...)]: [nil] stays [nil]. *)
Definition Wrapf (err : option error) (format : string) (args : list arg)
  : option error :=
  match err with
  | None => None
  | Some e => Some (Wrapped e format args)
  end.

(** [errors.Wrap(err, msg)]. *)
Definition Wrap (err : option error) (msg : string) : option error :=
  Wrapf err msg [].

End errors.

Export errors(error).

Module grip.

(** [grip.Catcher]: an accumulator of the non-nil errors added to it. *)
Definition Catcher := list error.

Definition NewCatcher : Catcher := [].

Definition Add (c : Catcher) (err : option error) : Catcher :=
  match err with
  | None => c
  | Some e => c ++ [e]
  end.

Definition HasErrors (c : Catcher) : bool :=
  match c with [] => false | _ => true end.

Definition Resolve (c : Catcher) : option error :=
  match c with [] => None | _ => Some (errors.Resolved c) end.

(** The part of the log output that the properties refer to: records at
    warning level and above.  Debug, info and notice output carries no
    information that is not also in the returned values. *)
Inductive entry : Type :=
| Error (err : error)
| Warningf (format : string) (args : list errors.arg).

End grip.

(** ** The remote store, as seen through the [goamz] client *)

Module s3.

Inductive ACL : Type :=
| Private | PublicRead | PublicReadWrite | AuthenticatedRead
| BucketOwnerRead | BucketOwnerFull.

(** [s3.Key]: one record of a listing. *)
Record Key : Type := MkKey { Key_Key : string; Key_Size : Z }.

Record Object : Type :=
  MkObject { data : list Byte.byte; contType : string; perm : ACL }.

(** The requests the handle sends. *)
Inductive Call : Type :=
| ListCall (prefix delim marker : string) (max : Z)
| ExistsCall (path : string)
| PutCall (path : string) (data : list Byte.byte) (contType : string) (perm : ACL)
| GetCall (path : string)
| DelCall (path : string)
| DelMultiCall (objects : list string).

(** The bucket a handle is connected to: its objects, the requests
    received so far (oldest first), and the outcome the service has in
    store for the next requests ([Some e]: that request fails with [e];
    past the end of the list every request succeeds). *)
Record Store : Type :=
  MkStore { objects : gmap string Object;
            calls : list Call;
            faults : list (option error) }.

Record ListResp : Type :=
  MkListResp { Contents : list Key; IsTruncated : bool }.

(** Receiving a request records it and consumes one planned outcome. *)
Definition request (c : Call) (s : Store) : option error * Store :=
  (default None (head (faults s)),
   {| objects := objects s; calls := calls s ++ [c]; faults := tail (faults s) |}).

(** Keys are listed in binary order. *)
Definition sorted_keys (m : gmap string Object) : list string :=
  merge_sort String.le (elements (dom m)).

Definition key_of (m : gmap string Object) (k : string) : Key :=
  {| Key_Key := k;
     Key_Size := match m !! k with
                 | Some o => Z.of_nat (length (data o))
                 | None => 0
                 end |}.

(** A key comes after a marker; an empty marker is no marker. *)
Definition after (marker k : string) : Prop :=
  marker = "" ∨ String.ltb marker k = true.

(** The keys a listing request selects: those that start with [prefix]
    and come after [marker]. *)
Definition selected (prefix marker : string) (m : gmap string Object)
  : list string :=
  filter (λ k, String.prefix prefix k = true ∧ after marker k)
         (sorted_keys m).

(** [Bucket.List(prefix, delim, marker, max)] with an empty delimiter. *)
Definition List (prefix delim marker : string) (max : Z) (s : Store)
  : (ListResp * option error) * Store :=
  let '(err, s') := request (ListCall prefix delim marker max) s in
  match err with
  | Some e => ((MkListResp [] false, Some e), s')
  | None =>
      let ks := selected prefix marker (objects s) in
      ((MkListResp (key_of (objects s) <$> take (Z.to_nat max) ks)
                   (bool_decide (Z.to_nat max < length ks)%nat), None), s')
  end.

Definition Exists (path : string) (s : Store) : (bool * option error) * Store :=
  let '(err, s') := request (ExistsCall path) s in
  match err with
  | Some e => ((false, Some e), s')
  | None => ((bool_decide (is_Some (objects s !! path)), None), s')
  end.

Definition Put (path : string) (d : list Byte.byte) (ct : string) (p : ACL)
           (s : Store) : option error * Store :=
  let '(err, s') := request (PutCall path d ct p) s in
  match err with
  | Some e => (Some e, s')
  | None => (None, {| objects := <[path := MkObject d ct p]> (objects s');
                      calls := calls s'; faults := faults s' |})
  end.

(** A missing key is an error of the request itself. *)
Definition Get (path : string) (s : Store)
  : (list Byte.byte * option error) * Store :=
  let '(err, s') := request (GetCall path) s in
  match err with
  | Some e => (([], Some e), s')
  | None =>
      match objects s !! path with
      | Some o => ((data o, None), s')
      | None => (([], Some (errors.New "The specified key does not exist.")), s')
      end
  end.

Definition Del (path : string) (s : Store) : option error * Store :=
  let '(err, s') := request (DelCall path) s in
  match err with
  | Some e => (Some e, s')
  | None => (None, {| objects := delete path (objects s');
                      calls := calls s'; faults := faults s' |})
  end.

Definition delete_all (ks : list string) (m : gmap string Object)
  : gmap string Object :=
  foldr delete m ks.

Definition DelMulti (ks : list string) (s : Store) : option error * Store :=
  let '(err, s') := request (DelMultiCall ks) s in
  match err with
  | Some e => (Some e, s')
  | None => (None, {| objects := delete_all ks (objects s');
                      calls := calls s'; faults := faults s' |})
  end.

(** The requests that change the bucket. *)
Definition mutating (c : Call) : bool :=
  match c with
  | PutCall _ _ _ _ | DelCall _ | DelMultiCall _ => true
  | _ => false
  end.

End s3.

(** ** The local disk *)

Module os.

(** Regular files with their content, the directories that exist, and
    the paths on which creating or writing fails (for want of
    permission, say). *)
Record Disk : Type :=
  MkDisk { files : gmap string (list Byte.byte);
           dirs : gset string;
           denied : gset string }.

(** [os.Stat] followed by [os.IsNotExist]. *)
Definition NotExist (p : string) (d : Disk) : bool :=
  bool_decide (files d !! p = None ∧ p ∉ dirs d).

Definition ReadFile (p : string) (d : Disk) : list Byte.byte * option error :=
  match files d !! p with
  | Some c => (c, None)
  | None => ([], Some (errors.Errorf "read %s: is a directory" [errors.Str p]))
  end.

Definition MkdirAll (p : string) (d : Disk) : option error * Disk :=
  if bool_decide (p ∈ denied d ∨ is_Some (files d !! p)) then
    (Some (errors.Errorf "mkdir %s: permission denied" [errors.Str p]), d)
  else
    (None, {| files := files d; dirs := {[p]} ∪ dirs d; denied := denied d |}).

Definition WriteFile (p : string) (c : list Byte.byte) (d : Disk)
  : option error * Disk :=
  if bool_decide (p ∈ denied d ∨ p ∈ dirs d) then
    (Some (errors.Errorf "open %s: permission denied" [errors.Str p]), d)
  else
    (None, {| files := <[p := c]> (files d); dirs := dirs d; denied := denied d |}).

End os.

(** ** State: the world an operation runs in *)

Record World : Type :=
  MkWorld { remote : s3.Store;          (* the bucket behind the handle *)
            disk : os.Disk;             (* the local file system *)
            log : list grip.entry;      (* warnings and errors logged *)
            starts : list (option error) (* outcomes of coming queue starts *) }.

(** Operations are state transformers on the world. *)
Definition M (A : Type) : Type := World → A * World.

#[global] Instance M_ret : MRet M := λ A x w, (x, w).
#[global] Instance M_bind : MBind M :=
  λ A B f m w, let '(a, w') := m w in f a w'.

Definition on_remote {A} (f : s3.Store → A * s3.Store) : M A :=
  λ w, let '(a, r) := f (remote w) in
       (a, {| remote := r; disk := disk w; log := log w; starts := starts w |}).

Definition on_disk {A} (f : os.Disk → A * os.Disk) : M A :=
  λ w, let '(a, d) := f (disk w) in
       (a, {| remote := remote w; disk := d; log := log w; starts := starts w |}).

Definition read_disk {A} (f : os.Disk → A) : M A := λ w, (f (disk w), w).

Definition logged (e : grip.entry) : M unit :=
  λ w, (tt, {| remote := remote w; disk := disk w; log := log w ++ [e];
               starts := starts w |}).

(** [queue.Start()] of a fresh worker queue. *)
Definition queue_Start : M (option error) :=
  λ w, (default None (head (starts w)),
        {| remote := remote w; disk := disk w; log := log w;
           starts := tail (starts w) |}).

(** ** [sthree/bucket.go] *)

Module sthree.

(** [AWSConnectionConfiguration], reduced to what identifies it. *)
Record AWSConnectionConfiguration : Type :=
  MkConf { Auth : string; Region : string }.

(** The worker queue of an open handle; [amboy.Queue] is an external
    interface, of which the handle uses the number of workers. *)
Record Queue : Type := MkQueue { workers : Z }.

(** [Bucket].  The connection fields [s3] and [bucket] are pointers in
    the source: [s3] records whether a connection object exists, [bucket]
    the name the connection is bound to.  The operations below are those
    of a connected handle.  The process-wide registry lives in another
    file and plays no part in what the operations return. *)
Record Bucket : Type :=
  MkBucket { NewFilePermission : s3.ACL;
             open : bool;
             dryRun : bool;
             credentials : AWSConnectionConfiguration;
             bucket : option string;
             s3 : bool;
             name : string;
             numJobs : Z;
             numRetries : Z;
             queue : option Queue }.

(** [NewBucket]. *)
Definition NewBucket (b : Bucket) (name' : string) : Bucket :=
  {| name := name';
     NewFilePermission := NewFilePermission b;
     credentials := credentials b;
     numJobs := numJobs b;
     numRetries := 20;
     open := false; dryRun := false; bucket := None; s3 := false;
     queue := None |}.

(** [Open]. *)
Definition Open (b : Bucket) : M (Bucket * option error) :=
  if open b then mret (b, None)
  else
    let s3' := true in
    let bucket' :=
      match bucket b with
      | Some n => if bool_decide (n = name b) then Some n else Some (name b)
      | None => Some (name b)
      end in
    let b' := {| NewFilePermission := NewFilePermission b;
                 open := true;
                 dryRun := dryRun b;
                 credentials := credentials b;
                 bucket := bucket';
                 s3 := s3';
                 name := name b;
                 numJobs := numJobs b;
                 numRetries := numRetries b;
                 queue := Some (MkQueue (numJobs b)) |} in
    err ← queue_Start;
    mret (b', errors.Wrap err "starting worker queue for sync jobs").

(** [Clone]: the first component is [None] where the source returns a
    nil handle. *)
Definition Clone (b : Bucket) : M (option Bucket * option error) :=
  let clone := {| name := name b;
                  open := false;
                  NewFilePermission := NewFilePermission b;
                  credentials := credentials b;
                  numJobs := numJobs b;
                  numRetries := numRetries b;
                  dryRun := false; bucket := None; s3 := false;
                  queue := None |} in
  if open b then
    '(clone', err) ← Open clone;
    match err with
    | Some e => mret (None, Some e)
    | None => mret (Some clone', None)
    end
  else mret (Some clone, None).

Definition set_dryRun (v : bool) (b : Bucket) : Bucket :=
  {| NewFilePermission := NewFilePermission b; open := open b; dryRun := v;
     credentials := credentials b; bucket := bucket b; s3 := s3 b;
     name := name b; numJobs := numJobs b; numRetries := numRetries b;
     queue := queue b |}.

(** [DryRunClone]. *)
Definition DryRunClone (b : Bucket) : M (option Bucket * option error) :=
  '(clone, err) ← Clone b;
  match err, clone with
  | Some e, _ => mret (None, Some e)
  | None, Some c => mret (Some (set_dryRun true c), None)
  | None, None => mret (None, None)
  end.

(** [SetNumJobs]. *)
Definition SetNumJobs (b : Bucket) (n : Z) : Bucket * option error :=
  if open b then
    (b, Some (errors.Errorf "numJobs=%d, cannot change for a running queue"
                            [errors.Int (numJobs b)]))
  else
    ({| NewFilePermission := NewFilePermission b; open := open b;
        dryRun := dryRun b; credentials := credentials b;
        bucket := bucket b; s3 := s3 b; name := name b; numJobs := n;
        numRetries := numRetries b; queue := queue b |}, None).

(** [SetNumRetries]. *)
Definition SetNumRetries (b : Bucket) (n : Z) : Bucket * option error :=
  if n <? 0 then
    (b, Some (errors.Errorf "numRetries=%d, must be larger than 0" [errors.Int n]))
  else
    ({| NewFilePermission := NewFilePermission b; open := open b;
        dryRun := dryRun b; credentials := credentials b;
        bucket := bucket b; s3 := s3 b; name := name b;
        numJobs := numJobs b; numRetries := n; queue := queue b |}, None).


(** *** Library functions used by the operations *)

(** [strings.HasSuffix]. *)
Definition HasSuffix (s suffix : string) : bool :=
  String.prefix (String.rev suffix) (String.rev s).

(** The text after the last ["."] of a name, the whole name when it has
    none: the last element of [strings.Split(fileName, ".")]. *)
Fixpoint last_part (s : string) (cur : string) : string :=
  match s with
  | EmptyString => String.rev cur
  | String c s' =>
      if Ascii.eqb c "."%char then last_part s' EmptyString
      else last_part s' (String c cur)
  end.

(** [mime.TypeByExtension], on the extensions registered by [init]. *)
Definition TypeByExtension (ext : string) : string :=
  if String.eqb ext ".deb" then "application/octet-stream"
  else if String.eqb ext ".gz" then "application/x-gzip"
  else if String.eqb ext ".json" then "application/json"
  else if String.eqb ext ".rpm" then "application/x-redhat-package-manager"
  else if String.eqb ext ".tgz" then "application/x-gzip"
  else if String.eqb ext ".txt" then "text/plain"
  else if String.eqb ext ".yaml" then "text/x-yaml"
  else if String.eqb ext ".yml" then "text/x-yaml"
  else "".

(** [getMimeType]. *)
Definition getMimeType (fileName : string) : string :=
  let mimeType := TypeByExtension (String "." (last_part fileName EmptyString)) in
  if String.eqb mimeType "" then "text/plain" else mimeType.

(** [filepath.Dir] on a path in clean form: everything before the last
    separator. *)
Fixpoint drop_last_element (r : string) : string :=
  match r with
  | EmptyString => EmptyString
  | String c r' => if Ascii.eqb c "/"%char then r else drop_last_element r'
  end.

Fixpoint drop_separators (r : string) : string :=
  match r with
  | String c r' => if Ascii.eqb c "/"%char then drop_separators r' else r
  | EmptyString => EmptyString
  end.

Definition Dir (path : string) : string :=
  let r := drop_last_element (String.rev path) in
  match r with
  | EmptyString => "."
  | _ => match drop_separators r with
         | EmptyString => "/"
         | d => String.rev d
         end
  end.

(** [regexp]: the expression language is a library of its own; the
    handle only compiles an expression and asks whether a name matches. *)
Class Regexp : Type :=
  { matcher : Type;
    Compile : string → matcher + error;
    MatchString : matcher → string → bool }.

(** *** Listing *)

(** The loop of the goroutine started by [list], one iteration per page.
    [fuel] bounds the number of pages; [list_] passes enough of it. *)
Fixpoint list_pages (fuel : nat) (prefix lastKey : string)
         (output : list s3.Key) : M (list s3.Key) :=
  match fuel with
  | O => mret output
  | S fuel' =>
      '(results, err) ← on_remote (s3.List prefix "" lastKey 1000);
      match err with
      | Some e => _ ← logged (grip.Error e); mret output
      | None =>
          let lastKey' :=
            foldl (λ _ key, s3.Key_Key key) lastKey (s3.Contents results) in
          let output' := output ++ s3.Contents results in
          if s3.IsTruncated results
          then list_pages fuel' prefix lastKey' output'
          else mret output'
      end
  end.

Definition list_prefix (prefix : string) : string :=
  if negb (String.eqb prefix "") && negb (HasSuffix prefix "/")
  then (prefix ++ "/")%string else prefix.

(** [list] (spelt [list_] here, [list] being the type of lists): the keys
    sent on the returned channel, in order. *)
Definition list_ (b : Bucket) (prefix : string) : M (list s3.Key) :=
  λ w, list_pages (S (size (s3.objects (remote w))))
                  (list_prefix prefix) "" [] w.

(** [contents]. *)
Definition contents (b : Bucket) (prefix : string) : M (gmap string s3.Key) :=
  files ← list_ b prefix;
  mret (foldl (λ output file, <[s3.Key_Key file := file]> output) ∅ files).

(** *** Retried operations.  The pause between two attempts has no
    effect on the world and is left out. *)

(** The loop of [Exists]; [fuel] is the number of iterations left and
    [i] the loop counter. *)
Fixpoint Exists_loop (fuel : nat) (b : Bucket) (path : string) (i : Z)
         (exists_ : bool) (err : option error) : M (bool * option error) :=
  match fuel with
  | O => mret (exists_, err)
  | S fuel' =>
      '(exists', err') ← on_remote (s3.Exists path);
      match err' with
      | None => mret (exists', None)
      | Some _ =>
          let err'' :=
            errors.Wrapf err' "error s3.EXISTS for %s/%s on attempt %d"
                         [errors.Str path; errors.Str (name b); errors.Int i] in
          Exists_loop fuel' b path (i + 1) exists' err''
      end
  end.

(** [Exists]. *)
Definition Exists (b : Bucket) (path : string) : M (bool * option error) :=
  Exists_loop (Z.to_nat (numRetries b)) b path 1 false None.

(** The loop of [Put]: [None] when the loop runs to its end, [Some r]
    when it returns [r] from inside. *)
Fixpoint Put_loop (fuel : nat) (b : Bucket) (path : string)
         (contents : list Byte.byte) (mimeType : string) (i : Z)
         (catcher : grip.Catcher) : M (option (option error) * grip.Catcher) :=
  match fuel with
  | O => mret (None, catcher)
  | S fuel' =>
      err ← on_remote (s3.Put path contents mimeType (NewFilePermission b));
      match err with
      | None => mret (Some None, catcher)
      | Some _ =>
          let catcher' :=
            grip.Add catcher
              (errors.Wrapf err "error s3.PUT for %s/%s on attempt %d"
                 [errors.Str path; errors.Str (name b); errors.Int i]) in
          Put_loop fuel' b path contents mimeType (i + 1) catcher'
      end
  end.

(** [Put]. *)
Definition Put (b : Bucket) (fileName path : string) : M (option error) :=
  missing ← read_disk (os.NotExist fileName);
  if (missing : bool) then
    mret (Some (errors.Errorf "file '%s' does not exist" [errors.Str fileName]))
  else
    let mimeType := getMimeType fileName in
    '(contents, err) ← read_disk (os.ReadFile fileName);
    match err with
    | Some _ =>
        mret (errors.Wrapf err "error reading file '%s' before s3.Put"
                           [errors.Str fileName])
    | None =>
        if dryRun b then mret None
        else
          '(returned, catcher) ←
            Put_loop (Z.to_nat (numRetries b)) b path contents mimeType 1
                     grip.NewCatcher;
          match returned with
          | Some r => mret r
          | None =>
              if grip.HasErrors catcher then
                mret (Some (errors.Errorf
                        "could not upload %s/%s in %d attempts. Errors: %s"
                        [errors.Str (name b); errors.Str path;
                         errors.Int (numRetries b);
                         errors.Err (grip.Resolve catcher)]))
              else mret None
          end
    end.

(** The loop of [Get]: the data and the catcher it leaves. *)
Fixpoint Get_loop (fuel : nat) (b : Bucket) (path : string)
         (data : list Byte.byte) (catcher : grip.Catcher)
  : M (list Byte.byte * grip.Catcher) :=
  match fuel with
  | O => mret (data, catcher)
  | S fuel' =>
      '(data', err) ← on_remote (s3.Get path);
      match err with
      | None => mret (data', grip.NewCatcher)
      | Some _ =>
          let catcher' :=
            grip.Add catcher (errors.Wrap err "aws error from s3.Get") in
          Get_loop fuel' b path data' catcher'
      end
  end.

(** The end of [Get]: the data is written to the local file, whose
    directory is created if it is missing. *)
Definition Get_write (fileName : string) (data : list Byte.byte)
  : M (option error) :=
  let dirName := Dir fileName in
  missing ← read_disk (os.NotExist dirName);
  err ← (if (missing : bool) then on_disk (os.MkdirAll dirName) else mret None);
  match err with
  | Some _ => mret (errors.Wrap err "creating directory for s3.Get operations")
  | None =>
      werr ← on_disk (os.WriteFile fileName data);
      mret (errors.Wrapf werr "writing file %s during s3 get"
                         [errors.Str fileName])
  end.

(** [Get]. *)
Definition Get (b : Bucket) (path fileName : string) : M (option error) :=
  '(data, catcher) ←
    Get_loop (Z.to_nat (numRetries b)) b path [] grip.NewCatcher;
  if grip.HasErrors catcher then
    mret (Some (errors.Errorf
            "could not download %s/%s in %d attempts. Errors: %s"
            [errors.Str (name b); errors.Str path;
             errors.Int (numRetries b); errors.Err (grip.Resolve catcher)]))
  else Get_write fileName data.

(** *** Deleting *)

(** [Delete]. *)
Definition Delete (b : Bucket) (path : string) : M (option error) :=
  err ← on_remote (s3.Del path);
  mret (errors.Wrapf err "deleting %s from %s"
                     [errors.Str path; errors.Str (name b)]).

(** The loop of [deleteGroup] and the code after it.  [items] is what is
    still to come on the channel, [toDelete] the keys of the current
    batch and [count] their number. *)
Fixpoint deleteGroup_loop (b : Bucket) (items : list s3.Key)
         (toDelete : list string) (count : Z) : M (option error) :=
  if (count =? 1000) && negb (dryRun b) then
    err ← on_remote (s3.DelMulti toDelete);
    mret (errors.Wrapf err
            "intermediate delete from %s, %d items encountered error"
            [errors.Str (name b); errors.Int count])
  else
    (* in dry-run mode a full batch is dropped and the counters reset *)
    let '(toDelete, count) :=
      if count =? 1000 then ([], 0) else (toDelete, count) in
    match items with
    | key :: items' =>
        deleteGroup_loop b items' (toDelete ++ [s3.Key_Key key]) (count + 1)
    | [] =>
        if (0 <? Z.of_nat (length toDelete)) then
          if dryRun b then mret None
          else
            err ← on_remote (s3.DelMulti toDelete);
            mret (errors.Wrapf err
                    "delete from %s, %d items encountered error"
                    [errors.Str (name b);
                     errors.Int (Z.of_nat (length toDelete))])
        else mret None
    end.

(** [deleteGroup]. *)
Definition deleteGroup (b : Bucket) (items : list s3.Key) : M (option error) :=
  deleteGroup_loop b items [] 0.

(** The goroutine of [DeleteMany]: the keys it sends, and the warnings
    it logs for the paths it skips. *)
Fixpoint DeleteMany_select (b : Bucket) (contents : gmap string s3.Key)
         (paths : list string) : M (list s3.Key) :=
  match paths with
  | [] => mret []
  | p :: paths' =>
      match contents !! p with
      | None =>
          _ ← logged (grip.Warningf "path %s does not exist in bucket %s"
                                    [errors.Str p; errors.Str (name b)]);
          DeleteMany_select b contents paths'
      | Some key =>
          keys ← DeleteMany_select b contents paths';
          mret (key :: keys)
      end
  end.

(** [DeleteMany]. *)
Definition DeleteMany (b : Bucket) (paths : list string) : M (option error) :=
  match paths with
  | [p] =>
      if dryRun b then mret None
      else
        err ← Delete b p;
        mret (errors.Wrap err "single delete operation in multi-delete call")
  | _ =>
      contents ← contents b "";
      toDelete ← DeleteMany_select b contents paths;
      deleteGroup b toDelete
  end.

(** [DeletePrefix]. *)
Definition DeletePrefix (b : Bucket) (prefix : string) : M (option error) :=
  items ← list_ b prefix;
  deleteGroup b items.

(** [DeleteMatching]. *)
Definition DeleteMatching `{Regexp} (b : Bucket) (prefix expression : string)
  : M (option error) :=
  match Compile expression with
  | inr err =>
      mret (errors.Wrapf (Some err)
              "problem compiling expression %s for delete matching operation on %s"
              [errors.Str expression; errors.Str (name b)])
  | inl matcher =>
      listing ← list_ b prefix;
      let toDelete :=
        filter (λ item, MatchString matcher (s3.Key_Key item) = true) listing in
      deleteGroup b toDelete
  end.

(** *** Further methods of the handle *)

(** [String]. *)
Definition String_ (b : Bucket) : string := name b.

(** [SetCredentials]: the connection is made anew, for the name of the
    handle. *)
Definition SetCredentials (b : Bucket) (c : AWSConnectionConfiguration)
  : Bucket :=
  {| NewFilePermission := NewFilePermission b; open := open b;
     dryRun := dryRun b; credentials := c; bucket := Some (name b);
     s3 := true; name := name b; numJobs := numJobs b;
     numRetries := numRetries b; queue := queue b |}.

(** *** Synchronising a tree *)

Inductive direction : Type := ToRemote | FromRemote.

(** A sync job as [newSyncToJob] and [newSyncFromJob] are given it: the
    local path, the remote key record and the direction. *)
Record SyncJob : Type :=
  MkSyncJob { localPath : string; remoteFile : s3.Key; towards : direction }.

(** [filepath.Join] of two elements in clean form. *)
Definition Join (a b : string) : string :=
  if String.eqb a "" then b
  else if String.eqb b "" then a
  else (a ++ "/" ++ b)%string.

(** [s[n:]]. *)
Definition from (n : nat) (s : string) : string :=
  String.substring n (String.length s - n) s.

(** The regular files below [local], as [filepath.Walk] hands them to
    its callback; the order of the visits has no bearing on the result of
    a sync. *)
Definition walk_files (local : string) (d : os.Disk) : list string :=
  filter (λ p, String.prefix (local ++ "/")%string p = true)
         (merge_sort String.le (elements (dom (os.files d)))).

Section sync.

(** What running a job does to the world and the error it ends with,
    and the identifier of a job: both belong to the job type, which is
    defined in another file. *)
Variable run : Bucket → SyncJob → M (option error).
Variable ID : SyncJob → string.

(** [queue.Put] of every job of the list, then [queue.Wait]: the pool
    has run each job, and [queue.Results] yields them with the error
    they ended with. *)
Fixpoint run_all (b : Bucket) (jobs : list SyncJob)
  : M (list (SyncJob * option error)) :=
  match jobs with
  | [] => mret []
  | job :: jobs' =>
      err ← run b job;
      results ← run_all b jobs';
      mret ((job, err) :: results)
  end.

(** The errors collected from the results of the queue. *)
Definition collect (format : string) (catcher : grip.Catcher)
           (results : list (SyncJob * option error)) : grip.Catcher :=
  foldl (λ c r, grip.Add c (errors.Wrapf (snd r) format
                                         [errors.Str (ID (fst r))]))
        catcher results.

(** [SyncFrom], on a handle whose queue is running, accepts every job
    that is put and holds no result of an earlier sync. *)
Definition SyncFrom (b : Bucket) (local prefix : string) : M (option error) :=
  let catcher := grip.NewCatcher in
  remotes ← list_ b prefix;
  let jobs :=
    (λ remote,
       MkSyncJob (Join local (from (String.length prefix) (s3.Key_Key remote)))
                 remote FromRemote) <$> remotes in
  results ← run_all b jobs;
  let catcher :=
    collect "error with syncFrom job %s" catcher results in
  mret (grip.Resolve catcher).

(** [SyncTo] once the remote listing [remote] is at hand: the walk of
    the local tree, the jobs and their errors. *)
Definition SyncTo_walk (remote : gmap string s3.Key) (b : Bucket)
           (local prefix : string) : M (option error) :=
  missing ← read_disk (os.NotExist local);
  let walkErr :=
    if (missing : bool)
    then Some (errors.Errorf "lstat %s: no such file or directory"
                             [errors.Str local])
    else None in
  _ ← (match walkErr with
       | Some e => logged (grip.Error e)
       | None => mret tt
       end);
  paths ← read_disk (λ d, if (missing : bool) then [] else walk_files local d);
  let jobs :=
    (λ path,
       let keyName := Join prefix (from (String.length local + 1) path) in
       let remoteFile := default (s3.MkKey keyName 0) (remote !! keyName) in
       MkSyncJob path remoteFile ToRemote) <$> paths in
  let catcher := grip.Add grip.NewCatcher walkErr in
  results ← run_all b jobs;
  let catcher := collect "error in syncTo job %s" catcher results in
  mret (grip.Resolve catcher).

(** [SyncTo], on such a handle, for a [local] that is a directory or is
    missing. *)
Definition SyncTo (b : Bucket) (local prefix : string) : M (option error) :=
  remote ← contents b prefix;
  SyncTo_walk remote b local prefix.

End sync.

End sthree.

(** ** A fragment of the expression language of [regexp]

    Literal characters, ["."], escaped punctuation, the postfix operators
    ["*"], ["+"] and ["?"] on a single character, ["^"] in first and ["$"]
    in last position.  Expressions outside the fragment are rejected.
    Matching is by derivatives. *)

Module re.

Inductive t : Type :=
| Void | Eps
| Chr (c : ascii) | NotNewline | Any
| Seq (r1 r2 : t) | Alt (r1 r2 : t) | Star (r : t).

Fixpoint nullable (r : t) : bool :=
  match r with
  | Void | Chr _ | NotNewline | Any => false
  | Eps | Star _ => true
  | Seq r1 r2 => nullable r1 && nullable r2
  | Alt r1 r2 => nullable r1 || nullable r2
  end.

Fixpoint deriv (c : ascii) (r : t) : t :=
  match r with
  | Void | Eps => Void
  | Chr d => if Ascii.eqb c d then Eps else Void
  | NotNewline => if Ascii.eqb c "010"%char then Void else Eps
  | Any => Eps
  | Seq r1 r2 =>
      if nullable r1 then Alt (Seq (deriv c r1) r2) (deriv c r2)
      else Seq (deriv c r1) r2
  | Alt r1 r2 => Alt (deriv c r1) (deriv c r2)
  | Star r1 => Seq (deriv c r1) (Star r1)
  end.

Fixpoint accepts (r : t) (s : string) : bool :=
  match s with
  | EmptyString => nullable r
  | String c s' => accepts (deriv c r) s'
  end.

Definition operator (c : ascii) : bool :=
  existsb (Ascii.eqb c) (list_ascii_of_string "()[]{}|*+?^$\").

Definition letter_or_digit (c : ascii) : bool :=
  let n := nat_of_ascii c in
  ((48 <=? n) && (n <=? 57) || (65 <=? n) && (n <=? 90)
   || (97 <=? n) && (n <=? 122))%nat.

Definition postfix (op : ascii) (atom rest : t) : t :=
  if Ascii.eqb op "*"%char then Seq (Star atom) rest
  else if Ascii.eqb op "+"%char then Seq atom (Seq (Star atom) rest)
  else Seq (Alt atom Eps) rest.

Definition is_postfix (c : ascii) : bool :=
  Ascii.eqb c "*"%char || Ascii.eqb c "+"%char || Ascii.eqb c "?"%char.

(** [parse atom s]: the expression for [atom] followed by what [s]
    denotes, and whether [s] ends with the anchor ["$"]. *)
Fixpoint parse (atom : option t) (s : string) : option (t * bool) :=
  let seq a r := match a with Some a' => Seq a' r | None => r end in
  match s with
  | EmptyString => Some (seq atom Eps, false)
  | String c s' =>
      if is_postfix c then
        match atom with
        | Some a =>
            match parse None s' with
            | Some (r, e) => Some (postfix c a r, e)
            | None => None
            end
        | None => None
        end
      else
        match
          (if Ascii.eqb c "\"%char then
             match s' with
             | String d s'' =>
                 if letter_or_digit d then None
                 else match parse (Some (Chr d)) s'' with
                      | Some (r, e) => Some (r, e)
                      | None => None
                      end
             | EmptyString => None
             end
           else if Ascii.eqb c "$"%char then
             match s' with
             | EmptyString => Some (Eps, true)
             | _ => None
             end
           else if operator c then None
           else parse (Some (if Ascii.eqb c "."%char then NotNewline else Chr c)) s')
        with
        | Some (r, e) => Some (seq atom r, e)
        | None => None
        end
  end.

(** An expression matches a name when it matches some part of it. *)
Definition compile (expression : string) : t + error :=
  let '(anchored, body) :=
    match expression with
    | String c s' => if Ascii.eqb c "^"%char then (true, s') else (false, expression)
    | EmptyString => (false, expression)
    end in
  match parse None body with
  | Some (r, e) =>
      inl (Seq (if (anchored : bool) then Eps else Star Any)
               (Seq r (if (e : bool) then Eps else Star Any)))
  | None => inr (errors.Errorf "error parsing regexp: %s" [errors.Str expression])
  end.

#[global] Instance fragment : sthree.Regexp :=
  {| sthree.matcher := t;
     sthree.Compile := compile;
     sthree.MatchString := accepts |}.

End re.

(** ** Release classification *)

Module curator.

(** Modelled from the spec: the type [curator.MongoDBVersion], whose file
    is not among the sources.  The job asks a version whether it is a
    development build, whether it is a release candidate, and for its
    release series. *)
Record MongoDBVersion : Type :=
  MkVersion { IsDevelopmentBuild : bool;
              IsReleaseCandidate : bool;
              Series : string }.

(** The text before the first ["-"], and the tag after it. *)
Fixpoint split_tag (s : string) : string * option string :=
  match s with
  | EmptyString => (EmptyString, None)
  | String c s' =>
      if Ascii.eqb c "-"%char then (EmptyString, Some s')
      else let '(n, t) := split_tag s' in (String c n, t)
  end.

(** The text before the [n+1]-th ["."], if there is one. *)
Fixpoint before_dot (n : nat) (s : string) : option string :=
  match s with
  | EmptyString => None
  | String c s' =>
      if Ascii.eqb c "."%char then
        match n with
        | O => Some EmptyString
        | S n' => String c <$> before_dot n' s'
        end
      else String c <$> before_dot n s'
  end.

(** Modelled from the spec: [curator.NewMongoDBVersion].  The series of
    a version [X.Y.Z] or [X.Y.Z-tag] is [X.Y]; a version with a tag of
    the form [rcN] is a release candidate; a version with any other tag
    is an unreleased (development) build; a version without a tag is a
    general-availability release. *)
Definition NewMongoDBVersion (version : string) : MongoDBVersion + error :=
  let '(numbers, tag) := split_tag version in
  match before_dot 1 numbers with
  | None => inr (errors.Errorf "invalid version %s" [errors.Str version])
  | Some series =>
      let rc := match tag with
                | Some t => String.prefix "rc" t
                            && negb (existsb (Ascii.eqb "-"%char)
                                             (list_ascii_of_string t))
                | None => false
                end in
      let dev := match tag with Some _ => negb rc | None => false end in
      inl (MkVersion dev rc series)
  end.

End curator.

(** ** [repobuilder/job.go] *)

Module repobuilder.

Inductive RepoType : Type := RPM | DEB | OtherType (name : string).

Definition RepoType_name (t : RepoType) : string :=
  match t with RPM => "rpm" | DEB => "deb" | OtherType n => n end.

Record RepositoryDefinition : Type :=
  MkDistro { Type_ : RepoType; Bucket : string; Repos : list string }.

(** What happened during a run, oldest first; kept to state in which
    order things happen. *)
Inductive event : Type :=
| Started (remote : string)      (* a goroutine is started for a repository *)
| Finished (remote : string)     (* that goroutine has called [wg.Done] *)
| Joined                         (* [wg.Wait] has returned *)
| MarkedComplete (was : bool)    (* [MarkComplete], with the flag it found *)
| Closed (name : string).        (* [Close] of a handle *)

(** [Job], with the fields of the embedded job base that [Run] uses. *)
Record Job : Type :=
  MkJob { Distro : RepositoryDefinition;
          DryRun : bool;
          Version : string;
          Arch : string;
          Profile : string;
          WorkSpace : string;
          PackagePaths : list string;
          workingDirs : list string;
          release : curator.MongoDBVersion;
          IsComplete : bool;
          Errors : list error;
          history : list event }.

Definition update (j : Job) (dirs : list string) (complete : bool)
           (errs : list error) (h : list event) : Job :=
  {| Distro := Distro j; DryRun := DryRun j; Version := Version j;
     Arch := Arch j; Profile := Profile j; WorkSpace := WorkSpace j;
     PackagePaths := PackagePaths j; workingDirs := dirs;
     release := release j; IsComplete := complete; Errors := errs;
     history := h |}.

Definition record (e : event) (j : Job) : Job :=
  update j (workingDirs j) (IsComplete j) (Errors j) (history j ++ [e]).

(** [markComplete]. *)
Definition MarkComplete (j : Job) : Job :=
  update j (workingDirs j) true (Errors j)
         (history j ++ [MarkedComplete (IsComplete j)]).

(** [addError]. *)
Definition AddError (j : Job) (err : option error) : Job :=
  match err with
  | Some e => update j (workingDirs j) (IsComplete j) (Errors j ++ [e]) (history j)
  | None => j
  end.

(** [hasErrors]. *)
Definition HasErrors (j : Job) : bool :=
  bool_decide (0 < length (Errors j))%nat.

(** [getPackageLocation]. *)
Definition getPackageLocation (j : Job) : string :=
  if curator.IsDevelopmentBuild (release j) then "development"
  else if curator.IsReleaseCandidate (release j) then "testing"
  else curator.Series (release j).

(** [NewBuildRepoJob], for the current directory [cwd].  The
    architecture is kept as given; its translation for the distribution
    is defined in another file. *)
Definition NewBuildRepoJob (distro : RepositoryDefinition)
           (version arch profile cwd : string) (pkgs : list string)
  : Job + error :=
  match curator.NewMongoDBVersion version with
  | inr err => inr err
  | inl release =>
      inl {| Distro := distro; DryRun := false; Version := version;
             Arch := arch; Profile := profile; WorkSpace := cwd;
             PackagePaths := pkgs; workingDirs := [];
             release := release; IsComplete := false; Errors := [];
             history := [] |}
  end.

(** [jobImpl]: what building a repository format provides. *)
Class jobImpl : Type :=
  { rebuildRepo : string → M (option error);
    injectPackage : string → string → M (string * option error) }.

Section run.

Context `{builder : jobImpl}.

(** The sync operations of the handle, in the form [Run] calls them
    (with the context and the options of the run fixed). *)
Variable SyncFrom : sthree.Bucket → string → string → M (option error).
Variable SyncTo : sthree.Bucket → string → string → M (option error).

(** [injectNewPackages]. *)
Definition injectNewPackages (j : Job) (local : string)
  : M (string * option error) :=
  injectPackage local (getPackageLocation j).

(** The body of the goroutine started for one repository: the error
    it adds to the job, if any. *)
Definition rebuild (j : Job) (remote : string) (b : sthree.Bucket)
  : M (option error) :=
  let local := sthree.Join (WorkSpace j) remote in
  err ← on_disk (os.MkdirAll local);
  match err with
  | Some _ => mret (errors.Wrapf err "creating directory %s" [errors.Str local])
  | None =>
  let pkgLocation := getPackageLocation j in
  err ← SyncFrom b (sthree.Join local pkgLocation) (sthree.Join remote pkgLocation);
  match err with
  | Some _ => mret (errors.Wrapf err "sync from %s to %s"
                                 [errors.Str remote; errors.Str local])
  | None =>
  '(changed, err) ← injectNewPackages j local;
  match err with
  | Some _ => mret (errors.Wrap err "copying packages into staging repos")
  | None =>
  err ← rebuildRepo changed;
  match err with
  | Some _ => mret (errors.Wrapf err "problem building repo in '%s'"
                                 [errors.Str changed])
  | None =>
  let upload (syncSource changedComponent : string) : M (option error) :=
    err ← SyncTo b syncSource (sthree.Join remote changedComponent);
    mret (errors.Wrapf err "problem uploading %s to %s/%s"
            [errors.Str syncSource; errors.Str (sthree.name b);
             errors.Str changedComponent]) in
  match Type_ (Distro j) with
  | DEB => upload (sthree.Dir changed)
                  (sthree.Dir (sthree.from (String.length local + 1) changed))
  | RPM => upload changed (sthree.from (String.length local + 1) changed)
  | OtherType _ =>
      mret (Some (errors.Errorf "curator does not support uploading '%s' repos"
                                [errors.Str (RepoType_name (Type_ (Distro j)))]))
  end
  end end end end.

(** The loop over the repositories.  A goroutine is run when it is
    started; its handle is closed and [wg.Done] called when it ends. *)
Fixpoint fan_out (j : Job) (bucket : sthree.Bucket) (remotes : list string)
  : M Job :=
  match remotes with
  | [] => mret j
  | remote :: remotes' =>
      '(clonedBucket, err) ← sthree.Clone bucket;
      match err, clonedBucket with
      | None, Some b =>
          let j := update j (workingDirs j ++ [remote]) (IsComplete j)
                          (Errors j) (history j) in
          let j := record (Started remote) j in
          err ← rebuild j remote b;
          let j := AddError j err in
          (* deferred, last first: wg.Done(), b.Close() *)
          let j := record (Finished remote) j in
          let j := record (Closed (sthree.name b)) j in
          fan_out j bucket remotes'
      | _, _ =>
          let j := AddError j (errors.Wrapf err "problem cloning bucket %s"
                                            [errors.Str (sthree.name bucket)]) in
          fan_out j bucket remotes'
      end
  end.

(** [Run].  [bucket] is the handle [GetBucketWithProfile] returns for
    the bucket and the profile of the job.  The calls deferred so far
    run, last first, where the function returns. *)
Definition Run (j : Job) (bucket : sthree.Bucket) : M Job :=
  '(bucket, err) ← sthree.Open bucket;
  match err with
  | Some _ =>
      mret (AddError j (errors.Wrapf err "opening bucket %s"
                                     [errors.Str (sthree.name bucket)]))
  | None =>
      (* deferred: bucket.Close() *)
      let top := sthree.name bucket in
      '(derived, j, stop) ←
        (if DryRun j then
           '(clone, err) ← sthree.DryRunClone bucket;
           match err, clone with
           | None, Some c =>
               '(c, err) ← sthree.Open c;
               match err with
               | Some _ =>
                   mret (bucket,
                         AddError j (errors.Wrapf err "opening bucket %s [dry-run]"
                                                  [errors.Str (sthree.name c)]),
                         true)
               | None => mret (c, j, false)
               end
           | _, _ =>
               mret (bucket,
                     AddError j (errors.Wrapf err
                                   "problem getting bucket '%s' in dry-mode"
                                   [errors.Str "<nil>"]),
                     true)
           end
         else mret (bucket, j, false));
      if (stop : bool) then mret (record (Closed top) j)
      else
        let bucket :=
          {| sthree.NewFilePermission := s3.PublicRead;
             sthree.open := sthree.open derived;
             sthree.dryRun := sthree.dryRun derived;
             sthree.credentials := sthree.credentials derived;
             sthree.bucket := sthree.bucket derived;
             sthree.s3 := sthree.s3 derived;
             sthree.name := sthree.name derived;
             sthree.numJobs := sthree.numJobs derived;
             sthree.numRetries := sthree.numRetries derived;
             sthree.queue := sthree.queue derived |} in
        (* deferred: j.MarkComplete() *)
        j ← fan_out j bucket (Repos (Distro j));
        let j := record Joined j in
        (* the deferred calls *)
        let j := MarkComplete j in
        let j := if DryRun j then record (Closed (sthree.name bucket)) j else j in
        mret (record (Closed top) j)
  end.

End run.

End repobuilder.

(** ** Vocabulary of the statements *)

(** The requests the bucket received between two worlds. *)
Definition new_calls (w w' : World) : list s3.Call :=
  drop (length (s3.calls (remote w))) (s3.calls (remote w')).

(** The world after the bucket has received the requests [cs] and holds
    the objects [m], with [rest] as the outcomes still planned. *)
Definition remote_after (m : gmap string s3.Object) (cs : list s3.Call)
           (rest : list (option error)) (w : World) : World :=
  {| remote := {| s3.objects := m;
                  s3.calls := s3.calls (remote w) ++ cs;
                  s3.faults := rest |};
     disk := disk w; log := log w; starts := starts w |}.

(** The same, when the requests leave the objects as they are. *)
Definition advance (cs : list s3.Call) (rest : list (option error))
           (w : World) : World :=
  remote_after (s3.objects (remote w)) cs rest w.

(** The world after a local file has been written. *)
Definition disk_after (d : os.Disk) (w : World) : World :=
  {| remote := remote w; disk := d; log := log w; starts := starts w |}.

(** The keys of a bucket that start with [prefix], in listing order. *)
Definition under (prefix : string) (m : gmap string s3.Object) : list string :=
  filter (λ k, String.prefix prefix k = true) (s3.sorted_keys m).

(** The marker sent with the request for the page that starts at
    position [n] of a listing [P]. *)
Definition marker_at (P : list string) (n : nat) : string :=
  match n with
  | O => ""
  | S k => default "" (P !! k)
  end.

(** The world after a listing request has failed with [e]. *)
Definition list_failed (prefix lastKey : string) (e : error)
           (rest : list (option error)) (w : World) : World :=
  {| remote := {| s3.objects := s3.objects (remote w);
                  s3.calls := s3.calls (remote w)
                              ++ [s3.ListCall prefix "" lastKey 1000];
                  s3.faults := rest |};
     disk := disk w; log := log w ++ [grip.Error e]; starts := starts w |}.

(** The requests of a run did not change the bucket: its objects are the
    same and none of the new requests is a mutating one. *)
Definition inert (w w' : World) : Prop :=
  s3.objects (remote w') = s3.objects (remote w)
  ∧ ∃ cs, s3.calls (remote w') = s3.calls (remote w) ++ cs
          ∧ Forall (λ c, s3.mutating c = false) cs.

(** The bulk-delete requests among a list of requests. *)
Definition bulk_deletes (cs : list s3.Call) : list (list string) :=
  omap (λ c, match c with s3.DelMultiCall ks => Some ks | _ => None end) cs.

(** The key names of a list of key records. *)
Definition names (items : list s3.Key) : list string := s3.Key_Key <$> items.

(** One bulk-delete request for [ks], with the error wrapped as
    [deleteGroup] does for a batch cut at the limit ([intermediate]) or
    for the last batch. *)
Definition bulk_delete (b : sthree.Bucket) (intermediate : bool)
           (ks : list string) : M (option error) :=
  err ← on_remote (s3.DelMulti ks);
  mret (if intermediate
        then errors.Wrapf err
               "intermediate delete from %s, %d items encountered error"
               [errors.Str (sthree.name b); errors.Int 1000]
        else errors.Wrapf err "delete from %s, %d items encountered error"
               [errors.Str (sthree.name b);
                errors.Int (Z.of_nat (length ks))]).

(** The world after [entries] have been logged. *)
Definition with_log (entries : list grip.entry) (w : World) : World :=
  {| remote := remote w; disk := disk w; log := log w ++ entries;
     starts := starts w |}.

(** The warnings [DeleteMany] logs for the paths that [contents] lacks. *)
Definition warnings (b : sthree.Bucket) (contents : gmap string s3.Key)
           (paths : list string) : list grip.entry :=
  (λ p, grip.Warningf "path %s does not exist in bucket %s"
                      [errors.Str p; errors.Str (sthree.name b)])
    <$> filter (λ p, contents !! p = None) paths.

(** The keys below [prefix] whose full name matches [m], in listing
    order: what [DeleteMatching] is to delete. *)
Definition matching `{sthree.Regexp} (m : sthree.matcher) (prefix : string)
           (objs : gmap string s3.Object) : list string :=
  filter (λ k, sthree.MatchString m k = true) (under (sthree.list_prefix prefix) objs).

(** The requested paths that are keys of the bucket, in the order of the
    request: what [DeleteMany] is to delete. *)
Definition present (paths : list string) (objs : gmap string s3.Object)
  : list string :=
  filter (λ p, is_Some (objs !! p)) paths.

(** An operation reports the failure of a listing request: when the
    next request, its first listing request, fails, it returns an error. *)
Definition reports_list_failure (op : M (option error)) (w : World) : Prop :=
  ∀ e rest, s3.faults (remote w) = Some e :: rest → is_Some (fst (op w)).

(** The events of the goroutines of a run: none of them is the join or
    the completion of the job. *)
Definition repository_event (e : repobuilder.event) : Prop :=
  match e with
  | repobuilder.Joined | repobuilder.MarkedComplete _ => False
  | _ => True
  end.

(** The error [Run] records when the handle cannot be opened. *)
Definition open_error (bucket : sthree.Bucket) (cause : error) : error :=
  errors.Wrapped
    (errors.Wrapped cause "starting worker queue for sync jobs" [])
    "opening bucket %s" [errors.Str (sthree.name bucket)].

(** The error [Run] records when the dry-run clone cannot be derived. *)
Definition dry_run_error (cause : error) : error :=
  errors.Wrapped
    (errors.Wrapped cause "starting worker queue for sync jobs" [])
    "problem getting bucket '%s' in dry-mode" [errors.Str "<nil>"].

(** The next request succeeds. *)
Definition next_ok (faults : list (option error)) : Prop :=
  default None (head faults) = None.

(** A local file can be written, creating its directory if need be. *)
Definition writable (fileName : string) (d : os.Disk) : Prop :=
  (fileName ∉ os.denied d) ∧ (fileName ∉ os.dirs d)
  ∧ fileName ≠ sthree.Dir fileName
  ∧ ((sthree.Dir fileName ∈ os.dirs d)
     ∨ (os.files d !! sthree.Dir fileName = None
        ∧ (sthree.Dir fileName ∉ os.denied d))).

(** The error [Exists] builds on attempt [i]. *)
Definition Exists_error (b : sthree.Bucket) (path : string) (cause : error)
           (i : Z) : error :=
  errors.Wrapped cause "error s3.EXISTS for %s/%s on attempt %d"
                 [errors.Str path; errors.Str (sthree.name b); errors.Int i].

(** The errors the catcher of [Put] holds after attempts [i], [i+1], ...
    have failed with [causes]. *)
Fixpoint Put_errors (b : sthree.Bucket) (path : string) (i : Z)
         (causes : list error) : list error :=
  match causes with
  | [] => []
  | e :: causes' =>
      errors.Wrapped e "error s3.PUT for %s/%s on attempt %d"
                     [errors.Str path; errors.Str (sthree.name b); errors.Int i]
      :: Put_errors b path (i + 1) causes'
  end.

(** The error [Put] returns when every attempt has failed. *)
Definition Put_exhausted (b : sthree.Bucket) (path : string)
           (causes : list error) : error :=
  errors.Errorf "could not upload %s/%s in %d attempts. Errors: %s"
    [errors.Str (sthree.name b); errors.Str path;
     errors.Int (sthree.numRetries b);
     errors.Err (grip.Resolve (Put_errors b path 1 causes))].

(** The errors the catcher of [Get] holds after attempts have failed with
    [causes]. *)
Definition Get_errors (causes : list error) : list error :=
  (λ e, errors.Wrapped e "aws error from s3.Get" []) <$> causes.

(** The error [Get] returns when every attempt has failed. *)
Definition Get_exhausted (b : sthree.Bucket) (path : string)
           (causes : list error) : error :=
  errors.Errorf "could not download %s/%s in %d attempts. Errors: %s"
    [errors.Str (sthree.name b); errors.Str path;
     errors.Int (sthree.numRetries b);
     errors.Err (grip.Resolve (Get_errors causes))].

(** The disk after [Get] has written [data] to [fileName]. *)
Definition written (fileName : string) (data : list Byte.byte) (d : os.Disk)
  : os.Disk :=
  {| os.files := <[fileName := data]> (os.files d);
     os.dirs := if os.NotExist (sthree.Dir fileName) d
                then {[sthree.Dir fileName]} ∪ os.dirs d else os.dirs d;
     os.denied := os.denied d |}.

(** The number of attempts an error message cites: the integer argument
    of its format. *)
Definition attempts_cited (e : error) : option Z :=
  let ints := omap (λ a, match a with errors.Int z => Some z | _ => None end) in
  match e with
  | errors.Errorf _ args | errors.Wrapped _ _ args => head (ints args)
  | _ => None
  end.

(** Two handles have the same settings: name, credentials, write
    permission, job count and retry count. *)
Definition same_settings (b c : sthree.Bucket) : Prop :=
  sthree.name c = sthree.name b
  ∧ sthree.credentials c = sthree.credentials b
  ∧ sthree.NewFilePermission c = sthree.NewFilePermission b
  ∧ sthree.numJobs c = sthree.numJobs b
  ∧ sthree.numRetries c = sthree.numRetries b.

(** The world after one planned queue start has been consumed. *)
Definition started (w : World) : World :=
  {| remote := remote w; disk := disk w; log := log w;
     starts := tail (starts w) |}.

(** The number of listing requests it takes to list [k] keys. *)
Definition pages_for (k : nat) : nat := S ((k - 1) / Z.to_nat 1000).




(** The events of the goroutine of one repository, whose handle has the
    name [name]. *)
Definition repository_events (name remote : string) : list repobuilder.event :=
  [repobuilder.Started remote; repobuilder.Finished remote;
   repobuilder.Closed name].

(** Two jobs ask for the same thing: they differ at most in what a run
    records. *)
Definition same_request (j j' : repobuilder.Job) : Prop :=
  repobuilder.Distro j' = repobuilder.Distro j
  ∧ repobuilder.DryRun j' = repobuilder.DryRun j
  ∧ repobuilder.Version j' = repobuilder.Version j
  ∧ repobuilder.Arch j' = repobuilder.Arch j
  ∧ repobuilder.Profile j' = repobuilder.Profile j
  ∧ repobuilder.WorkSpace j' = repobuilder.WorkSpace j
  ∧ repobuilder.PackagePaths j' = repobuilder.PackagePaths j
  ∧ repobuilder.release j' = repobuilder.release j.

(** A handle made live and public-read, everything else kept. *)
Definition live_public (b : sthree.Bucket) : sthree.Bucket :=
  {| sthree.NewFilePermission := s3.PublicRead;
     sthree.open := sthree.open b;
     sthree.dryRun := false;
     sthree.credentials := sthree.credentials b;
     sthree.bucket := sthree.bucket b;
     sthree.s3 := sthree.s3 b;
     sthree.name := sthree.name b;
     sthree.numJobs := sthree.numJobs b;
     sthree.numRetries := sthree.numRetries b;
     sthree.queue := sthree.queue b |}.

(** A job holds what another held, and more: it asks for the same
    thing, and its working directories, errors and events start with
    those of the other; it is complete if the other was. *)
Definition extends (j j' : repobuilder.Job) : Prop :=
  repobuilder.workingDirs j `prefix_of` repobuilder.workingDirs j'
  ∧ repobuilder.Errors j `prefix_of` repobuilder.Errors j'
  ∧ repobuilder.history j `prefix_of` repobuilder.history j'
  ∧ same_request j j'
  ∧ (repobuilder.IsComplete j = true → repobuilder.IsComplete j' = true).

(** ** Sample data *)

Module sample.

(** A connected, open handle on the bucket ["repo"]. *)
Definition handle (retries : Z) (dry : bool) : sthree.Bucket :=
  {| sthree.NewFilePermission := s3.PublicRead;
     sthree.open := true;
     sthree.dryRun := dry;
     sthree.credentials := sthree.MkConf "key" "us-east-1";
     sthree.bucket := Some "repo";
     sthree.s3 := true;
     sthree.name := "repo";
     sthree.numJobs := 2;
     sthree.numRetries := retries;
     sthree.queue := Some (sthree.MkQueue 2) |}.

Definition object : s3.Object :=
  s3.MkObject [Byte.x01; Byte.x02] "application/x-redhat-package-manager"
              s3.PublicRead.

Definition objects (keys : list string) : gmap string s3.Object :=
  list_to_map ((λ k, (k, object)) <$> keys).

(** A local disk with one package file. *)
Definition local : os.Disk :=
  {| os.files := {[ "pkgs/a.rpm" := [Byte.x03] ]};
     os.dirs := {[ "pkgs" ]};
     os.denied := ∅ |}.

(** A world whose bucket holds [keys] and answers the coming requests
    as [faults] says. *)
Definition world (keys : list string) (faults : list (option error)) : World :=
  {| remote := s3.MkStore (objects keys) [] faults;
     disk := local; log := []; starts := [] |}.

(** [n] keys below ["nightly/"], all ending in [".rpm"]. *)
Definition packages (n : nat) : list string :=
  (λ i : nat, "nightly/pkg-" +:+ pretty i +:+ ".rpm") <$> seq 0 n.

(** The key records of a listing of [keys]. *)
Definition records (keys : list string) : list s3.Key :=
  s3.key_of (objects keys) <$> keys.

(** A builder that leaves the tree as it is. *)
Definition builder : repobuilder.jobImpl :=
  {| repobuilder.rebuildRepo := λ _, mret None;
     repobuilder.injectPackage := λ local _, mret (local, None) |}.

(** Sync operations that transfer nothing. *)
Definition no_sync : sthree.Bucket → string → string → M (option error) :=
  λ _ _ _, mret None.

(** A job for two RPM repositories. *)
Definition job (dry : bool) : repobuilder.Job :=
  {| repobuilder.Distro :=
       repobuilder.MkDistro repobuilder.RPM "repo" ["rhel7"; "rhel8"];
     repobuilder.DryRun := dry;
     repobuilder.Version := "4.2.1";
     repobuilder.Arch := "x86_64";
     repobuilder.Profile := "default";
     repobuilder.WorkSpace := "work";
     repobuilder.PackagePaths := ["pkgs/a.rpm"];
     repobuilder.workingDirs := [];
     repobuilder.release := curator.MkVersion false false "4.2";
     repobuilder.IsComplete := false;
     repobuilder.Errors := [];
     repobuilder.history := [] |}.

(** The handle of a bucket that has not been opened. *)
Definition closed_handle : sthree.Bucket :=
  {| sthree.NewFilePermission := s3.Private;
     sthree.open := false;
     sthree.dryRun := false;
     sthree.credentials := sthree.MkConf "key" "us-east-1";
     sthree.bucket := None;
     sthree.s3 := false;
     sthree.name := "repo";
     sthree.numJobs := 2;
     sthree.numRetries := 20;
     sthree.queue := None |}.

(** A world in which the coming queue starts end as [outcomes] says. *)
Definition starting (outcomes : list (option error)) : World :=
  {| remote := s3.MkStore (objects []) [] [];
     disk := local; log := []; starts := outcomes |}.

Definition timeout : error := errors.New "request timeout".
Definition reset : error := errors.New "connection reset".

End sample.

(** * Properties *)

(** A decidable closed proposition holds when its decision procedure
    evaluates to [true]. *)
Ltac by_decide := apply (bool_decide_unpack _); vm_compute; exact I.

Section retry.

Import sthree.

Variable b : Bucket.

Lemma remote_after_advance m cs1 cs2 r1 r2 w :
  remote_after m cs2 r2 (advance cs1 r1 w) = remote_after m (cs1 ++ cs2) r2 w.
Proof. unfold advance, remote_after; cbn. by rewrite <- app_assoc. Qed.

Lemma advance_advance cs1 cs2 r1 r2 w :
  advance cs2 r2 (advance cs1 r1 w) = advance (cs1 ++ cs2) r2 w.
Proof. unfold advance at 1. by rewrite remote_after_advance. Qed.

Lemma new_calls_remote_after m cs rest w :
  new_calls w (remote_after m cs rest w) = cs.
Proof. unfold new_calls, remote_after; cbn. by rewrite drop_app_length. Qed.

Lemma new_calls_advance cs rest w : new_calls w (advance cs rest w) = cs.
Proof. apply new_calls_remote_after. Qed.

Lemma request_fault c s e rest :
  s3.faults s = Some e :: rest →
  s3.request c s = (Some e, s3.MkStore (s3.objects s) (s3.calls s ++ [c]) rest).
Proof. intros H. unfold s3.request. by rewrite H. Qed.

Lemma request_ok c s :
  next_ok (s3.faults s) →
  s3.request c s
  = (None, s3.MkStore (s3.objects s) (s3.calls s ++ [c]) (tail (s3.faults s))).
Proof. intros H. unfold s3.request. by rewrite H. Qed.

(** *** [Exists] *)

Lemma Exists_loop_fault fuel path i ex err w e rest :
  s3.faults (remote w) = Some e :: rest →
  Exists_loop (S fuel) b path i ex err w
  = Exists_loop fuel b path (i + 1) false (Some (Exists_error b path e i))
                (advance [s3.ExistsCall path] rest w).
Proof.
  intros Hf. cbn [Exists_loop]. unfold mbind, M_bind, on_remote, s3.Exists.
  by rewrite (request_fault _ _ e rest).
Qed.

Lemma Exists_loop_ok fuel path i ex err w :
  next_ok (s3.faults (remote w)) →
  Exists_loop (S fuel) b path i ex err w
  = ((bool_decide (is_Some (s3.objects (remote w) !! path)), None),
     advance [s3.ExistsCall path] (tail (s3.faults (remote w))) w).
Proof.
  intros Hf. cbn [Exists_loop]. unfold mbind, M_bind, on_remote, s3.Exists.
  by rewrite request_ok.
Qed.

Lemma Exists_loop_exhausted path errs : ∀ i ex err w rest,
  errs ≠ [] →
  s3.faults (remote w) = (Some <$> errs) ++ rest →
  ∃ cause,
    Exists_loop (length errs) b path i ex err w
    = ((false, Some (Exists_error b path cause (i + Z.of_nat (length errs) - 1))),
       advance (replicate (length errs) (s3.ExistsCall path)) rest w).
Proof.
  induction errs as [|e errs IH]; intros i ex err w rest Hne Hf; [done|].
  cbn [length]. rewrite (Exists_loop_fault _ _ _ _ _ _ e ((Some <$> errs) ++ rest)) by done.
  destruct (decide (errs = [])) as [->|Hne'].
  - exists e. cbn [length Exists_loop]. unfold mret, M_ret.
    by replace (i + Z.of_nat 1 - 1) with i by lia.
  - destruct (IH (i + 1) false (Some (Exists_error b path e i))
                 (advance [s3.ExistsCall path] ((Some <$> errs) ++ rest) w)
                 rest) as [cause Hc]; [done|done|].
    exists cause. rewrite Hc, advance_advance.
    by replace (i + 1 + Z.of_nat (length errs) - 1)
      with (i + Z.of_nat (S (length errs)) - 1) by lia.
Qed.

Lemma Exists_loop_succeeds path errs : ∀ fuel i ex err w rest,
  s3.faults (remote w) = (Some <$> errs) ++ rest →
  next_ok rest →
  Exists_loop (length errs + S fuel) b path i ex err w
  = ((bool_decide (is_Some (s3.objects (remote w) !! path)), None),
     advance (replicate (S (length errs)) (s3.ExistsCall path)) (tail rest) w).
Proof.
  induction errs as [|e errs IH]; intros fuel i ex err w rest Hf Hok.
  - cbn [length Nat.add]. rewrite Exists_loop_ok by (by rewrite Hf).
    by rewrite Hf.
  - cbn [length Nat.add].
    rewrite (Exists_loop_fault _ _ _ _ _ _ e ((Some <$> errs) ++ rest)) by done.
    rewrite (IH fuel _ _ _ _ rest); [|done|done].
    by rewrite advance_advance.
Qed.

(** *** [Put] *)

Lemma Put_loop_fault fuel path contents mimeType i catcher w e rest :
  s3.faults (remote w) = Some e :: rest →
  Put_loop (S fuel) b path contents mimeType i catcher w
  = Put_loop fuel b path contents mimeType (i + 1)
             (catcher ++ Put_errors b path i [e])
             (advance [s3.PutCall path contents mimeType (NewFilePermission b)]
                      rest w).
Proof.
  intros Hf. cbn [Put_loop]. unfold mbind, M_bind, on_remote, s3.Put.
  by rewrite (request_fault _ _ e rest).
Qed.

Lemma Put_loop_ok fuel path contents mimeType i catcher w :
  next_ok (s3.faults (remote w)) →
  Put_loop (S fuel) b path contents mimeType i catcher w
  = ((Some None, catcher),
     remote_after
       (<[path := s3.MkObject contents mimeType (NewFilePermission b)]>
          (s3.objects (remote w)))
       [s3.PutCall path contents mimeType (NewFilePermission b)]
       (tail (s3.faults (remote w))) w).
Proof.
  intros Hf. cbn [Put_loop]. unfold mbind, M_bind, on_remote, s3.Put.
  by rewrite request_ok.
Qed.

Lemma Put_loop_exhausted path contents mimeType errs : ∀ i catcher w rest,
  s3.faults (remote w) = (Some <$> errs) ++ rest →
  Put_loop (length errs) b path contents mimeType i catcher w
  = ((None, catcher ++ Put_errors b path i errs),
     advance (replicate (length errs)
                (s3.PutCall path contents mimeType (NewFilePermission b)))
             rest w).
Proof.
  induction errs as [|e errs IH]; intros i catcher w rest Hf.
  - cbn. unfold mret, M_ret, advance, remote_after. rewrite !app_nil_r.
    destruct w as [[] ? ? ?]. cbn in *. by subst.
  - cbn [length].
    rewrite (Put_loop_fault _ _ _ _ _ _ _ e ((Some <$> errs) ++ rest)) by done.
    rewrite (IH _ _ _ rest) by done.
    rewrite advance_advance. cbn [Put_errors]. by rewrite <- app_assoc.
Qed.

Lemma Put_loop_succeeds path contents mimeType errs : ∀ fuel i catcher w rest,
  s3.faults (remote w) = (Some <$> errs) ++ rest →
  next_ok rest →
  Put_loop (length errs + S fuel) b path contents mimeType i catcher w
  = ((Some None, catcher ++ Put_errors b path i errs),
     remote_after
       (<[path := s3.MkObject contents mimeType (NewFilePermission b)]>
          (s3.objects (remote w)))
       (replicate (S (length errs))
                  (s3.PutCall path contents mimeType (NewFilePermission b)))
       (tail rest) w).
Proof.
  induction errs as [|e errs IH]; intros fuel i catcher w rest Hf Hok.
  - cbn [length Nat.add]. rewrite Put_loop_ok by (by rewrite Hf).
    cbn. by rewrite Hf, app_nil_r.
  - cbn [length Nat.add].
    rewrite (Put_loop_fault _ _ _ _ _ _ _ e ((Some <$> errs) ++ rest)) by done.
    rewrite (IH fuel _ _ _ rest); [|done|done].
    rewrite remote_after_advance. cbn [Put_errors]. by rewrite <- app_assoc.
Qed.

(** *** [Get] *)

Lemma Get_loop_fault fuel path data catcher w e rest :
  s3.faults (remote w) = Some e :: rest →
  Get_loop (S fuel) b path data catcher w
  = Get_loop fuel b path [] (catcher ++ Get_errors [e])
             (advance [s3.GetCall path] rest w).
Proof.
  intros Hf. cbn [Get_loop]. unfold mbind, M_bind, on_remote, s3.Get.
  by rewrite (request_fault _ _ e rest).
Qed.

Lemma Get_loop_ok fuel path data catcher w o :
  next_ok (s3.faults (remote w)) →
  s3.objects (remote w) !! path = Some o →
  Get_loop (S fuel) b path data catcher w
  = ((s3.data o, grip.NewCatcher),
     advance [s3.GetCall path] (tail (s3.faults (remote w))) w).
Proof.
  intros Hf Ho. cbn [Get_loop]. unfold mbind, M_bind, on_remote, s3.Get.
  rewrite request_ok by done. by rewrite Ho.
Qed.

Lemma Get_loop_exhausted path errs : ∀ data catcher w rest,
  errs ≠ [] →
  s3.faults (remote w) = (Some <$> errs) ++ rest →
  Get_loop (length errs) b path data catcher w
  = (([], catcher ++ Get_errors errs),
     advance (replicate (length errs) (s3.GetCall path)) rest w).
Proof.
  induction errs as [|e errs IH]; intros data catcher w rest Hne Hf; [done|].
  cbn [length].
  rewrite (Get_loop_fault _ _ _ _ _ e ((Some <$> errs) ++ rest)) by done.
  destruct (decide (errs = [])) as [->|Hne'].
  - done.
  - rewrite (IH _ _ _ rest); [|done|done].
    rewrite advance_advance. unfold Get_errors. cbn [fmap list_fmap].
    by rewrite <- app_assoc.
Qed.

Lemma Get_loop_succeeds path o errs : ∀ fuel data catcher w rest,
  s3.faults (remote w) = (Some <$> errs) ++ rest →
  next_ok rest →
  s3.objects (remote w) !! path = Some o →
  Get_loop (length errs + S fuel) b path data catcher w
  = ((s3.data o, grip.NewCatcher),
     advance (replicate (S (length errs)) (s3.GetCall path)) (tail rest) w).
Proof.
  induction errs as [|e errs IH]; intros fuel data catcher w rest Hf Hok Ho.
  - cbn [length Nat.add]. rewrite (Get_loop_ok _ _ _ _ _ o); [|by rewrite Hf|done].
    by rewrite Hf.
  - cbn [length Nat.add].
    rewrite (Get_loop_fault _ _ _ _ _ e ((Some <$> errs) ++ rest)) by done.
    rewrite (IH fuel _ _ _ rest); [|done|done|done].
    by rewrite advance_advance.
Qed.

Lemma Get_write_writable fileName data w :
  writable fileName (disk w) →
  Get_write fileName data w
  = (None, disk_after (written fileName data (disk w)) w).
Proof.
  intros (Hden & Hdir & Hne & Hd).
  unfold Get_write, mbind, M_bind, read_disk, written.
  destruct (os.NotExist (Dir fileName) (disk w)) eqn:Hmiss.
  - unfold on_disk at 1, os.MkdirAll.
    apply bool_decide_eq_true in Hmiss as [Hnf Hnd].
    destruct Hd as [Hd|[_ Hd]]; [done|].
    rewrite bool_decide_eq_false_2; [|rewrite Hnf; intros [?|[? ?]]; done].
    cbn. unfold on_disk, os.WriteFile. cbn.
    rewrite bool_decide_eq_false_2; [done|].
    intros [?|[?%elem_of_singleton|?]%elem_of_union]; done.
  - unfold mret at 1, M_ret. cbn. unfold on_disk, os.WriteFile.
    rewrite bool_decide_eq_false_2; [|intros [?|?]; done].
    cbn. unfold disk_after. by destruct w.
Qed.

(** *** The operations *)

Lemma Put_reads fileName path contents w :
  os.files (disk w) !! fileName = Some contents →
  dryRun b = false →
  Put b fileName path w
  = (let '(returned, catcher, w') :=
       Put_loop (Z.to_nat (numRetries b)) b path contents
                (getMimeType fileName) 1 grip.NewCatcher w in
     match returned with
     | Some r => (r, w')
     | None =>
         if grip.HasErrors catcher
         then (Some (errors.Errorf
                       "could not upload %s/%s in %d attempts. Errors: %s"
                       [errors.Str (name b); errors.Str path;
                        errors.Int (numRetries b);
                        errors.Err (grip.Resolve catcher)]), w')
         else (None, w')
     end).
Proof.
  intros Hfile Hdry. unfold Put, mbind, M_bind, read_disk at 1, os.NotExist.
  rewrite bool_decide_eq_false_2 by (rewrite Hfile; intros [[=] _]).
  unfold read_disk, os.ReadFile. rewrite Hfile, Hdry.
  destruct (Put_loop _ _ _ _ _ _ _ w) as [[[r|] catcher] w']; [done|].
  by destruct (grip.HasErrors catcher).
Qed.

Lemma Put_errors_nonempty path i errs :
  errs ≠ [] → grip.HasErrors (Put_errors b path i errs) = true.
Proof. by destruct errs. Qed.

Lemma Get_errors_nonempty errs :
  errs ≠ [] → grip.HasErrors (Get_errors errs) = true.
Proof. by destruct errs. Qed.

End retry.

(** C3: with a retry bound N ≥ 1, a retried operation whose underlying
    request fails N−1 times and then succeeds returns success after exactly
    N requests, and one whose request fails N times returns, after exactly
    N requests, an error that cites N attempts.  [errs] are the errors of
    the failing requests and [rest] the outcomes planned after them; [Put]
    is taken on a live handle with a readable local file, and [Get], where
    it succeeds, on an object that exists and a local file that can be
    written. *)
Theorem retry_bound (b : sthree.Bucket) (N : nat) (errs : list error)
        (rest : list (option error)) (w : World) :
  (1 ≤ N)%nat →
  sthree.numRetries b = Z.of_nat N →
  s3.faults (remote w) = (Some <$> errs) ++ rest →
  (length errs = (N - 1)%nat → next_ok rest →
     (∀ path,
        fst (sthree.Exists b path w)
        = (bool_decide (is_Some (s3.objects (remote w) !! path)), None)
        ∧ new_calls w (snd (sthree.Exists b path w))
          = replicate N (s3.ExistsCall path))
     ∧ (∀ fileName path contents,
          sthree.dryRun b = false →
          os.files (disk w) !! fileName = Some contents →
          fst (sthree.Put b fileName path w) = None
          ∧ new_calls w (snd (sthree.Put b fileName path w))
            = replicate N (s3.PutCall path contents (sthree.getMimeType fileName)
                                      (sthree.NewFilePermission b))
          ∧ s3.objects (remote (snd (sthree.Put b fileName path w))) !! path
            = Some (s3.MkObject contents (sthree.getMimeType fileName)
                                (sthree.NewFilePermission b)))
     ∧ (∀ path fileName o,
          s3.objects (remote w) !! path = Some o →
          writable fileName (disk w) →
          fst (sthree.Get b path fileName w) = None
          ∧ new_calls w (snd (sthree.Get b path fileName w))
            = replicate N (s3.GetCall path)
          ∧ os.files (disk (snd (sthree.Get b path fileName w))) !! fileName
            = Some (s3.data o)))
  ∧
  (length errs = N →
     (∀ path,
        (∃ cause,
           fst (sthree.Exists b path w)
           = (false, Some (Exists_error b path cause (Z.of_nat N))))
        ∧ new_calls w (snd (sthree.Exists b path w))
          = replicate N (s3.ExistsCall path))
     ∧ (∀ fileName path contents,
          sthree.dryRun b = false →
          os.files (disk w) !! fileName = Some contents →
          fst (sthree.Put b fileName path w) = Some (Put_exhausted b path errs)
          ∧ attempts_cited (Put_exhausted b path errs) = Some (Z.of_nat N)
          ∧ new_calls w (snd (sthree.Put b fileName path w))
            = replicate N (s3.PutCall path contents (sthree.getMimeType fileName)
                                      (sthree.NewFilePermission b)))
     ∧ (∀ path fileName,
          fst (sthree.Get b path fileName w) = Some (Get_exhausted b path errs)
          ∧ attempts_cited (Get_exhausted b path errs) = Some (Z.of_nat N)
          ∧ new_calls w (snd (sthree.Get b path fileName w))
            = replicate N (s3.GetCall path)
          ∧ disk (snd (sthree.Get b path fileName w)) = disk w)).
Proof.
  intros HN Hretries Hfaults. split.
  - intros Hlen Hok.
    assert (Z.to_nat (sthree.numRetries b) = (length errs + 1)%nat) as Hfuel
        by (rewrite Hretries; lia).
    assert (N = S (length errs)) as HS by lia.
    split; [|split].
    + intros path. unfold sthree.Exists. rewrite Hfuel.
      rewrite (Exists_loop_succeeds b path errs 0 _ _ _ w rest) by done.
      cbn [fst snd]. by rewrite new_calls_advance, HS.
    + intros fileName path contents Hdry Hfile.
      rewrite (Put_reads b fileName path contents) by done.
      rewrite Hfuel.
      rewrite (Put_loop_succeeds b path contents _ errs 0 _ _ w rest) by done.
      cbn [fst snd]. rewrite new_calls_remote_after, HS. repeat split.
      cbn. by rewrite lookup_insert_eq.
    + intros path fileName o Ho Hw. unfold sthree.Get, mbind, M_bind.
      rewrite Hfuel.
      rewrite (Get_loop_succeeds b path o errs 0 _ _ w rest) by done.
      cbn [grip.HasErrors grip.NewCatcher].
      rewrite Get_write_writable by done.
      cbn [fst snd]. repeat split.
      * unfold new_calls. cbn. by rewrite drop_app_length, HS.
      * cbn. by rewrite lookup_insert_eq.
  - intros Hlen.
    assert (Z.to_nat (sthree.numRetries b) = length errs) as Hfuel
        by (rewrite Hretries; lia).
    assert (errs ≠ []) as Hne by (intros ->; cbn in Hlen; lia).
    split; [|split].
    + intros path. unfold sthree.Exists. rewrite Hfuel.
      destruct (Exists_loop_exhausted b path errs 1 false None w rest)
        as [cause Hc]; [done|done|].
      rewrite Hc. cbn [fst snd]. rewrite new_calls_advance, Hlen. split; [|done].
      exists cause. by replace (1 + Z.of_nat N - 1) with (Z.of_nat N) by lia.
    + intros fileName path contents Hdry Hfile.
      rewrite (Put_reads b fileName path contents) by done.
      rewrite Hfuel.
      rewrite (Put_loop_exhausted b path contents _ errs _ _ w rest) by done.
      cbn [grip.NewCatcher app].
      rewrite Put_errors_nonempty by done.
      cbn [fst snd]. rewrite new_calls_advance, Hlen. repeat split.
      cbn. by rewrite Hretries.
    + intros path fileName. unfold sthree.Get, mbind, M_bind.
      rewrite Hfuel.
      rewrite (Get_loop_exhausted b path errs _ _ w rest) by done.
      cbn [grip.NewCatcher app].
      rewrite Get_errors_nonempty by done.
      unfold mret, M_ret.
      cbn [fst snd]. rewrite new_calls_advance, Hlen. repeat split.
      cbn. by rewrite Hretries.
Qed.


Lemma retry_bound_witness :
  (fst (sthree.Exists (sample.handle 3 false) "a.rpm"
          (sample.world ["a.rpm"] [Some sample.timeout; Some sample.reset]))
   = (true, None)
   ∧ new_calls (sample.world ["a.rpm"] [Some sample.timeout; Some sample.reset])
       (snd (sthree.Exists (sample.handle 3 false) "a.rpm"
               (sample.world ["a.rpm"] [Some sample.timeout; Some sample.reset])))
     = replicate 3 (s3.ExistsCall "a.rpm"))
  ∧ fst (sthree.Put (sample.handle 3 false) "pkgs/a.rpm" "b.rpm"
           (sample.world ["a.rpm"] [Some sample.timeout; Some sample.reset]))
    = None
  ∧ fst (sthree.Get (sample.handle 3 false) "a.rpm" "out/a.rpm"
           (sample.world ["a.rpm"] [Some sample.timeout; Some sample.reset]))
    = None
  ∧ fst (sthree.Get (sample.handle 2 false) "a.rpm" "out/a.rpm"
           (sample.world ["a.rpm"] [Some sample.timeout; Some sample.reset]))
    = Some (Get_exhausted (sample.handle 2 false) "a.rpm"
                          [sample.timeout; sample.reset]).
Proof.
  pose proof (retry_bound (sample.handle 3 false) 3
                [sample.timeout; sample.reset] []
                (sample.world ["a.rpm"] [Some sample.timeout; Some sample.reset])
                ltac:(lia) eq_refl eq_refl) as [Hok _].
  destruct (Hok eq_refl eq_refl) as (HE & HP & HG).
  pose proof (retry_bound (sample.handle 2 false) 2
                [sample.timeout; sample.reset] []
                (sample.world ["a.rpm"] [Some sample.timeout; Some sample.reset])
                ltac:(lia) eq_refl eq_refl) as [_ Hko].
  destruct (Hko eq_refl) as (_ & _ & HG').
  split; [exact (HE "a.rpm")|].
  split; [exact (proj1 (HP "pkgs/a.rpm" "b.rpm" [Byte.x03] eq_refl eq_refl))|].
  split; [|exact (proj1 (HG' "a.rpm" "out/a.rpm"))].
  refine (proj1 (HG "a.rpm" "out/a.rpm" sample.object eq_refl _)).
  by_decide.
Defined.

(** ** Listing *)

Section listing.

Import sthree.

Lemma compare_refl (s : string) : String.compare s s = Eq.
Proof.
  pose proof (String.compare_antisym s s) as H.
  by destruct (String.compare s s).
Qed.

Lemma ltb_iff (a b : string) :
  String.ltb a b = true ↔ String.le a b ∧ a ≠ b.
Proof.
  unfold String.le, String.leb, String.ltb.
  destruct (String.compare a b) eqn:Hc; cbn.
  - apply String.compare_eq_iff in Hc. split; [done|]. by intros [_ ?].
  - split; [|done]. intros _. split; [done|].
    intros ->. by rewrite compare_refl in Hc.
  - split; [done|]. by intros [? _].
Qed.

Lemma le_empty (a : string) : String.le a "" → a = "".
Proof. by destruct a. Qed.

Lemma filter_all {A} (P : A → Prop) `{!∀ x, Decision (P x)} (l : list A) :
  Forall P l → filter P l = l.
Proof.
  induction 1 as [|x l Hx _ IH]; [done|].
  by rewrite filter_cons_True, IH.
Qed.

Lemma StronglySorted_filter {A} (R : relation A) (P : A → Prop)
      `{!∀ x, Decision (P x)} (l : list A) :
  StronglySorted R l → StronglySorted R (filter P l).
Proof.
  induction 1 as [|x l _ IH Hx]; [constructor|].
  rewrite filter_cons. destruct (decide (P x)); [|done].
  constructor; [done|].
  apply Forall_forall. intros y [_ Hy]%list_elem_of_filter.
  by eapply Forall_forall in Hx.
Qed.

(** In a sorted list without duplicates, the elements after the one at
    position [k] are those that follow it. *)
Lemma filter_after_sorted (L : list string) : ∀ k m,
  StronglySorted String.le L → NoDup L →
  L !! k = Some m → m ≠ "" →
  filter (s3.after m) L = drop (S k) L.
Proof.
  induction L as [|x L IH]; intros k m Hs Hnd Hk Hm; [done|].
  apply StronglySorted_inv in Hs as [Hs Hx].
  apply NoDup_cons in Hnd as [Hnx Hnd].
  destruct k as [|k]; simplify_eq/=.
  - rewrite filter_cons_False.
    + apply filter_all, Forall_forall. intros y Hy. right.
      apply ltb_iff. split; [by eapply Forall_forall in Hx|].
      intros ->. done.
    + intros [?|[_ Hne]%ltb_iff]; done.
  - rewrite filter_cons_False; [by apply IH|].
    intros [?|[Hle Hne]%ltb_iff]; [done|].
    assert (String.le x m) as Hxm.
    { eapply Forall_forall in Hx; [done|]. by eapply list_elem_of_lookup_2. }
    assert (m = x) as -> by (by apply (anti_symm String.le)).
    done.
Qed.

Section bucket.

Variable objs : gmap string s3.Object.
Variable prefix : string.

Local Notation "'P'" := (under prefix objs).

Lemma sorted_keys_sorted : StronglySorted String.le (s3.sorted_keys objs).
Proof. apply StronglySorted_merge_sort; apply _. Qed.

Lemma sorted_keys_NoDup : NoDup (s3.sorted_keys objs).
Proof.
  unfold s3.sorted_keys. rewrite merge_sort_Permutation. apply NoDup_elements.
Qed.

Lemma sorted_keys_length : length (s3.sorted_keys objs) = size objs.
Proof.
  unfold s3.sorted_keys. rewrite merge_sort_Permutation.
  by rewrite <- size_dom.
Qed.

Lemma under_sorted : StronglySorted String.le P.
Proof. apply StronglySorted_filter, sorted_keys_sorted. Qed.

Lemma under_NoDup : NoDup P.
Proof. apply NoDup_filter, sorted_keys_NoDup. Qed.

Lemma under_length : (length P ≤ size objs)%nat.
Proof. rewrite <- sorted_keys_length. apply length_filter. Qed.

Lemma selected_under marker :
  s3.selected prefix marker objs = filter (s3.after marker) P.
Proof.
  unfold s3.selected, under. rewrite list_filter_filter.
  apply list_filter_iff. intros k. split; intros [? ?]; done.
Qed.

(** The marker of a page that does not start at position 1 is not
    empty. *)
Lemma marker_at_nonempty n m :
  (2 ≤ n)%nat → P !! (n - 1)%nat = Some m → m ≠ "".
Proof.
  intros Hn Hm ->.
  pose proof under_sorted as Hs. pose proof under_NoDup as Hnd.
  destruct (P !! 0%nat) as [a|] eqn:Ha.
  - assert (String.le a "") as Hle.
    { rewrite <- (take_drop_middle P (n - 1) "") in Hs by done.
      apply (StronglySorted_app_1_elem_of String.le _ _ a "") in Hs;
        [done| |left].
      apply elem_of_take. exists 0%nat. split; [done|lia]. }
    apply le_empty in Hle as ->.
    pose proof (NoDup_lookup _ _ _ _ Hnd Ha Hm). lia.
  - apply lookup_ge_None in Ha. apply lookup_lt_Some in Hm. lia.
Qed.

(** What a request with the marker of position [n] selects. *)
Lemma selected_at n :
  (n = 0 ∨ 2 ≤ n)%nat → (n ≤ length P)%nat →
  s3.selected prefix (marker_at P n) objs = drop n P.
Proof.
  intros Hn Hlen. rewrite selected_under. destruct n as [|k]; cbn.
  - apply filter_all, Forall_forall. by left.
  - destruct (P !! k) as [m|] eqn:Hm; cbn.
    + apply filter_after_sorted;
        [apply under_sorted|apply under_NoDup|done|].
      apply (marker_at_nonempty (S k)); [lia|].
      by replace (S k - 1)%nat with k by lia.
    + apply lookup_ge_None in Hm. lia.
Qed.

End bucket.

(** *** The pages of [list] *)

Lemma foldl_last_key (m : gmap string s3.Object) (l : list string) d :
  foldl (λ _ key, s3.Key_Key key) d (s3.key_of m <$> l) = default d (last l).
Proof.
  revert d. induction l as [|x l IH]; intros d; [done|].
  cbn [fmap list_fmap foldl]. rewrite IH.
  destruct l as [|y l]; [done|].
  change (last (x :: y :: l)) with (last (y :: l)).
  destruct (last (y :: l)) eqn:Hl; [done|]. by apply last_None in Hl.
Qed.

Lemma list_pages_fault fuel prefix lastKey output w e rest :
  s3.faults (remote w) = Some e :: rest →
  list_pages (S fuel) prefix lastKey output w
  = (output, list_failed prefix lastKey e rest w).
Proof.
  intros Hf. cbn [list_pages]. unfold mbind, M_bind, on_remote, s3.List.
  by rewrite (request_fault _ _ e rest).
Qed.

Lemma list_pages_ok fuel prefix lastKey output w :
  next_ok (s3.faults (remote w)) →
  list_pages (S fuel) prefix lastKey output w
  = (let ks := s3.selected prefix lastKey (s3.objects (remote w)) in
     let page := take (Z.to_nat 1000) ks in
     let output' := output ++ (s3.key_of (s3.objects (remote w)) <$> page) in
     let w' := advance [s3.ListCall prefix "" lastKey 1000]
                       (tail (s3.faults (remote w))) w in
     if bool_decide (Z.to_nat 1000 < length ks)%nat
     then list_pages fuel prefix (default lastKey (last page)) output' w'
     else (output', w')).
Proof.
  intros Hf. cbn [list_pages]. unfold mbind, M_bind, on_remote, s3.List.
  rewrite request_ok by done. cbn [s3.Contents s3.IsTruncated].
  rewrite foldl_last_key. by case_bool_decide.
Qed.

Section pages.

Variable objs : gmap string s3.Object.
Variable prefix : string.

Local Notation "'P'" := (under prefix objs).

(** The last key of a full page is the marker of the next one. *)
Lemma last_page n lastKey :
  (Z.to_nat 1000 < length (drop n P))%nat →
  default lastKey (last (take (Z.to_nat 1000) (drop n P)))
  = marker_at P (n + Z.to_nat 1000).
Proof.
  intros Hlen. rewrite length_drop in Hlen.
  rewrite last_lookup, length_take, length_drop.
  rewrite Nat.min_l by lia.
  rewrite lookup_take_lt by lia. rewrite lookup_drop.
  replace (n + Z.to_nat 1000)%nat with (S (n + Nat.pred (Z.to_nat 1000))) by lia.
  cbn [marker_at].
  destruct (P !! (n + Nat.pred (Z.to_nat 1000))%nat) eqn:Hl; [done|].
  apply lookup_ge_None in Hl. lia.
Qed.

(** Whatever the fuel, as long as it exceeds the number of keys left,
    the loop gives the same result: [list] never runs out of it. *)
Lemma list_pages_enough fuel1 : ∀ fuel2 n output w,
  s3.objects (remote w) = objs →
  (n = 0 ∨ 2 ≤ n)%nat → (n ≤ length P)%nat →
  (length P - n < fuel1)%nat → (length P - n < fuel2)%nat →
  list_pages fuel1 prefix (marker_at P n) output w
  = list_pages fuel2 prefix (marker_at P n) output w.
Proof.
  induction fuel1 as [|fuel1 IH]; intros fuel2 n output w Ho Hn Hle H1 H2;
    [lia|].
  destruct fuel2 as [|fuel2]; [lia|].
  destruct (s3.faults (remote w)) as [|[e|] rest] eqn:Hf.
  - rewrite !list_pages_ok by (by rewrite Hf).
    cbv zeta. rewrite Ho, selected_at by done.
    case_bool_decide as Hlen; [|done].
    rewrite last_page by done. rewrite length_drop in Hlen.
    apply IH; [done|lia|lia|lia|lia].
  - by rewrite !(list_pages_fault _ _ _ _ _ e rest).
  - rewrite !list_pages_ok by (by rewrite Hf).
    cbv zeta. rewrite Ho, selected_at by done.
    case_bool_decide as Hlen; [|done].
    rewrite last_page by done. rewrite length_drop in Hlen.
    apply IH; [done|lia|lia|lia|lia].
Qed.

(** When no request fails, the loop sends every key from position [n]
    on, page by page, with listing requests only. *)
Lemma list_pages_all fuel : ∀ n output w,
  s3.objects (remote w) = objs →
  s3.faults (remote w) = [] →
  (n = 0 ∨ 2 ≤ n)%nat → (n ≤ length P)%nat →
  (length P - n < fuel)%nat →
  ∃ cs,
    list_pages fuel prefix (marker_at P n) output w
    = (output ++ (s3.key_of objs <$> drop n P), advance cs [] w)
    ∧ Forall (λ c, s3.mutating c = false) cs.
Proof.
  induction fuel as [|fuel IH]; intros n output w Ho Hf Hn Hle Hfuel; [lia|].
  rewrite list_pages_ok by (by rewrite Hf).
  cbv zeta. rewrite Ho, Hf, selected_at by done. cbn [tail].
  case_bool_decide as Hlen.
  - rewrite last_page by done. rewrite length_drop in Hlen.
    destruct (IH (n + Z.to_nat 1000)%nat
                 (output ++ (s3.key_of objs <$> take (Z.to_nat 1000) (drop n P)))
                 (advance [s3.ListCall prefix "" (marker_at P n) 1000] [] w))
      as (cs & Hcs & Hall); [done|done|lia|lia|lia|].
    eexists. rewrite Hcs, advance_advance. split.
    + f_equal. rewrite <- app_assoc, <- fmap_app. do 2 f_equal.
      rewrite <- drop_drop. apply take_drop.
    + by constructor.
  - eexists. split.
    + do 2 f_equal. f_equal. apply take_ge. lia.
    + by repeat constructor.
Qed.

End pages.

(** [list] hands its loop enough fuel. *)
Lemma list_total (b : Bucket) (prefix : string) (w : World) (fuel : nat) :
  (size (s3.objects (remote w)) < fuel)%nat →
  list_pages fuel (list_prefix prefix) "" [] w = list_ b prefix w.
Proof.
  intros Hfuel. unfold list_.
  pose proof (under_length (s3.objects (remote w)) (list_prefix prefix)).
  apply (list_pages_enough (s3.objects (remote w)) _ _ _ 0%nat);
    [done|by left|lia|lia|lia].
Qed.

(** The listing of a bucket whose requests succeed. *)
Lemma list_all (b : Bucket) (prefix : string) (w : World) :
  s3.faults (remote w) = [] →
  ∃ cs,
    list_ b prefix w
    = (s3.key_of (s3.objects (remote w))
         <$> under (list_prefix prefix) (s3.objects (remote w)),
       advance cs [] w)
    ∧ Forall (λ c, s3.mutating c = false) cs.
Proof.
  intros Hf. unfold list_.
  pose proof (under_length (s3.objects (remote w)) (list_prefix prefix)).
  destruct (list_pages_all (s3.objects (remote w)) (list_prefix prefix)
              (S (size (s3.objects (remote w)))) 0%nat [] w)
    as (cs & Hcs & Hall); [done|done|by left|lia|lia|].
  exists cs. split; [exact Hcs|done].
Qed.

End listing.


(** ** Deleting a group of keys *)

Section deleting.

Import sthree.

Variable b : Bucket.

Lemma deleteGroup_loop_cons key items toDelete count w :
  count ≠ 1000 →
  deleteGroup_loop b (key :: items) toDelete count w
  = deleteGroup_loop b items (toDelete ++ [s3.Key_Key key]) (count + 1) w.
Proof.
  intros Hc. cbn [deleteGroup_loop].
  by rewrite (proj2 (Z.eqb_neq count 1000)) by done.
Qed.

Lemma deleteGroup_loop_nil toDelete w count :
  count ≠ 1000 → dryRun b = false → toDelete ≠ [] →
  deleteGroup_loop b [] toDelete count w = bulk_delete b false toDelete w.
Proof.
  intros Hc Hdry Hne. cbn [deleteGroup_loop].
  rewrite (proj2 (Z.eqb_neq count 1000)) by done. cbn [andb].
  rewrite Hdry. destruct toDelete as [|k ks]; [done|].
  by rewrite (proj2 (Z.ltb_lt 0 _)) by (cbn [length]; lia).
Qed.

Lemma deleteGroup_loop_full items toDelete w :
  dryRun b = false →
  deleteGroup_loop b items toDelete 1000 w = bulk_delete b true toDelete w.
Proof. intros Hdry. destruct items; cbn [deleteGroup_loop]; by rewrite Hdry. Qed.

(** Below the limit the loop only collects keys. *)
Lemma deleteGroup_loop_collect items1 : ∀ items2 toDelete count w,
  0 ≤ count → count + Z.of_nat (length items1) ≤ 1000 →
  deleteGroup_loop b (items1 ++ items2) toDelete count w
  = deleteGroup_loop b items2 (toDelete ++ names items1)
                     (count + Z.of_nat (length items1)) w.
Proof.
  induction items1 as [|key items1 IH]; intros items2 toDelete count w H0 Hle.
  - cbn [length app names fmap list_fmap]. rewrite app_nil_r.
    by replace (count + Z.of_nat 0) with count by lia.
  - cbn [length] in *. cbn [app]. rewrite deleteGroup_loop_cons by lia.
    rewrite IH by lia. unfold names. cbn [fmap list_fmap].
    rewrite <- app_assoc. cbn [app].
    by replace (count + 1 + Z.of_nat (length items1))
      with (count + Z.of_nat (S (length items1))) by lia.
Qed.

(** On a live handle, a group that reaches the limit is cut there: its
    first thousand keys go out in one request and the function returns. *)
Lemma deleteGroup_cut items w :
  dryRun b = false → (Z.to_nat 1000 ≤ length items)%nat →
  deleteGroup b items w
  = bulk_delete b true (names (take (Z.to_nat 1000) items)) w.
Proof.
  intros Hdry Hlen. unfold deleteGroup.
  rewrite <- (take_drop (Z.to_nat 1000) items) at 1.
  rewrite deleteGroup_loop_collect; [|lia|rewrite length_take; lia].
  rewrite length_take, Nat.min_l by lia.
  by rewrite deleteGroup_loop_full.
Qed.

(** A smaller group goes out in one request, an empty one in none. *)
Lemma deleteGroup_small items w :
  dryRun b = false → (length items < Z.to_nat 1000)%nat → items ≠ [] →
  deleteGroup b items w = bulk_delete b false (names items) w.
Proof.
  intros Hdry Hlen Hne. unfold deleteGroup.
  rewrite <- (app_nil_r items) at 1.
  rewrite deleteGroup_loop_collect by lia.
  rewrite deleteGroup_loop_nil; [done|lia|done|].
  unfold names. by destruct items.
Qed.

Lemma deleteGroup_nil w : deleteGroup b [] w = (None, w).
Proof. unfold deleteGroup. cbn. by destruct (dryRun b). Qed.

(** In dry-run mode the loop sends nothing. *)
Lemma deleteGroup_loop_dry items : ∀ toDelete count w,
  dryRun b = true → deleteGroup_loop b items toDelete count w = (None, w).
Proof.
  induction items as [|key items IH]; intros toDelete count w Hdry;
    cbn [deleteGroup_loop]; rewrite Hdry, andb_false_r.
  - destruct (count =? 1000); [done|]. by destruct (0 <? _).
  - destruct (count =? 1000); by rewrite IH.
Qed.

Lemma bulk_delete_calls intermediate ks w :
  new_calls w (snd (bulk_delete b intermediate ks w)) = [s3.DelMultiCall ks].
Proof.
  unfold bulk_delete, mbind, M_bind, on_remote, s3.DelMulti, s3.request.
  destruct (default None (head (s3.faults (remote w))));
    unfold new_calls; cbn; by rewrite drop_app_length.
Qed.

Lemma bulk_delete_ok intermediate ks w :
  next_ok (s3.faults (remote w)) →
  bulk_delete b intermediate ks w
  = (None, remote_after (s3.delete_all ks (s3.objects (remote w)))
                        [s3.DelMultiCall ks] (tail (s3.faults (remote w))) w).
Proof.
  intros Hok. unfold bulk_delete, mbind, M_bind, on_remote, s3.DelMulti.
  rewrite request_ok by done. by destruct intermediate.
Qed.

Lemma lookup_delete_all (ks : list string) (m : gmap string s3.Object) k :
  s3.delete_all ks m !! k = if decide (k ∈ ks) then None else m !! k.
Proof.
  induction ks as [|x ks IH]; cbn [s3.delete_all foldr].
  - by rewrite decide_False by apply not_elem_of_nil.
  - fold (s3.delete_all ks m). rewrite lookup_delete, IH.
    destruct (decide (x = k)) as [->|Hne].
    + by rewrite decide_True by left.
    + destruct (decide (k ∈ ks)).
      * by rewrite decide_True by (by right).
      * rewrite decide_False; [done|]. by intros [?|?]%elem_of_cons.
Qed.

End deleting.


(** ** Dry-run mode *)

Section dry_run.

Import sthree.

Variable b : Bucket.

Lemma inert_refl w : inert w w.
Proof. split; [done|]. exists []. by rewrite app_nil_r. Qed.

Lemma inert_trans w1 w2 w3 : inert w1 w2 → inert w2 w3 → inert w1 w3.
Proof.
  intros [Ho1 (cs1 & Hc1 & H1)] [Ho2 (cs2 & Hc2 & H2)]. split; [congruence|].
  exists (cs1 ++ cs2). rewrite Hc2, Hc1, <- app_assoc. split; [done|].
  by apply Forall_app.
Qed.

Lemma inert_advance cs rest w :
  Forall (λ c, s3.mutating c = false) cs → inert w (advance cs rest w).
Proof. intros Hcs. split; [done|]. by exists cs. Qed.

Lemma inert_with_log entries w : inert w (with_log entries w).
Proof. split; [done|]. exists []. cbn. by rewrite app_nil_r. Qed.

(** Listing never changes the bucket, whatever the outcome of its
    requests. *)
Lemma list_pages_inert fuel : ∀ prefix lastKey output w,
  inert w (snd (list_pages fuel prefix lastKey output w)).
Proof.
  induction fuel as [|fuel IH]; intros prefix lastKey output w;
    [apply inert_refl|].
  destruct (s3.faults (remote w)) as [|[e|] rest] eqn:Hf.
  - rewrite list_pages_ok by (by rewrite Hf). cbv zeta.
    case_bool_decide.
    + eapply inert_trans; [|apply IH]. apply inert_advance. by repeat constructor.
    + apply inert_advance. by repeat constructor.
  - rewrite (list_pages_fault _ _ _ _ _ e rest) by done.
    split; [done|]. eexists. split; [done|]. by repeat constructor.
  - rewrite list_pages_ok by (by rewrite Hf). cbv zeta.
    case_bool_decide.
    + eapply inert_trans; [|apply IH]. apply inert_advance. by repeat constructor.
    + apply inert_advance. by repeat constructor.
Qed.

Lemma list_inert prefix w : inert w (snd (list_ b prefix w)).
Proof. apply list_pages_inert. Qed.

(** What the goroutine of [DeleteMany] sends and logs. *)
Lemma DeleteMany_select_spec contents paths : ∀ w,
  DeleteMany_select b contents paths w
  = (omap (λ p, contents !! p) paths, with_log (warnings b contents paths) w).
Proof.
  induction paths as [|p paths IH]; intros w.
  - unfold with_log, warnings. cbn. rewrite app_nil_r. by destruct w.
  - cbn [DeleteMany_select omap list_omap]. unfold warnings. rewrite filter_cons.
    destruct (contents !! p) as [key|] eqn:Hp.
    + unfold mbind, M_bind. rewrite IH.
      by rewrite decide_False by done.
    + unfold mbind, M_bind, logged. rewrite IH.
      rewrite decide_True by done. unfold with_log, warnings. cbn.
      by rewrite <- app_assoc.
Qed.

(** In dry-run mode [Put] sends nothing. *)
Lemma Put_dry fileName path w :
  dryRun b = true → remote (snd (Put b fileName path w)) = remote w.
Proof.
  intros Hdry. unfold Put, mbind, M_bind, read_disk.
  destruct (os.NotExist fileName (disk w)); [done|].
  destruct (os.ReadFile fileName (disk w)) as [contents [e|]]; [done|].
  by rewrite Hdry.
Qed.

(** In dry-run mode [DeleteMany] sends no mutating request. *)
Lemma DeleteMany_dry paths w :
  dryRun b = true →
  fst (DeleteMany b paths w) = None ∧ inert w (snd (DeleteMany b paths w)).
Proof.
  intros Hdry.
  assert (∀ ps, fst ((contents b "" ≫= λ c, DeleteMany_select b c ps
                                    ≫= deleteGroup b) w) = None
                ∧ inert w (snd ((contents b "" ≫= λ c, DeleteMany_select b c ps
                                    ≫= deleteGroup b) w))) as Hgen.
  { intros ps. unfold contents, mbind, M_bind.
    pose proof (list_inert "" w) as Hl.
    destruct (list_ b "" w) as [files w1]. unfold mret, M_ret.
    rewrite DeleteMany_select_spec. unfold deleteGroup.
    rewrite deleteGroup_loop_dry by done. split; [done|].
    eapply inert_trans; [exact Hl|apply inert_with_log]. }
  destruct paths as [|p [|p' paths]]; [apply Hgen| |apply Hgen].
  cbn [DeleteMany]. rewrite Hdry. split; [done|apply inert_refl].
Qed.

(** In dry-run mode [DeletePrefix] sends no mutating request. *)
Lemma DeletePrefix_dry prefix w :
  dryRun b = true →
  fst (DeletePrefix b prefix w) = None ∧ inert w (snd (DeletePrefix b prefix w)).
Proof.
  intros Hdry. unfold DeletePrefix, mbind, M_bind.
  pose proof (list_inert prefix w) as Hl.
  destruct (list_ b prefix w) as [items w1]. unfold deleteGroup.
  by rewrite deleteGroup_loop_dry.
Qed.

(** In dry-run mode [DeleteMatching] sends no mutating request. *)
Lemma DeleteMatching_dry `{Regexp} prefix expression w :
  dryRun b = true → inert w (snd (DeleteMatching b prefix expression w)).
Proof.
  intros Hdry. unfold DeleteMatching.
  destruct (Compile expression) as [m|err]; [|apply inert_refl].
  unfold mbind, M_bind.
  pose proof (list_inert prefix w) as Hl.
  destruct (list_ b prefix w) as [items w1]. unfold deleteGroup.
  by rewrite deleteGroup_loop_dry.
Qed.

(** [Exists], [Get] and [list] do not look at the mode of the handle. *)
Lemma Exists_loop_mode v fuel : ∀ path i ex err w,
  Exists_loop fuel (set_dryRun v b) path i ex err w
  = Exists_loop fuel b path i ex err w.
Proof.
  induction fuel as [|fuel IH]; intros path i ex err w; [done|].
  cbn [Exists_loop]. unfold mbind, M_bind.
  destruct (on_remote (s3.Exists path) w) as [[ex' [e|]] w']; [|done].
  apply IH.
Qed.

Lemma Get_loop_mode v fuel : ∀ path data catcher w,
  Get_loop fuel (set_dryRun v b) path data catcher w
  = Get_loop fuel b path data catcher w.
Proof.
  induction fuel as [|fuel IH]; intros path data catcher w; [done|].
  cbn [Get_loop]. unfold mbind, M_bind.
  destruct (on_remote (s3.Get path) w) as [[data' [e|]] w']; [|done].
  apply IH.
Qed.

Lemma reads_ignore_mode v w :
  (∀ path, Exists (set_dryRun v b) path w = Exists b path w)
  ∧ (∀ path fileName, Get (set_dryRun v b) path fileName w = Get b path fileName w)
  ∧ (∀ prefix, list_ (set_dryRun v b) prefix w = list_ b prefix w).
Proof.
  split; [|split].
  - intros path. unfold Exists. apply Exists_loop_mode.
  - intros path fileName. unfold Get, mbind, M_bind. cbn [numRetries set_dryRun].
    by rewrite Get_loop_mode.
  - done.
Qed.

(** [Delete] sends its request whatever the handle. *)
Lemma Delete_sends path w :
  new_calls w (snd (Delete b path w)) = [s3.DelCall path]
  ∧ (next_ok (s3.faults (remote w)) →
     fst (Delete b path w) = None
     ∧ s3.objects (remote (snd (Delete b path w)))
       = delete path (s3.objects (remote w))).
Proof.
  unfold Delete, mbind, M_bind, on_remote, s3.Del. split.
  - unfold s3.request, new_calls.
    destruct (default None (head (s3.faults (remote w))));
      cbn; by rewrite drop_app_length.
  - intros Hok. by rewrite request_ok.
Qed.

End dry_run.

(** C1 (as the code has it): [Delete] does not look at the mode of the
    handle.  On a dry-run handle it sends the delete request all the same,
    and the object is gone when the request succeeds. *)
Theorem Delete_ignores_dry_run (b : sthree.Bucket) (path : string) (w : World) :
  sthree.dryRun b = true →
  new_calls w (snd (sthree.Delete b path w)) = [s3.DelCall path]
  ∧ (next_ok (s3.faults (remote w)) →
     fst (sthree.Delete b path w) = None
     ∧ s3.objects (remote (snd (sthree.Delete b path w)))
       = delete path (s3.objects (remote w))).
Proof.
  intros _. apply Delete_sends.
Qed.

Lemma Delete_ignores_dry_run_witness :
  new_calls (sample.world ["nightly/a.rpm"] [])
    (snd (sthree.Delete (sample.handle 3 true) "nightly/a.rpm"
            (sample.world ["nightly/a.rpm"] [])))
  = [s3.DelCall "nightly/a.rpm"]
  ∧ s3.objects
      (remote (snd (sthree.Delete (sample.handle 3 true) "nightly/a.rpm"
                      (sample.world ["nightly/a.rpm"] []))))
    = delete "nightly/a.rpm" (sample.objects ["nightly/a.rpm"]).
Proof.
  destruct (Delete_ignores_dry_run (sample.handle 3 true) "nightly/a.rpm"
              (sample.world ["nightly/a.rpm"] []) eq_refl) as [Hcalls Hgone].
  split; [exact Hcalls|]. exact (proj2 (Hgone eq_refl)).
Defined.

(** ** Deleting by expression and by name *)

Section selecting.

Import sthree.

Variable b : Bucket.

(** On a live handle whose request succeeds, a group loses its first
    thousand keys, which are all its keys when it has no more. *)
Lemma deleteGroup_live items w :
  dryRun b = false → next_ok (s3.faults (remote w)) →
  fst (deleteGroup b items w) = None
  ∧ s3.objects (remote (snd (deleteGroup b items w)))
    = s3.delete_all (names (take (Z.to_nat 1000) items)) (s3.objects (remote w))
  ∧ log (snd (deleteGroup b items w)) = log w.
Proof.
  intros Hdry Hok.
  destruct (decide (Z.to_nat 1000 ≤ length items)%nat) as [Hlen|Hlen].
  - rewrite deleteGroup_cut by done. by rewrite bulk_delete_ok.
  - rewrite take_ge by lia. destruct (decide (items = [])) as [->|Hne].
    + by rewrite deleteGroup_nil.
    + rewrite deleteGroup_small by (done || lia). by rewrite bulk_delete_ok.
Qed.

Lemma names_matching `{Regexp} (m : matcher) (objs : gmap string s3.Object)
      (L : list string) :
  names (filter (λ item, MatchString m (s3.Key_Key item) = true)
                (s3.key_of objs <$> L))
  = filter (λ k, MatchString m k = true) L.
Proof.
  unfold names. induction L as [|k L IH]; [done|].
  cbn [fmap list_fmap]. rewrite !filter_cons. cbn [s3.key_of s3.Key_Key].
  destruct (decide (MatchString m k = true)); cbn [fmap list_fmap];
    by rewrite <- IH.
Qed.

Lemma names_take n items : names (take n items) = take n (names items).
Proof. unfold names. by rewrite fmap_take. Qed.

(** What [DeleteMatching] does on a live handle when every request
    succeeds. *)
Lemma DeleteMatching_live `{Regexp} prefix expression m w :
  dryRun b = false → s3.faults (remote w) = [] →
  Compile expression = inl m →
  fst (DeleteMatching b prefix expression w) = None
  ∧ s3.objects (remote (snd (DeleteMatching b prefix expression w)))
    = s3.delete_all (take (Z.to_nat 1000) (matching m prefix (s3.objects (remote w))))
                    (s3.objects (remote w)).
Proof.
  intros Hdry Hf Hm. unfold DeleteMatching. rewrite Hm. unfold mbind, M_bind.
  destruct (list_all b prefix w Hf) as (cs & -> & _).
  destruct (deleteGroup_live
              (filter (λ item, MatchString m (s3.Key_Key item) = true)
                 (s3.key_of (s3.objects (remote w))
                    <$> under (list_prefix prefix) (s3.objects (remote w))))
              (advance cs [] w) Hdry eq_refl) as (Hr & Ho & _).
  split; [done|]. rewrite Ho, names_take.
  by rewrite names_matching.
Qed.

(** The map [contents] builds from a listing. *)
Lemma contents_map_lookup (m : gmap string s3.Object) (L : list string) p :
  ∀ acc : gmap string s3.Key,
    foldl (λ output file, <[s3.Key_Key file := file]> output) acc
          (s3.key_of m <$> L) !! p
    = if decide (p ∈ L) then Some (s3.key_of m p) else acc !! p.
Proof.
  induction L as [|k L IH]; intros acc.
  - by rewrite decide_False by apply not_elem_of_nil.
  - cbn [fmap list_fmap foldl]. rewrite IH. cbn [s3.Key_Key s3.key_of].
    destruct (decide (p ∈ L)) as [Hin|Hnin].
    + by rewrite decide_True by (by right).
    + destruct (decide (p = k)) as [->|Hne].
      * rewrite decide_True by left. by rewrite lookup_insert_eq.
      * rewrite decide_False by (by intros [?|?]%elem_of_cons).
        by rewrite lookup_insert_ne.
Qed.

Lemma under_all (objs : gmap string s3.Object) p :
  p ∈ under "" objs ↔ is_Some (objs !! p).
Proof.
  unfold under, s3.sorted_keys. rewrite list_elem_of_filter.
  rewrite merge_sort_Permutation, elem_of_elements, elem_of_dom.
  split; [by intros [_ ?]|]. intros Hp. split; [|done]. by destruct p.
Qed.

Lemma contents_all w :
  s3.faults (remote w) = [] →
  ∃ cs c,
    contents b "" w = (c, advance cs [] w)
    ∧ ∀ p, c !! p = (λ _, s3.key_of (s3.objects (remote w)) p)
                      <$> s3.objects (remote w) !! p.
Proof.
  intros Hf. unfold contents, mbind, M_bind.
  destruct (list_all b "" w Hf) as (cs & -> & _).
  eexists cs, _. split; [done|]. intros p.
  rewrite contents_map_lookup. change (list_prefix "") with "".
  destruct (decide (p ∈ under "" (s3.objects (remote w)))) as [Hin|Hnin].
  - apply under_all in Hin as [o ->]. done.
  - rewrite under_all in Hnin. rewrite lookup_empty.
    by destruct (s3.objects (remote w) !! p) as [o|]; [destruct Hnin|].
Qed.

Lemma select_present (objs : gmap string s3.Object) (c : gmap string s3.Key)
      (paths : list string) :
  (∀ p, c !! p = (λ _, s3.key_of objs p) <$> objs !! p) →
  names (omap (λ p, c !! p) paths) = present paths objs
  ∧ filter (λ p, c !! p = None) paths = filter (λ p, objs !! p = None) paths.
Proof.
  intros Hc. unfold names, present. split.
  - induction paths as [|p paths IH]; [done|].
    cbn [omap list_omap]. rewrite filter_cons, Hc.
    destruct (objs !! p) as [o|] eqn:Hp; cbn.
    + rewrite decide_True by done. by rewrite <- IH.
    + rewrite decide_False by (by intros [? ?]). done.
  - apply list_filter_iff. intros p. rewrite Hc. by destruct (objs !! p).
Qed.

(** What [DeleteMany] does with several paths (or none) on a live handle
    when every request succeeds: the paths that are not keys are skipped
    with a warning, no error is returned. *)
Lemma DeleteMany_live paths w :
  dryRun b = false → s3.faults (remote w) = [] → length paths ≠ 1%nat →
  fst (DeleteMany b paths w) = None
  ∧ s3.objects (remote (snd (DeleteMany b paths w)))
    = s3.delete_all (take (Z.to_nat 1000) (present paths (s3.objects (remote w))))
                    (s3.objects (remote w))
  ∧ log (snd (DeleteMany b paths w))
    = log w ++ ((λ p, grip.Warningf "path %s does not exist in bucket %s"
                        [errors.Str p; errors.Str (name b)])
                  <$> filter (λ p, s3.objects (remote w) !! p = None) paths).
Proof.
  intros Hdry Hf Hlen.
  assert (DeleteMany b paths w
          = (contents b "" ≫= λ c, DeleteMany_select b c paths
                          ≫= deleteGroup b) w) as ->.
  { by destruct paths as [|p [|p' paths]]. }
  unfold mbind, M_bind.
  destruct (contents_all w Hf) as (cs & c & -> & Hc).
  rewrite DeleteMany_select_spec.
  destruct (select_present (s3.objects (remote w)) c paths Hc) as [Hn Hw].
  destruct (deleteGroup_live (omap (λ p, c !! p) paths)
              (with_log (warnings b c paths) (advance cs [] w)) Hdry eq_refl)
    as (Hr & Ho & Hl).
  split; [done|]. split.
  - rewrite Ho, names_take, Hn. done.
  - rewrite Hl. unfold warnings. by rewrite Hw.
Qed.

(** With exactly one path, [DeleteMany] on a live handle is [Delete]:
    nothing is listed. *)
Lemma DeleteMany_single p w :
  dryRun b = false →
  new_calls w (snd (DeleteMany b [p] w)) = [s3.DelCall p]
  ∧ (next_ok (s3.faults (remote w)) →
     fst (DeleteMany b [p] w) = None
     ∧ s3.objects (remote (snd (DeleteMany b [p] w)))
       = delete p (s3.objects (remote w))).
Proof.
  intros Hdry. cbn [DeleteMany]. rewrite Hdry. unfold mbind, M_bind.
  destruct (Delete_sends b p w) as [Hcalls Hok].
  destruct (Delete b p w) as [err w']. split; [done|].
  intros Hnext. destruct (Hok Hnext) as [He Ho]. cbn in He, Ho. by subst.
Qed.

End selecting.

Section limits.

Import sthree.

Variable b : Bucket.

Lemma under_is_key prefix (objs : gmap string s3.Object) k :
  k ∈ under prefix objs → is_Some (objs !! k).
Proof.
  unfold under, s3.sorted_keys. rewrite list_elem_of_filter.
  rewrite merge_sort_Permutation, elem_of_elements, elem_of_dom. by intros [_ ?].
Qed.

Lemma not_in_take_of_drop {A} (l : list A) n x :
  NoDup l → x ∈ drop n l → x ∉ take n l.
Proof.
  intros Hnd Hd Ht. rewrite <- (take_drop n l) in Hnd.
  apply NoDup_app in Hnd as (_ & Hdis & _). by apply (Hdis x).
Qed.

(** Up to a thousand matching keys, [DeleteMatching] on a live handle
    whose requests succeed deletes the keys below the prefix whose full
    name matches, and no other. *)
Lemma DeleteMatching_exact `{Regexp} prefix expression m w :
  dryRun b = false → s3.faults (remote w) = [] →
  Compile expression = inl m →
  (length (matching m prefix (s3.objects (remote w))) ≤ Z.to_nat 1000)%nat →
  ∀ k, s3.objects (remote (snd (DeleteMatching b prefix expression w))) !! k
       = if decide (k ∈ matching m prefix (s3.objects (remote w)))
         then None else s3.objects (remote w) !! k.
Proof.
  intros Hdry Hf Hm Hlen k.
  destruct (DeleteMatching_live b prefix expression m w Hdry Hf Hm) as [_ ->].
  by rewrite take_ge, lookup_delete_all by done.
Qed.

(** Up to a thousand of them, [DeleteMany] with several paths deletes
    the requested paths that are keys of the bucket, and no other. *)
Lemma DeleteMany_exact paths w :
  dryRun b = false → s3.faults (remote w) = [] → length paths ≠ 1%nat →
  (length (present paths (s3.objects (remote w))) ≤ Z.to_nat 1000)%nat →
  ∀ k, s3.objects (remote (snd (DeleteMany b paths w))) !! k
       = if decide (k ∈ paths) then None else s3.objects (remote w) !! k.
Proof.
  intros Hdry Hf Hone Hlen k.
  destruct (DeleteMany_live b paths w Hdry Hf Hone) as (_ & -> & _).
  rewrite take_ge, lookup_delete_all by done. unfold present.
  destruct (decide (k ∈ paths)) as [Hin|Hnin].
  - destruct (s3.objects (remote w) !! k) as [o|] eqn:Hk.
    + rewrite decide_True; [done|]. apply list_elem_of_filter. by rewrite Hk.
    + by destruct (decide _).
  - rewrite decide_False; [done|]. by intros [_ ?]%list_elem_of_filter.
Qed.

Lemma bulk_deletes_inert cs :
  Forall (λ c, s3.mutating c = false) cs → bulk_deletes cs = [].
Proof.
  unfold bulk_deletes. induction 1 as [|c cs Hc _ IH]; [done|].
  cbn [omap list_omap]. rewrite IH. by destruct c.
Qed.

Lemma names_key_of (objs : gmap string s3.Object) (L : list string) :
  names (s3.key_of objs <$> L) = L.
Proof.
  unfold names. rewrite <- list_fmap_compose. induction L as [|k L IH]; [done|].
  cbn [fmap list_fmap]. by rewrite IH.
Qed.

(** On a live handle whose requests succeed, [DeletePrefix] on a prefix
    with more than a thousand keys sends one bulk-delete request, for the
    first thousand of them. *)
Lemma DeletePrefix_cut prefix w :
  dryRun b = false → s3.faults (remote w) = [] →
  (Z.to_nat 1000 ≤ length (under (list_prefix prefix) (s3.objects (remote w))))%nat →
  bulk_deletes (new_calls w (snd (DeletePrefix b prefix w)))
  = [take (Z.to_nat 1000) (under (list_prefix prefix) (s3.objects (remote w)))]
  ∧ s3.objects (remote (snd (DeletePrefix b prefix w)))
    = s3.delete_all
        (take (Z.to_nat 1000) (under (list_prefix prefix) (s3.objects (remote w))))
        (s3.objects (remote w)).
Proof.
  intros Hdry Hf Hlen. unfold DeletePrefix, mbind, M_bind.
  destruct (list_all b prefix w Hf) as (cs & -> & Hcs).
  rewrite deleteGroup_cut by (done || by rewrite length_fmap).
  rewrite bulk_delete_ok by done.
  rewrite names_take, names_key_of. cbn [snd].
  change (s3.objects (remote (advance cs [] w))) with (s3.objects (remote w)).
  rewrite remote_after_advance, new_calls_remote_after. split; [|done].
  unfold bulk_deletes. rewrite omap_app. fold (bulk_deletes cs).
  by rewrite bulk_deletes_inert.
Qed.

End limits.

(** C2 (as the code has it): on a live handle, a group of K > 1000 keys
    does not go out in ⌈K/1000⌉ bulk-delete requests.  [deleteGroup] sends
    one request, with the first 1000 keys, and returns; the keys after
    them are never sent, where at least two requests would be needed.  So
    [DeletePrefix] on a prefix with more than 1000 keys, when every
    request succeeds, sends one bulk-delete request and deletes the first
    1000 keys of the listing only. *)
Theorem deleteGroup_sends_one_batch (b : sthree.Bucket) (items : list s3.Key)
        (w : World) :
  sthree.dryRun b = false →
  1000 < Z.of_nat (length items) →
  bulk_deletes (new_calls w (snd (sthree.deleteGroup b items w)))
  = [names (take (Z.to_nat 1000) items)]
  ∧ 1 < (Z.of_nat (length items) + 999) / 1000
  ∧ (∀ prefix,
       s3.faults (remote w) = [] →
       items = s3.key_of (s3.objects (remote w))
                 <$> under (sthree.list_prefix prefix) (s3.objects (remote w)) →
       bulk_deletes (new_calls w (snd (sthree.DeletePrefix b prefix w)))
       = [names (take (Z.to_nat 1000) items)]
       ∧ s3.objects (remote (snd (sthree.DeletePrefix b prefix w)))
         = s3.delete_all (names (take (Z.to_nat 1000) items))
                         (s3.objects (remote w))).
Proof.
  intros Hdry Hlen. split; [|split].
  - rewrite deleteGroup_cut by (done || lia).
    by rewrite bulk_delete_calls.
  - enough (2 ≤ (Z.of_nat (length items) + 999) / 1000) by lia.
    apply Z.div_le_lower_bound; lia.
  - intros prefix Hf ->. rewrite length_fmap in Hlen.
    rewrite names_take, names_key_of.
    apply DeletePrefix_cut; [done|done|lia].
Qed.

Lemma deleteGroup_sends_one_batch_witness :
  bulk_deletes
    (new_calls (sample.world (sample.packages 1001) [])
       (snd (sthree.deleteGroup (sample.handle 3 false)
               (sample.records (sample.packages 1001))
               (sample.world (sample.packages 1001) []))))
  = [names (take (Z.to_nat 1000) (sample.records (sample.packages 1001)))]
  ∧ 1 < (Z.of_nat (length (sample.records (sample.packages 1001))) + 999) / 1000.
Proof.
  refine (let H := deleteGroup_sends_one_batch (sample.handle 3 false)
                     (sample.records (sample.packages 1001))
                     (sample.world (sample.packages 1001) []) eq_refl _ in
          conj (proj1 H) (proj1 (proj2 H))).
  vm_compute. reflexivity.
Defined.

(** The scenario of the specification: of [nightly/a.rpm],
    [nightly/a.rpm.sig] and [nightly/notes.txt], the expression
    [^nightly/.*\.rpm$] below the prefix [nightly/] deletes the first
    only. *)
Lemma DeleteMatching_scenario :
  let w := sample.world ["nightly/a.rpm"; "nightly/a.rpm.sig"; "nightly/notes.txt"] [] in
  let w' := snd (sthree.DeleteMatching (sample.handle 3 false) "nightly/"
                   "^nightly/.*\.rpm$" w) in
  s3.objects (remote w') = delete "nightly/a.rpm" (s3.objects (remote w))
  ∧ bulk_deletes (new_calls w w') = [["nightly/a.rpm"]].
Proof. split; vm_compute; reflexivity. Qed.

(** C7 (as the code has it): [DeleteMatching] does not delete every key
    below the prefix whose full name matches.  When more than 1000 keys
    match, those after the first thousand are still in the bucket when
    it returns, on a live handle whose requests all succeed. *)
Theorem DeleteMatching_keeps_matches `{sthree.Regexp} (b : sthree.Bucket)
        (prefix expression : string) (m : sthree.matcher) (w : World) :
  sthree.dryRun b = false →
  s3.faults (remote w) = [] →
  sthree.Compile expression = inl m →
  1000 < Z.of_nat (length (matching m prefix (s3.objects (remote w)))) →
  fst (sthree.DeleteMatching b prefix expression w) = None
  ∧ ∀ k, k ∈ drop (Z.to_nat 1000) (matching m prefix (s3.objects (remote w))) →
         is_Some (s3.objects
                    (remote (snd (sthree.DeleteMatching b prefix expression w))) !! k).
Proof.
  intros Hdry Hf Hm Hlen.
  destruct (DeleteMatching_live b prefix expression m w Hdry Hf Hm) as [Hr ->].
  split; [done|]. intros k Hk. rewrite lookup_delete_all.
  rewrite decide_False.
  - apply (under_is_key (sthree.list_prefix prefix)).
    apply subseteq_drop in Hk. by apply list_elem_of_filter in Hk as [_ ?].
  - apply not_in_take_of_drop; [|done]. apply NoDup_filter, under_NoDup.
Qed.

Lemma DeleteMatching_keeps_matches_witness :
  is_Some (s3.objects
             (remote (snd (sthree.DeleteMatching (sample.handle 3 false)
                             "nightly/" "^nightly/.*\.rpm$"
                             (sample.world (sample.packages 1001) []))))
             !! "nightly/pkg-999.rpm").
Proof.
  refine (proj2 (DeleteMatching_keeps_matches (sample.handle 3 false)
                   "nightly/" "^nightly/.*\.rpm$"
                   (match re.compile "^nightly/.*\.rpm$" with
                    | inl r => r
                    | inr _ => re.Void
                    end)
                   (sample.world (sample.packages 1001) [])
                   eq_refl eq_refl _ _) "nightly/pkg-999.rpm" _).
  - vm_compute. reflexivity.
  - vm_compute. reflexivity.
  - by_decide.
Defined.

(** C10 (as the code has it): [DeleteMany] with several paths does not
    delete all the requested paths that are keys of the bucket.  When
    more than 1000 of them are, those that come after the first thousand
    are still in the bucket when it returns, on a live handle whose
    requests all succeed. *)
Theorem DeleteMany_keeps_paths (b : sthree.Bucket) (paths : list string)
        (w : World) :
  sthree.dryRun b = false →
  s3.faults (remote w) = [] →
  1000 < Z.of_nat (length (present paths (s3.objects (remote w)))) →
  fst (sthree.DeleteMany b paths w) = None
  ∧ ∀ k, k ∈ drop (Z.to_nat 1000) (present paths (s3.objects (remote w))) →
         k ∉ take (Z.to_nat 1000) (present paths (s3.objects (remote w))) →
         k ∈ paths
         ∧ is_Some (s3.objects (remote w) !! k)
         ∧ is_Some (s3.objects (remote (snd (sthree.DeleteMany b paths w))) !! k).
Proof.
  intros Hdry Hf Hlen.
  assert (length paths ≠ 1%nat) as Hone.
  { pose proof (length_filter (λ p, is_Some (s3.objects (remote w) !! p)) paths).
    unfold present in Hlen. lia. }
  destruct (DeleteMany_live b paths w Hdry Hf Hone) as (Hr & -> & _).
  split; [done|]. intros k Hk Hnot.
  pose proof (subseteq_drop _ _ _ Hk) as [Hkey Hin]%list_elem_of_filter.
  split; [done|]. split; [done|].
  by rewrite lookup_delete_all, decide_False.
Qed.

Lemma DeleteMany_keeps_paths_witness :
  is_Some (s3.objects
             (remote (snd (sthree.DeleteMany (sample.handle 3 false)
                             (sample.packages 1001)
                             (sample.world (sample.packages 1001) []))))
             !! "nightly/pkg-1000.rpm").
Proof.
  refine (proj2 (proj2 (proj2 (DeleteMany_keeps_paths (sample.handle 3 false)
                   (sample.packages 1001)
                   (sample.world (sample.packages 1001) [])
                   eq_refl eq_refl _) "nightly/pkg-1000.rpm" _ _))).
  - vm_compute. reflexivity.
  - by_decide.
  - by_decide.
Defined.

(** ** Failure of a listing request *)

Section list_failure.

Import sthree.

Variable b : Bucket.

Lemma list_fails prefix w e rest :
  s3.faults (remote w) = Some e :: rest →
  list_ b prefix w = ([], list_failed (list_prefix prefix) "" e rest w).
Proof. intros Hf. unfold list_. by rewrite (list_pages_fault _ _ _ _ _ e rest). Qed.

Lemma contents_fails prefix w e rest :
  s3.faults (remote w) = Some e :: rest →
  contents b prefix w = (∅, list_failed (list_prefix prefix) "" e rest w).
Proof.
  intros Hf. unfold contents, mbind, M_bind.
  by rewrite (list_fails _ _ e rest).
Qed.

End list_failure.

(** C4, counterexample: the first listing request of [DeletePrefix]
    fails, the failure is logged, and [DeletePrefix] returns no error. *)
Lemma list_failure_swallowed :
  ¬ reports_list_failure
      (sthree.DeletePrefix (sample.handle 3 false) "nightly")
      (sample.world ["nightly/a.rpm"] [Some sample.timeout]).
Proof.
  intros Hclaim.
  destruct (Hclaim sample.timeout [] eq_refl) as [e He].
  vm_compute in He. discriminate He.
Qed.

(** C4 (amended): a listing request that fails is logged and ends the
    listing, on whatever page; the failure is not part of what the
    operation returns.  The operation goes on with the keys listed before
    it.  When the first listing request fails: [DeletePrefix],
    [DeleteMatching], [DeleteMany] with several paths and [SyncFrom]
    return no error and send nothing more, [DeleteMany] warning that each
    path is missing; [SyncTo] goes on as over an empty remote tree and
    returns what that gives. *)
Theorem list_failure_only_logged (b : sthree.Bucket) (w : World) (e : error)
        (rest : list (option error)) (prefix : string) :
  s3.faults (remote w) = Some e :: rest →
  (∀ fuel lastKey output,
     sthree.list_pages (S fuel) prefix lastKey output w
     = (output, list_failed prefix lastKey e rest w))
  ∧ log (list_failed (sthree.list_prefix prefix) "" e rest w)
    = log w ++ [grip.Error e]
  ∧ sthree.DeletePrefix b prefix w
    = (None, list_failed (sthree.list_prefix prefix) "" e rest w)
  ∧ (∀ (R : sthree.Regexp) expression m,
       sthree.Compile expression = inl m →
       sthree.DeleteMatching b prefix expression w
       = (None, list_failed (sthree.list_prefix prefix) "" e rest w))
  ∧ (∀ paths,
       length paths ≠ 1%nat →
       sthree.DeleteMany b paths w
       = (None, with_log (warnings b ∅ paths) (list_failed "" "" e rest w)))
  ∧ (∀ run ID local,
       sthree.SyncFrom run ID b local prefix w
       = (None, list_failed (sthree.list_prefix prefix) "" e rest w))
  ∧ (∀ run ID local,
       sthree.SyncTo run ID b local prefix w
       = sthree.SyncTo_walk run ID ∅ b local prefix
           (list_failed (sthree.list_prefix prefix) "" e rest w)).
Proof.
  intros Hf. split; [|split; [|split; [|split; [|split; [|split]]]]].
  - intros fuel lastKey output. by apply list_pages_fault.
  - done.
  - unfold sthree.DeletePrefix, mbind, M_bind.
    by rewrite (list_fails b _ _ e rest), deleteGroup_nil.
  - intros R expression m Hm. unfold sthree.DeleteMatching. rewrite Hm.
    unfold mbind, M_bind. rewrite (list_fails b _ _ e rest) by done.
    by rewrite filter_nil, deleteGroup_nil.
  - intros paths Hone.
    assert (sthree.DeleteMany b paths w
            = (sthree.contents b "" ≫= λ c, sthree.DeleteMany_select b c paths
                                      ≫= sthree.deleteGroup b) w) as ->.
    { by destruct paths as [|p [|p' paths]]. }
    unfold mbind, M_bind. rewrite (contents_fails b _ _ e rest) by done.
    rewrite DeleteMany_select_spec.
    assert (omap (λ p, (∅ : gmap string s3.Key) !! p) paths = []) as ->.
    { clear Hone. induction paths as [|p paths IH]; [done|].
      cbn [omap list_omap]. by rewrite lookup_empty. }
    by rewrite deleteGroup_nil.
  - intros run ID local. unfold sthree.SyncFrom, mbind, M_bind.
    by rewrite (list_fails b _ _ e rest).
  - intros run ID local. unfold sthree.SyncTo, mbind, M_bind.
    by rewrite (contents_fails b _ _ e rest).
Qed.

Lemma list_failure_only_logged_witness :
  sthree.DeletePrefix (sample.handle 3 false) "nightly"
    (sample.world ["nightly/a.rpm"] [Some sample.timeout])
  = (None, list_failed "nightly/" "" sample.timeout []
             (sample.world ["nightly/a.rpm"] [Some sample.timeout])).
Proof.
  exact (proj1 (proj2 (proj2
    (list_failure_only_logged (sample.handle 3 false)
       (sample.world ["nightly/a.rpm"] [Some sample.timeout])
       sample.timeout [] "nightly" eq_refl)))).
Defined.

(** ** Retry count and handle creation *)

(** C9: [SetNumRetries] accepts 0 and rejects negative counts only, with a
    message that asks for a count larger than 0.  On the handle it returns
    for 0 the retried operations send no request and report success:
    [Exists] returns [(false, nil)], [Put] of a readable local file
    returns [nil] and uploads nothing, and [Get] returns [nil] after
    writing an empty local file, where that file can be written. *)
Theorem zero_retries (b : sthree.Bucket) (w : World) :
  let b0 := fst (sthree.SetNumRetries b 0) in
  snd (sthree.SetNumRetries b 0) = None
  ∧ sthree.numRetries b0 = 0
  ∧ (∀ n, snd (sthree.SetNumRetries b n)
          = if n <? 0
            then Some (errors.Errorf "numRetries=%d, must be larger than 0"
                                     [errors.Int n])
            else None)
  ∧ (∀ path, sthree.Exists b0 path w = ((false, None), w))
  ∧ (∀ fileName path contents,
       os.files (disk w) !! fileName = Some contents →
       sthree.Put b0 fileName path w = (None, w))
  ∧ (∀ path fileName,
       writable fileName (disk w) →
       sthree.Get b0 path fileName w
       = (None, disk_after (written fileName [] (disk w)) w)
       ∧ os.files (written fileName [] (disk w)) !! fileName = Some []
       ∧ new_calls w (disk_after (written fileName [] (disk w)) w) = []).
Proof.
  cbv zeta. split; [done|]. split; [done|]. split.
  { intros n. unfold sthree.SetNumRetries. by destruct (n <? 0). }
  split; [done|]. split.
  - intros fileName path contents Hfile.
    unfold sthree.Put, mbind, M_bind, read_disk at 1, os.NotExist.
    rewrite bool_decide_eq_false_2 by (rewrite Hfile; intros [[=] _]).
    unfold read_disk, os.ReadFile. rewrite Hfile.
    by destruct (sthree.dryRun _).
  - intros path fileName Hw.
    change (sthree.Get (fst (sthree.SetNumRetries b 0)) path fileName w)
      with (sthree.Get_write fileName [] w).
    rewrite Get_write_writable by done. split; [done|]. split.
    + cbn. by rewrite lookup_insert_eq.
    + unfold new_calls. cbn. by rewrite drop_all.
Qed.

Lemma zero_retries_witness :
  sthree.Put (fst (sthree.SetNumRetries (sample.handle 3 false) 0))
             "pkgs/a.rpm" "nightly/a.rpm" (sample.world [] [])
  = (None, sample.world [] [])
  ∧ fst (sthree.Get (fst (sthree.SetNumRetries (sample.handle 3 false) 0))
                    "nightly/a.rpm" "out/a.rpm" (sample.world [] []))
    = None.
Proof.
  destruct (zero_retries (sample.handle 3 false) (sample.world [] []))
    as (_ & _ & _ & _ & HP & HG).
  split.
  - exact (HP "pkgs/a.rpm" "nightly/a.rpm" [Byte.x03] eq_refl).
  - refine (f_equal fst (proj1 (HG "nightly/a.rpm" "out/a.rpm" _))).
    by_decide.
Defined.

(** [Clone] copies the settings of the handle, and the clone is open if
    and only if the handle is. *)
Lemma Clone_copies (b c : sthree.Bucket) (w w' : World) :
  sthree.Clone b w = ((Some c, None), w') →
  sthree.credentials c = sthree.credentials b
  ∧ sthree.NewFilePermission c = sthree.NewFilePermission b
  ∧ sthree.numJobs c = sthree.numJobs b
  ∧ sthree.numRetries c = sthree.numRetries b
  ∧ sthree.name c = sthree.name b
  ∧ sthree.open c = sthree.open b.
Proof.
  unfold sthree.Clone. destruct (sthree.open b) eqn:Hopen.
  - unfold mbind, M_bind, sthree.Open. cbn [sthree.open].
    unfold mbind, M_bind. destruct (queue_Start w) as [[e|] w1]; cbn.
    + intros [=].
    + by intros [= <- <-].
  - by intros [= <- <-].
Qed.

(** C8 (as the code has it): [NewBucket] copies the credentials, the
    write permission and the job count of the handle, but not its retry
    count: the new handle has a retry count of 20, whatever the source. *)
Theorem NewBucket_retry_count (b : sthree.Bucket) (name : string) :
  sthree.credentials (sthree.NewBucket b name) = sthree.credentials b
  ∧ sthree.NewFilePermission (sthree.NewBucket b name) = sthree.NewFilePermission b
  ∧ sthree.numJobs (sthree.NewBucket b name) = sthree.numJobs b
  ∧ sthree.numRetries (sthree.NewBucket b name) = 20
  ∧ sthree.numRetries (sthree.NewBucket (sample.handle 5 false) name)
    ≠ sthree.numRetries (sample.handle 5 false).
Proof. repeat split; done. Qed.

(** ** The build job *)

(** C6: the package location is ["development"] for a development build,
    ["testing"] for a release candidate and the release series otherwise;
    a job for version 4.3.0-rc1 has location ["testing"] and a job for
    version 4.2.1 has location ["4.2"]. *)
Theorem package_location :
  (∀ j, curator.IsDevelopmentBuild (repobuilder.release j) = true →
        repobuilder.getPackageLocation j = "development")
  ∧ (∀ j, curator.IsDevelopmentBuild (repobuilder.release j) = false →
          curator.IsReleaseCandidate (repobuilder.release j) = true →
          repobuilder.getPackageLocation j = "testing")
  ∧ (∀ j, curator.IsDevelopmentBuild (repobuilder.release j) = false →
          curator.IsReleaseCandidate (repobuilder.release j) = false →
          repobuilder.getPackageLocation j
          = curator.Series (repobuilder.release j))
  ∧ (∀ distro arch profile cwd pkgs,
       ∃ j, repobuilder.NewBuildRepoJob distro "4.3.0-rc1" arch profile cwd pkgs
            = inl j
            ∧ repobuilder.getPackageLocation j = "testing")
  ∧ (∀ distro arch profile cwd pkgs,
       ∃ j, repobuilder.NewBuildRepoJob distro "4.2.1" arch profile cwd pkgs
            = inl j
            ∧ repobuilder.getPackageLocation j = "4.2").
Proof.
  unfold repobuilder.getPackageLocation. repeat split.
  - by intros j ->.
  - by intros j -> ->.
  - by intros j -> ->.
  - intros. eexists. split; reflexivity.
  - intros. eexists. split; reflexivity.
Qed.

Section build_job.

Import repobuilder.

Context `{builder : jobImpl}.

Variable SyncFrom : sthree.Bucket → string → string → M (option error).
Variable SyncTo : sthree.Bucket → string → string → M (option error).

Lemma Open_fails (bucket : sthree.Bucket) (w : World) e rest :
  sthree.open bucket = false → starts w = Some e :: rest →
  ∃ bucket' w',
    sthree.Open bucket w
    = ((bucket', Some (errors.Wrapped e "starting worker queue for sync jobs" [])),
       w')
    ∧ sthree.name bucket' = sthree.name bucket.
Proof.
  intros Hopen Hs. unfold sthree.Open. rewrite Hopen.
  unfold mbind, M_bind, queue_Start. rewrite Hs. by eexists _, _.
Qed.

Lemma Open_succeeds (bucket : sthree.Bucket) (w : World) rest :
  sthree.open bucket = false → starts w = None :: rest →
  ∃ bucket',
    sthree.Open bucket w
    = ((bucket', None),
       {| remote := remote w; disk := disk w; log := log w; starts := rest |})
    ∧ sthree.name bucket' = sthree.name bucket
    ∧ sthree.open bucket' = true.
Proof.
  intros Hopen Hs. unfold sthree.Open. rewrite Hopen.
  unfold mbind, M_bind, queue_Start. rewrite Hs. by eexists.
Qed.

Lemma AddError_keeps j err :
  IsComplete (AddError j err) = IsComplete j
  ∧ history (AddError j err) = history j
  ∧ DryRun (AddError j err) = DryRun j.
Proof. by destruct err. Qed.

(** The goroutines neither join nor complete the job. *)
Lemma fan_out_events bucket remotes : ∀ j w,
  ∃ evs,
    history (fst (fan_out SyncFrom SyncTo j bucket remotes w)) = history j ++ evs
    ∧ Forall repository_event evs
    ∧ IsComplete (fst (fan_out SyncFrom SyncTo j bucket remotes w)) = IsComplete j
    ∧ DryRun (fst (fan_out SyncFrom SyncTo j bucket remotes w)) = DryRun j.
Proof.
  induction remotes as [|remote remotes IH]; intros j w.
  - exists []. by rewrite app_nil_r.
  - cbn [fan_out]. unfold mbind, M_bind.
    destruct (sthree.Clone bucket w) as [[[c|] [e|]] w1].
    + destruct (IH (AddError j (errors.Wrapf (Some e) "problem cloning bucket %s"
                                  [errors.Str (sthree.name bucket)])) w1)
        as (evs & -> & Hevs & -> & ->).
      by exists evs.
    + destruct (rebuild SyncFrom SyncTo _ remote c w1) as [err w2].
      match goal with
      | |- context [fan_out _ _ ?j' bucket remotes w2] =>
          destruct (IH j' w2) as (evs & -> & Hevs & -> & ->)
      end.
      destruct (AddError_keeps
                  (record (Started remote)
                     (update j (workingDirs j ++ [remote]) (IsComplete j)
                             (Errors j) (history j))) err) as (Hc & Hh & Hd).
      exists (Started remote :: Finished remote :: Closed (sthree.name c) :: evs).
      cbn [record update history IsComplete DryRun]. rewrite Hc, Hh, Hd.
      cbn [record update history IsComplete DryRun].
      rewrite <- !app_assoc. split; [done|]. split; [|done].
      by repeat constructor.
    + destruct (IH (AddError j (errors.Wrapf (Some e) "problem cloning bucket %s"
                                  [errors.Str (sthree.name bucket)])) w1)
        as (evs & -> & Hevs & -> & ->).
      by exists evs.
    + destruct (IH (AddError j (errors.Wrapf None "problem cloning bucket %s"
                                  [errors.Str (sthree.name bucket)])) w1)
        as (evs & -> & Hevs & -> & ->).
      by exists evs.
Qed.

(** When the handle opens and no dry run is asked for, the job is marked
    complete once, after the join, which comes after every event of the
    goroutines. *)
Lemma Run_completes j bucket w rest :
  sthree.open bucket = false → starts w = None :: rest → DryRun j = false →
  ∃ evs,
    history (fst (Run SyncFrom SyncTo j bucket w))
    = history j ++ evs
      ++ [Joined; MarkedComplete (IsComplete j); Closed (sthree.name bucket)]
    ∧ Forall repository_event evs
    ∧ IsComplete (fst (Run SyncFrom SyncTo j bucket w)) = true.
Proof.
  intros Hopen Hs Hdry.
  destruct (Run SyncFrom SyncTo j bucket w) as [j' w'] eqn:HR.
  unfold Run, mbind at 1, M_bind at 1 in HR.
  destruct (Open_succeeds bucket w rest Hopen Hs) as (bucket' & HO & Hname & _).
  rewrite HO, Hdry in HR. unfold mbind, M_bind, mret at 1, M_ret at 1 in HR.
  match type of HR with
  | context [fan_out _ _ j ?b ?rs ?w1] =>
      destruct (fan_out_events b rs j w1) as (evs & Hh & Hevs & Hc & Hd);
      destruct (fan_out SyncFrom SyncTo j b rs w1) as [j1 w2]
  end.
  cbn [fst] in *. unfold mret, M_ret in HR.
  cbn [record MarkComplete update history IsComplete DryRun] in HR.
  rewrite Hd, Hdry in HR. injection HR as <- <-.
  exists evs. cbn [record MarkComplete update history IsComplete DryRun].
  rewrite Hh, Hc, Hname. rewrite <- !app_assoc. done.
Qed.

End build_job.

(** C5 (as the code has it): [Run] does not mark the job complete on
    every outcome.  When the handle cannot be opened, and when the dry-run
    clone cannot be derived, it returns before [MarkComplete] is deferred:
    the error is recorded and the completion flag stays false. *)
Theorem Run_failure_leaves_incomplete `{builder : repobuilder.jobImpl}
        (SyncFrom SyncTo : sthree.Bucket → string → string → M (option error))
        (j : repobuilder.Job) (bucket : sthree.Bucket) (w : World) (e : error) :
  repobuilder.IsComplete j = false →
  sthree.open bucket = false →
  (∀ rest,
     starts w = Some e :: rest →
     let j' := fst (repobuilder.Run SyncFrom SyncTo j bucket w) in
     repobuilder.IsComplete j' = false
     ∧ repobuilder.Errors j' = repobuilder.Errors j ++ [open_error bucket e]
     ∧ repobuilder.history j' = repobuilder.history j)
  ∧ (∀ rest,
       repobuilder.DryRun j = true →
       starts w = None :: Some e :: rest →
       let j' := fst (repobuilder.Run SyncFrom SyncTo j bucket w) in
       repobuilder.IsComplete j' = false
       ∧ repobuilder.Errors j' = repobuilder.Errors j ++ [dry_run_error e]
       ∧ repobuilder.history j'
         = repobuilder.history j ++ [repobuilder.Closed (sthree.name bucket)]).
Proof.
  intros Hc Hopen. split.
  - intros rest Hs. cbv zeta.
    destruct (repobuilder.Run SyncFrom SyncTo j bucket w) as [j' w'] eqn:HR.
    unfold repobuilder.Run, mbind at 1, M_bind at 1 in HR.
    destruct (Open_fails bucket w e rest Hopen Hs) as (bucket' & w1 & HO & Hname).
    rewrite HO in HR. unfold mret, M_ret in HR. injection HR as <- <-.
    cbn. by rewrite Hname.
  - intros rest Hdry Hs. cbv zeta.
    destruct (repobuilder.Run SyncFrom SyncTo j bucket w) as [j' w'] eqn:HR.
    unfold repobuilder.Run, mbind at 1, M_bind at 1 in HR.
    destruct (Open_succeeds bucket w (Some e :: rest) Hopen Hs)
      as (bucket' & HO & Hname & Hopen').
    rewrite HO, Hdry in HR.
    unfold sthree.DryRunClone, sthree.Clone in HR. rewrite Hopen' in HR.
    unfold mbind, M_bind, sthree.Open in HR. cbn [sthree.open] in HR.
    unfold mbind, M_bind, queue_Start in HR. cbn in HR.
    injection HR as <- <-. cbn. by rewrite Hname.
Qed.

Lemma Run_failure_leaves_incomplete_witness :
  repobuilder.IsComplete
    (fst (@repobuilder.Run sample.builder sample.no_sync sample.no_sync
            (sample.job false) sample.closed_handle
            (sample.starting [Some sample.timeout])))
  = false
  ∧ repobuilder.IsComplete
      (fst (@repobuilder.Run sample.builder sample.no_sync sample.no_sync
              (sample.job true) sample.closed_handle
              (sample.starting [None; Some sample.timeout])))
    = false.
Proof.
  split.
  - exact (proj1 (proj1 (@Run_failure_leaves_incomplete sample.builder
             sample.no_sync sample.no_sync (sample.job false)
             sample.closed_handle (sample.starting [Some sample.timeout])
             sample.timeout eq_refl eq_refl) [] eq_refl)).
  - exact (proj1 (proj2 (@Run_failure_leaves_incomplete sample.builder
             sample.no_sync sample.no_sync (sample.job true)
             sample.closed_handle (sample.starting [None; Some sample.timeout])
             sample.timeout eq_refl eq_refl) [] eq_refl eq_refl)).
Defined.

(** * Further properties *)

(** ** Life cycle of a handle *)

(** [Open] on a closed handle marks it open, connects it to the bucket of
    its name and gives it a queue of [numJobs] workers, keeping its
    settings and its mode; it uses one queue start and returns that
    start's error, wrapped.  The handle is open even when the start
    failed, so that a second [Open] returns [nil] and starts nothing. *)
Theorem Open_marks_open (b : sthree.Bucket) (w : World) :
  sthree.open b = false →
  let b' := fst (fst (sthree.Open b w)) in
  sthree.open b' = true
  ∧ sthree.bucket b' = Some (sthree.name b)
  ∧ sthree.queue b' = Some (sthree.MkQueue (sthree.numJobs b))
  ∧ same_settings b b'
  ∧ sthree.dryRun b' = sthree.dryRun b
  ∧ snd (fst (sthree.Open b w))
    = errors.Wrap (default None (head (starts w)))
                  "starting worker queue for sync jobs"
  ∧ snd (sthree.Open b w) = started w
  ∧ sthree.Open b' (started w) = ((b', None), started w).
Proof.
  intros Hopen. cbv zeta.
  destruct (sthree.Open b w) as [[b' err] w'] eqn:HO.
  unfold sthree.Open in HO. rewrite Hopen in HO.
  unfold mbind, M_bind, queue_Start, mret, M_ret in HO.
  injection HO as <- <- <-. cbn [fst snd].
  repeat split.
  destruct (sthree.bucket b) as [n|]; [|done]. by case_bool_decide; subst.
Qed.

Lemma Open_marks_open_witness :
  sthree.open (fst (fst (sthree.Open sample.closed_handle
                           (sample.starting [Some sample.timeout])))) = true
  ∧ snd (fst (sthree.Open sample.closed_handle
                (sample.starting [Some sample.timeout])))
    = Some (errors.Wrapped sample.timeout
              "starting worker queue for sync jobs" []).
Proof.
  destruct (Open_marks_open sample.closed_handle
              (sample.starting [Some sample.timeout]) eq_refl)
    as (Ho & _ & _ & _ & _ & He & _).
  split; [exact Ho|exact He].
Defined.



(** [SetNumJobs] is refused on an open handle, which stays as it is, with
    an error that cites the job count in force, not the one asked for; on
    a closed handle it is accepted, and the queue of the next [Open] has
    that many workers. *)
Theorem SetNumJobs_spec (b : sthree.Bucket) (n : Z) (w : World) :
  (sthree.open b = true →
   sthree.SetNumJobs b n
   = (b, Some (errors.Errorf "numJobs=%d, cannot change for a running queue"
                             [errors.Int (sthree.numJobs b)])))
  ∧ (sthree.open b = false →
     snd (sthree.SetNumJobs b n) = None
     ∧ sthree.numJobs (fst (sthree.SetNumJobs b n)) = n
     ∧ sthree.queue (fst (fst (sthree.Open (fst (sthree.SetNumJobs b n)) w)))
       = Some (sthree.MkQueue n)).
Proof.
  unfold sthree.SetNumJobs, sthree.Open.
  split; intros ->; [done|]. by repeat split.
Qed.

Lemma SetNumJobs_spec_witness :
  sthree.SetNumJobs (sample.handle 20 false) 8
  = (sample.handle 20 false,
     Some (errors.Errorf "numJobs=%d, cannot change for a running queue"
                         [errors.Int 2]))
  ∧ sthree.numJobs (fst (sthree.SetNumJobs sample.closed_handle 8)) = 8.
Proof.
  split.
  - exact (proj1 (SetNumJobs_spec (sample.handle 20 false) 8 (sample.starting []))
                 eq_refl).
  - exact (proj1 (proj2 (proj2 (SetNumJobs_spec sample.closed_handle 8
                                  (sample.starting [])) eq_refl))).
Defined.

(** [Clone] copies the settings but not the mode: the clone of a dry-run
    handle is a live handle.  The clone is open if and only if the source
    is, then with a queue of its own; [Clone] fails only if the source is
    open and the queue of the clone does not start. *)
Theorem Clone_spec (b : sthree.Bucket) (w : World) :
  (∀ c w', sthree.Clone b w = ((Some c, None), w') →
           same_settings b c
           ∧ sthree.dryRun c = false
           ∧ sthree.open c = sthree.open b
           ∧ (sthree.open b = true →
              sthree.queue c = Some (sthree.MkQueue (sthree.numJobs b))
              ∧ sthree.bucket c = Some (sthree.name b)
              ∧ w' = started w)
           ∧ (sthree.open b = false → w' = w))
  ∧ (sthree.open b = false → ∃ c, sthree.Clone b w = ((Some c, None), w))
  ∧ (sthree.open b = true →
     ∀ e, default None (head (starts w)) = Some e →
          sthree.Clone b w
          = ((None, Some (errors.Wrapped e "starting worker queue for sync jobs" [])),
             started w))
  ∧ (sthree.open b = true →
     default None (head (starts w)) = None →
     ∃ c, sthree.Clone b w = ((Some c, None), started w)).
Proof.
  unfold sthree.Clone.
  destruct (sthree.open b) eqn:Hopen.
  - unfold mbind, M_bind, sthree.Open. cbn [sthree.open].
    unfold mbind, M_bind, queue_Start.
    destruct (default None (head (starts w))) as [e|] eqn:Hs; cbn.
    + split; [intros c w' [=]|]. split; [done|].
      split; [by intros _ e' [= <-]|]. by intros _ [=].
    + split.
      { intros c w' [= <- <-]. by repeat split. }
      split; [done|]. split; [by intros _ e [=]|]. intros _ _. by eexists.
  - split.
    { intros c w' [= <- <-]. by repeat split. }
    split; [by eexists|]. split; by intros [=].
Qed.

Lemma Clone_spec_witness :
  (∃ c, sthree.Clone sample.closed_handle (sample.starting [])
        = ((Some c, None), sample.starting []))
  ∧ sthree.Clone (sample.handle 20 true) (sample.starting [Some sample.timeout])
    = ((None, Some (errors.Wrapped sample.timeout
                      "starting worker queue for sync jobs" [])),
       started (sample.starting [Some sample.timeout]))
  ∧ (∃ c, sthree.Clone (sample.handle 20 true) (sample.starting [None])
          = ((Some c, None), started (sample.starting [None]))).
Proof.
  split; [|split].
  - exact (proj1 (proj2 (Clone_spec sample.closed_handle (sample.starting [])))
                 eq_refl).
  - exact (proj1 (proj2 (proj2 (Clone_spec (sample.handle 20 true)
                                  (sample.starting [Some sample.timeout]))))
                 eq_refl sample.timeout eq_refl).
  - exact (proj2 (proj2 (proj2 (Clone_spec (sample.handle 20 true)
                                  (sample.starting [None]))))
                 eq_refl eq_refl).
Defined.

(** [DryRunClone] returns what [Clone] returns, marked dry-run, and
    fails when [Clone] fails, with the same error and the same effect. *)
Theorem DryRunClone_spec (b : sthree.Bucket) (w : World) :
  snd (sthree.DryRunClone b w) = snd (sthree.Clone b w)
  ∧ snd (fst (sthree.DryRunClone b w)) = snd (fst (sthree.Clone b w))
  ∧ (∀ c w', sthree.Clone b w = ((Some c, None), w') →
             sthree.DryRunClone b w = ((Some (sthree.set_dryRun true c), None), w')
             ∧ sthree.dryRun (sthree.set_dryRun true c) = true
             ∧ same_settings b (sthree.set_dryRun true c)
             ∧ sthree.open (sthree.set_dryRun true c) = sthree.open b)
  ∧ (∀ e, snd (fst (sthree.Clone b w)) = Some e →
          fst (fst (sthree.DryRunClone b w)) = None).
Proof.
  unfold sthree.DryRunClone, mbind, M_bind.
  destruct (sthree.Clone b w) as [[[c|] [e|]] w1] eqn:HC; cbn [fst snd];
    (split; [done|]); (split; [done|]); (split; [|done]);
    intros c' w' [= <- <-].
  destruct (Clone_copies b c w w1 HC) as (? & ? & ? & ? & ? & ?).
  by repeat split.
Qed.

(** ** Listing and reading *)

Section reading.

Import sthree.

Variable b : Bucket.

Lemma Exists_loop_inert fuel : ∀ path i ex err w,
  inert w (snd (Exists_loop fuel b path i ex err w)).
Proof.
  induction fuel as [|fuel IH]; intros path i ex err w; [apply inert_refl|].
  destruct (s3.faults (remote w)) as [|[e|] rest] eqn:Hf.
  - rewrite Exists_loop_ok by (by rewrite Hf).
    apply inert_advance. by repeat constructor.
  - rewrite (Exists_loop_fault _ _ _ _ _ _ _ e rest) by done.
    eapply inert_trans; [|apply IH]. apply inert_advance. by repeat constructor.
  - rewrite Exists_loop_ok by (by rewrite Hf).
    apply inert_advance. by repeat constructor.
Qed.

Lemma Get_loop_inert fuel : ∀ path data catcher w,
  inert w (snd (Get_loop fuel b path data catcher w)).
Proof.
  induction fuel as [|fuel IH]; intros path data catcher w; [apply inert_refl|].
  cbn [Get_loop]. unfold mbind, M_bind, on_remote, s3.Get, s3.request.
  destruct (default None (head (s3.faults (remote w)))) as [e|].
  - eapply inert_trans; [|apply IH]. split; [done|].
    eexists. split; [done|]. by repeat constructor.
  - destruct (s3.objects (remote w) !! path) as [o|].
    + split; [done|]. eexists. split; [done|]. by repeat constructor.
    + eapply inert_trans; [|apply IH]. split; [done|].
      eexists. split; [done|]. by repeat constructor.
Qed.

Lemma Get_write_remote fileName data w :
  remote (snd (Get_write fileName data w)) = remote w.
Proof.
  unfold Get_write, mbind, M_bind, read_disk.
  destruct (os.NotExist (Dir fileName) (disk w)).
  - unfold on_disk at 1.
    destruct (os.MkdirAll (Dir fileName) (disk w)) as [[e|] d]; [done|].
    unfold on_disk. cbn [disk].
    by destruct (os.WriteFile fileName data d).
  - unfold mret at 1, M_ret at 1, on_disk.
    by destruct (os.WriteFile fileName data (disk w)).
Qed.

(** Every key the loop of [list] sends starts with the prefix and is a
    key of the bucket, whatever the outcome of the requests. *)
Lemma list_pages_sound prefix fuel : ∀ lastKey output w,
  Forall (λ key, String.prefix prefix (s3.Key_Key key) = true
                 ∧ is_Some (s3.objects (remote w) !! s3.Key_Key key)) output →
  Forall (λ key, String.prefix prefix (s3.Key_Key key) = true
                 ∧ is_Some (s3.objects (remote w) !! s3.Key_Key key))
         (fst (list_pages fuel prefix lastKey output w)).
Proof.
  induction fuel as [|fuel IH]; intros lastKey output w Hout; [done|].
  assert (Forall (λ key, String.prefix prefix (s3.Key_Key key) = true
                         ∧ is_Some (s3.objects (remote w) !! s3.Key_Key key))
            (output ++ (s3.key_of (s3.objects (remote w))
                          <$> take (Z.to_nat 1000)
                                (s3.selected prefix lastKey (s3.objects (remote w))))))
    as Hpage.
  { apply Forall_app. split; [done|]. apply Forall_fmap, Forall_forall.
    intros k Hk%subseteq_take. cbn.
    apply list_elem_of_filter in Hk as [[Hp _] Hk]. split; [done|].
    unfold s3.sorted_keys in Hk.
    by rewrite merge_sort_Permutation, elem_of_elements, elem_of_dom in Hk. }
  destruct (s3.faults (remote w)) as [|[e|] rest] eqn:Hf.
  - rewrite list_pages_ok by (by rewrite Hf). cbv zeta.
    case_bool_decide; [|done]. by apply (IH _ _ (advance _ _ w)).
  - by rewrite (list_pages_fault _ _ _ _ _ e rest).
  - rewrite list_pages_ok by (by rewrite Hf). cbv zeta.
    case_bool_decide; [|done]. by apply (IH _ _ (advance _ _ w)).
Qed.

(** The number of requests the loop sends when none fails. *)
Lemma list_pages_count (objs : gmap string s3.Object) prefix fuel : ∀ n output w,
  s3.objects (remote w) = objs →
  s3.faults (remote w) = [] →
  (n = 0 ∨ 2 ≤ n)%nat → (n ≤ length (under prefix objs))%nat →
  (length (under prefix objs) - n < fuel)%nat →
  ∃ cs,
    snd (list_pages fuel prefix (marker_at (under prefix objs) n) output w)
    = advance cs [] w
    ∧ length cs = pages_for (length (under prefix objs) - n).
Proof.
  induction fuel as [|fuel IH]; intros n output w Ho Hf Hn Hle Hfuel; [lia|].
  rewrite list_pages_ok by (by rewrite Hf).
  cbv zeta. rewrite Ho, Hf, selected_at by done. cbn [tail].
  case_bool_decide as Hlen.
  - rewrite last_page by done. rewrite length_drop in Hlen.
    destruct (IH (n + Z.to_nat 1000)%nat
                 (output ++ (s3.key_of objs
                               <$> take (Z.to_nat 1000) (drop n (under prefix objs))))
                 (advance [s3.ListCall prefix "" (marker_at (under prefix objs) n) 1000]
                          [] w))
      as (cs & Hcs & Hcount); [done|done|lia|lia|lia|].
    eexists. rewrite Hcs, advance_advance. split; [done|].
    cbn [length app]. rewrite Hcount. unfold pages_for.
    replace (length (under prefix objs) - n - 1)%nat
      with (1 * Z.to_nat 1000
            + (length (under prefix objs) - (n + Z.to_nat 1000) - 1))%nat by lia.
    rewrite Nat.div_add_l by lia. lia.
  - rewrite length_drop in Hlen. eexists. split; [done|].
    unfold pages_for. rewrite Nat.div_small by lia. done.
Qed.

End reading.

(** When no request fails, [list] returns the records of exactly the keys
    of the bucket that start with the prefix (with ["/"] appended if it
    lacks one), each once, in increasing order; it changes nothing and
    logs nothing. *)
Theorem list_returns_keys_below_prefix (b : sthree.Bucket) (prefix : string)
        (w : World) :
  s3.faults (remote w) = [] →
  let keys := names (fst (sthree.list_ b prefix w)) in
  fst (sthree.list_ b prefix w)
  = (s3.key_of (s3.objects (remote w)) <$> keys)
  ∧ (∀ k, k ∈ keys ↔ String.prefix (sthree.list_prefix prefix) k = true
                      ∧ is_Some (s3.objects (remote w) !! k))
  ∧ NoDup keys
  ∧ StronglySorted String.le keys
  ∧ inert w (snd (sthree.list_ b prefix w))
  ∧ log (snd (sthree.list_ b prefix w)) = log w.
Proof.
  intros Hf. cbv zeta.
  destruct (list_all b prefix w Hf) as (cs & -> & Hcs). cbn [fst snd].
  rewrite names_key_of. split; [done|]. split.
  { intros k. unfold under, s3.sorted_keys. rewrite list_elem_of_filter.
    by rewrite merge_sort_Permutation, elem_of_elements, elem_of_dom. }
  split; [apply under_NoDup|]. split; [apply under_sorted|].
  split; [by apply inert_advance|done].
Qed.

Lemma list_returns_keys_below_prefix_witness :
  ("nightly/c.rpm"
     ∈ names (fst (sthree.list_ (sample.handle 3 false) "nightly"
                     (sample.world ["nightly/a.rpm"; "nightly-old/b.rpm";
                                    "nightly/c.rpm"] [])))
   ↔ String.prefix "nightly/" "nightly/c.rpm" = true
     ∧ is_Some (sample.objects ["nightly/a.rpm"; "nightly-old/b.rpm";
                                "nightly/c.rpm"] !! "nightly/c.rpm"))
  ∧ NoDup (names (fst (sthree.list_ (sample.handle 3 false) "nightly"
                         (sample.world ["nightly/a.rpm"; "nightly-old/b.rpm";
                                        "nightly/c.rpm"] [])))).
Proof.
  pose proof (list_returns_keys_below_prefix (sample.handle 3 false) "nightly"
                (sample.world ["nightly/a.rpm"; "nightly-old/b.rpm";
                               "nightly/c.rpm"] [])
                eq_refl) as (_ & Hin & Hnd & _).
  split; [exact (Hin "nightly/c.rpm")|exact Hnd].
Defined.



(** Whatever the outcome of its requests, [list] returns only keys of
    the bucket that start with the prefix, changes nothing in the bucket
    and sends no mutating request. *)
Theorem list_is_sound (b : sthree.Bucket) (prefix : string) (w : World) :
  Forall (λ key, String.prefix (sthree.list_prefix prefix) (s3.Key_Key key) = true
                 ∧ is_Some (s3.objects (remote w) !! s3.Key_Key key))
         (fst (sthree.list_ b prefix w))
  ∧ inert w (snd (sthree.list_ b prefix w)).
Proof.
  split; [by apply list_pages_sound|apply list_inert].
Qed.

(** When no request fails, [contents] maps exactly the keys of the bucket
    that start with the prefix, each to its own record. *)
Theorem contents_maps_keys_below_prefix (b : sthree.Bucket) (prefix : string)
        (w : World) :
  s3.faults (remote w) = [] →
  ∀ k, fst (sthree.contents b prefix w) !! k
       = if decide (String.prefix (sthree.list_prefix prefix) k = true
                    ∧ is_Some (s3.objects (remote w) !! k))
         then Some (s3.key_of (s3.objects (remote w)) k)
         else None.
Proof.
  intros Hf k. unfold sthree.contents, mbind, M_bind.
  destruct (list_all b prefix w Hf) as (cs & -> & _). cbn [fst mret M_ret].
  rewrite contents_map_lookup, lookup_empty.
  assert (k ∈ under (sthree.list_prefix prefix) (s3.objects (remote w))
          ↔ String.prefix (sthree.list_prefix prefix) k = true
            ∧ is_Some (s3.objects (remote w) !! k)) as Hin.
  { unfold under, s3.sorted_keys. rewrite list_elem_of_filter.
    by rewrite merge_sort_Permutation, elem_of_elements, elem_of_dom. }
  destruct (decide (k ∈ under _ _)) as [Hk|Hk].
  - by rewrite decide_True by (by apply Hin).
  - by rewrite decide_False by (by rewrite <- Hin).
Qed.

Lemma contents_maps_keys_below_prefix_witness :
  fst (sthree.contents (sample.handle 3 false) "nightly"
         (sample.world ["nightly/a.rpm"; "nightly-old/b.rpm"] []))
    !! "nightly-old/b.rpm"
  = if decide (String.prefix "nightly/" "nightly-old/b.rpm" = true
               ∧ is_Some (sample.objects ["nightly/a.rpm"; "nightly-old/b.rpm"]
                            !! "nightly-old/b.rpm"))
    then Some (s3.key_of (sample.objects ["nightly/a.rpm"; "nightly-old/b.rpm"])
                         "nightly-old/b.rpm")
    else None.
Proof.
  exact (contents_maps_keys_below_prefix (sample.handle 3 false) "nightly"
           (sample.world ["nightly/a.rpm"; "nightly-old/b.rpm"] []) eq_refl
           "nightly-old/b.rpm").
Defined.

(** [Exists], [Get], [list] and [contents] never change the bucket:
    whatever the outcome of their requests, its objects are the same
    afterwards and none of the requests sent is a mutating one. *)
Theorem reads_never_mutate (b : sthree.Bucket) (w : World) :
  (∀ path, inert w (snd (sthree.Exists b path w)))
  ∧ (∀ path fileName, inert w (snd (sthree.Get b path fileName w)))
  ∧ (∀ prefix, inert w (snd (sthree.list_ b prefix w)))
  ∧ (∀ prefix, inert w (snd (sthree.contents b prefix w))).
Proof.
  split; [|split; [|split]].
  - intros path. apply Exists_loop_inert.
  - intros path fileName. unfold sthree.Get, mbind, M_bind.
    pose proof (Get_loop_inert b (Z.to_nat (sthree.numRetries b)) path []
                  grip.NewCatcher w) as Hl.
    destruct (sthree.Get_loop _ b path [] grip.NewCatcher w) as [[data c] w1].
    cbn [snd] in Hl. destruct (grip.HasErrors c); [done|].
    destruct Hl as [Ho Hc]. unfold inert. by rewrite Get_write_remote.
  - intros prefix. apply list_inert.
  - intros prefix. unfold sthree.contents, mbind, M_bind.
    pose proof (list_inert b prefix w) as Hl.
    by destruct (sthree.list_ b prefix w).
Qed.

(** ** Uploading, downloading and deleting one object *)

Section single_object.

Import sthree.

Variable b : Bucket.

Lemma Get_loop_miss fuel path data catcher w :
  s3.faults (remote w) = [] →
  s3.objects (remote w) !! path = None →
  Get_loop (S fuel) b path data catcher w
  = Get_loop fuel b path []
             (catcher ++ Get_errors [errors.New "The specified key does not exist."])
             (advance [s3.GetCall path] [] w).
Proof.
  intros Hf Ho. cbn [Get_loop]. unfold mbind, M_bind, on_remote, s3.Get.
  rewrite request_ok by (by rewrite Hf). by rewrite Ho, Hf.
Qed.

(** The loop of [Get] on a key that the bucket does not hold, when the
    requests themselves go through: every attempt is made and fails. *)
Lemma Get_loop_missing path fuel : ∀ data catcher w,
  s3.faults (remote w) = [] →
  s3.objects (remote w) !! path = None →
  Get_loop (S fuel) b path data catcher w
  = (([], catcher
          ++ Get_errors (replicate (S fuel)
                           (errors.New "The specified key does not exist."))),
     advance (replicate (S fuel) (s3.GetCall path)) [] w).
Proof.
  induction fuel as [|fuel IH]; intros data catcher w Hf Ho.
  - by rewrite Get_loop_miss.
  - rewrite Get_loop_miss by done. rewrite IH by done.
    rewrite advance_advance. unfold Get_errors.
    cbn [replicate fmap list_fmap app]. by rewrite <- app_assoc.
Qed.

Lemma Get_write_no_directory fileName data w e :
  os.NotExist (Dir fileName) (disk w) = true →
  fst (os.MkdirAll (Dir fileName) (disk w)) = Some e →
  Get_write fileName data w
  = (Some (errors.Wrapped e "creating directory for s3.Get operations" []), w).
Proof.
  intros Hmiss Hmk. unfold Get_write, mbind, M_bind, read_disk.
  rewrite Hmiss. unfold on_disk at 1.
  unfold os.MkdirAll in *. destruct (bool_decide _); [|done].
  cbn in Hmk. injection Hmk as <-. unfold mret, M_ret. cbn. by destruct w.
Qed.

End single_object.

(** [Put] needs a regular local file: without one it returns an error
    and sends nothing, on a dry-run handle as on a live one. *)
Theorem Put_needs_local_file (b : sthree.Bucket) (fileName path : string)
        (w : World) :
  os.files (disk w) !! fileName = None →
  is_Some (fst (sthree.Put b fileName path w))
  ∧ snd (sthree.Put b fileName path w) = w.
Proof.
  intros Hfile. unfold sthree.Put, mbind, M_bind, read_disk.
  destruct (os.NotExist fileName (disk w)); [done|].
  unfold os.ReadFile. by rewrite Hfile.
Qed.

Lemma Put_needs_local_file_witness :
  is_Some (fst (sthree.Put (sample.handle 3 true) "pkgs/missing.rpm" "a.rpm"
                  (sample.world [] [])))
  ∧ snd (sthree.Put (sample.handle 3 true) "pkgs/missing.rpm" "a.rpm"
           (sample.world [] []))
    = sample.world [] [].
Proof.
  exact (Put_needs_local_file (sample.handle 3 true) "pkgs/missing.rpm" "a.rpm"
           (sample.world [] []) eq_refl).
Defined.

(** Round trip: after [Put] of a local file on a live handle, with at
    least one attempt allowed and no request failing, [Exists] finds the
    key, [Get] writes the bytes of the uploaded file to the file it is
    given, and the other keys of the bucket are as before. *)
Theorem Put_then_read (b : sthree.Bucket) (fileName path : string)
        (contents : list Byte.byte) (w : World) :
  1 ≤ sthree.numRetries b →
  sthree.dryRun b = false →
  s3.faults (remote w) = [] →
  os.files (disk w) !! fileName = Some contents →
  let w1 := snd (sthree.Put b fileName path w) in
  fst (sthree.Put b fileName path w) = None
  ∧ fst (sthree.Exists b path w1) = (true, None)
  ∧ (∀ k, k ≠ path →
          s3.objects (remote w1) !! k = s3.objects (remote w) !! k)
  ∧ (∀ dest, writable dest (disk w) →
             fst (sthree.Get b path dest w1) = None
             ∧ os.files (disk (snd (sthree.Get b path dest w1))) !! dest
               = Some contents).
Proof.
  intros Hn Hdry Hf Hfile. cbv zeta.
  assert (∃ fuel, Z.to_nat (sthree.numRetries b) = (length (@nil error) + S fuel)%nat)
    as [fuel Hfuel] by (exists (Z.to_nat (sthree.numRetries b) - 1)%nat; cbn; lia).
  rewrite (Put_reads b fileName path contents) by done.
  rewrite Hfuel.
  rewrite (Put_loop_succeeds b path contents _ [] fuel _ _ w []) by done.
  cbn [fst snd]. split; [done|]. split; [|split].
  - unfold sthree.Exists. rewrite Hfuel.
    rewrite (Exists_loop_succeeds b path [] fuel _ _ _ _ []) by done.
    cbn. rewrite lookup_insert_eq. by rewrite bool_decide_eq_true_2.
  - intros k Hk. cbn. by rewrite lookup_insert_ne.
  - intros dest Hw. unfold sthree.Get, mbind, M_bind. rewrite Hfuel.
    rewrite (Get_loop_succeeds b path
               (s3.MkObject contents (sthree.getMimeType fileName)
                            (sthree.NewFilePermission b))
               [] fuel _ _ _ []); [|done|done|by cbn; rewrite lookup_insert_eq].
    cbn [grip.HasErrors grip.NewCatcher].
    rewrite Get_write_writable by done.
    cbn. by rewrite lookup_insert_eq.
Qed.

Lemma Put_then_read_witness :
  fst (sthree.Exists (sample.handle 3 false) "nightly/a.rpm"
         (snd (sthree.Put (sample.handle 3 false) "pkgs/a.rpm" "nightly/a.rpm"
                 (sample.world [] []))))
  = (true, None).
Proof.
  exact (proj1 (proj2 (Put_then_read (sample.handle 3 false) "pkgs/a.rpm"
                         "nightly/a.rpm" [Byte.x03] (sample.world [] [])
                         ltac:(done) eq_refl eq_refl eq_refl))).
Defined.

(** [Get] of a key the bucket does not hold, when the requests themselves
    go through: every one of the attempts allowed is made, the error
    tells their number, and nothing is written to the local disk. *)
Theorem Get_missing_key (b : sthree.Bucket) (path fileName : string) (w : World) :
  1 ≤ sthree.numRetries b →
  s3.faults (remote w) = [] →
  s3.objects (remote w) !! path = None →
  fst (sthree.Get b path fileName w)
  = Some (Get_exhausted b path
            (replicate (Z.to_nat (sthree.numRetries b))
                       (errors.New "The specified key does not exist.")))
  ∧ new_calls w (snd (sthree.Get b path fileName w))
    = replicate (Z.to_nat (sthree.numRetries b)) (s3.GetCall path)
  ∧ disk (snd (sthree.Get b path fileName w)) = disk w.
Proof.
  intros Hn Hf Ho. unfold sthree.Get, mbind, M_bind.
  destruct (Z.to_nat (sthree.numRetries b)) as [|fuel] eqn:Hfuel; [lia|].
  rewrite Get_loop_missing by done. cbn [grip.NewCatcher app].
  rewrite Get_errors_nonempty by done. unfold mret, M_ret. cbn [fst snd].
  by rewrite new_calls_advance.
Qed.

Lemma Get_missing_key_witness :
  new_calls (sample.world [] [])
    (snd (sthree.Get (sample.handle 3 false) "nightly/a.rpm" "out/a.rpm"
            (sample.world [] [])))
  = replicate 3 (s3.GetCall "nightly/a.rpm")
  ∧ disk (snd (sthree.Get (sample.handle 3 false) "nightly/a.rpm" "out/a.rpm"
                 (sample.world [] [])))
    = sample.local.
Proof.
  exact (proj2 (Get_missing_key (sample.handle 3 false) "nightly/a.rpm"
                  "out/a.rpm" (sample.world [] []) ltac:(done) eq_refl eq_refl)).
Defined.

(** When the directory of the local file is missing and cannot be made,
    [Get] returns the error of the attempt to make it after the download
    has succeeded, and the local disk is as before: the data is dropped. *)
Theorem Get_directory_failure (b : sthree.Bucket) (path fileName : string)
        (o : s3.Object) (e : error) (w : World) :
  1 ≤ sthree.numRetries b →
  s3.faults (remote w) = [] →
  s3.objects (remote w) !! path = Some o →
  os.NotExist (sthree.Dir fileName) (disk w) = true →
  fst (os.MkdirAll (sthree.Dir fileName) (disk w)) = Some e →
  fst (sthree.Get b path fileName w)
  = Some (errors.Wrapped e "creating directory for s3.Get operations" [])
  ∧ new_calls w (snd (sthree.Get b path fileName w)) = [s3.GetCall path]
  ∧ disk (snd (sthree.Get b path fileName w)) = disk w.
Proof.
  intros Hn Hf Ho Hmiss Hmk. unfold sthree.Get, mbind, M_bind.
  assert (∃ fuel, Z.to_nat (sthree.numRetries b) = (length (@nil error) + S fuel)%nat)
    as [fuel ->] by (exists (Z.to_nat (sthree.numRetries b) - 1)%nat; cbn; lia).
  rewrite (Get_loop_succeeds b path o [] fuel _ _ _ []) by done.
  cbn [grip.HasErrors grip.NewCatcher].
  rewrite (Get_write_no_directory _ _ _ e) by done.
  cbn [fst snd]. by rewrite new_calls_advance.
Qed.

Lemma Get_directory_failure_witness :
  disk (snd (sthree.Get (sample.handle 3 false) "nightly/a.rpm" "out/a.rpm"
               (MkWorld (s3.MkStore (sample.objects ["nightly/a.rpm"]) [] [])
                        (os.MkDisk ∅ ∅ {["out"]}) [] [])))
  = os.MkDisk ∅ ∅ {["out"]}.
Proof.
  refine (proj2 (proj2 (Get_directory_failure (sample.handle 3 false)
                  "nightly/a.rpm" "out/a.rpm" sample.object
                  (errors.Errorf "mkdir %s: permission denied" [errors.Str "out"])
                  (MkWorld (s3.MkStore (sample.objects ["nightly/a.rpm"]) [] [])
                           (os.MkDisk ∅ ∅ {["out"]}) [] [])
                  ltac:(done) eq_refl eq_refl _ _))).
  - vm_compute. reflexivity.
  - vm_compute. reflexivity.
Defined.

(** [Delete] removes the key and no other when its request succeeds, so
    that [Exists] then answers false; when the request fails it returns
    the error with the path and the name of the bucket, and the bucket is
    as before. *)
Theorem Delete_spec (b : sthree.Bucket) (path : string) (w : World) :
  (s3.faults (remote w) = [] →
   fst (sthree.Delete b path w) = None
   ∧ (∀ k, s3.objects (remote (snd (sthree.Delete b path w))) !! k
           = if decide (k = path) then None else s3.objects (remote w) !! k)
   ∧ (1 ≤ sthree.numRetries b →
      fst (sthree.Exists b path (snd (sthree.Delete b path w))) = (false, None)))
  ∧ (∀ e rest,
       s3.faults (remote w) = Some e :: rest →
       fst (sthree.Delete b path w)
       = Some (errors.Wrapped e "deleting %s from %s"
                 [errors.Str path; errors.Str (sthree.name b)])
       ∧ s3.objects (remote (snd (sthree.Delete b path w)))
         = s3.objects (remote w)).
Proof.
  unfold sthree.Delete, mbind, M_bind, on_remote, s3.Del. split.
  - intros Hf. rewrite request_ok by (by rewrite Hf). rewrite Hf.
    cbn [fst snd]. split; [done|]. split.
    + intros k. cbn. rewrite lookup_delete.
      destruct (decide (path = k)) as [->|Hne]; [by rewrite decide_True|].
      by rewrite decide_False by done.
    + intros Hn. unfold sthree.Exists.
      assert (∃ fuel, Z.to_nat (sthree.numRetries b)
                      = (length (@nil error) + S fuel)%nat)
        as [fuel ->] by (exists (Z.to_nat (sthree.numRetries b) - 1)%nat; cbn; lia).
      rewrite (Exists_loop_succeeds b path [] fuel _ _ _ _ []) by done.
      cbn. rewrite lookup_delete_eq. by rewrite bool_decide_eq_false_2 by (by intros [? ?]).
  - intros e rest Hf. by rewrite (request_fault _ _ e rest).
Qed.

Lemma Delete_spec_witness :
  fst (sthree.Delete (sample.handle 20 false) "nightly/a.rpm"
         (sample.world ["nightly/a.rpm"] [])) = None
  ∧ fst (sthree.Delete (sample.handle 20 false) "nightly/a.rpm"
           (sample.world ["nightly/a.rpm"] [Some sample.timeout]))
    = Some (errors.Wrapped sample.timeout "deleting %s from %s"
              [errors.Str "nightly/a.rpm"; errors.Str "repo"]).
Proof.
  split.
  - exact (proj1 (proj1 (Delete_spec (sample.handle 20 false) "nightly/a.rpm"
                           (sample.world ["nightly/a.rpm"] [])) eq_refl)).
  - exact (proj1 (proj2 (Delete_spec (sample.handle 20 false) "nightly/a.rpm"
                           (sample.world ["nightly/a.rpm"] [Some sample.timeout]))
                        sample.timeout [] eq_refl)).
Defined.

(** ** Dry-run mode and the delete operations *)

(** On a dry-run handle [Put], [DeleteMany], [DeletePrefix] and
    [DeleteMatching] send no mutating request and leave the bucket as it
    is, whatever the outcome of the listing requests; [Put] of a readable
    file, [DeleteMany] and [DeletePrefix] return [nil]. *)
Theorem dry_run_sends_nothing `{sthree.Regexp} (b : sthree.Bucket) (w : World) :
  sthree.dryRun b = true →
  (∀ fileName path,
     remote (snd (sthree.Put b fileName path w)) = remote w
     ∧ (is_Some (os.files (disk w) !! fileName) →
        fst (sthree.Put b fileName path w) = None))
  ∧ (∀ paths, fst (sthree.DeleteMany b paths w) = None
              ∧ inert w (snd (sthree.DeleteMany b paths w)))
  ∧ (∀ prefix, fst (sthree.DeletePrefix b prefix w) = None
               ∧ inert w (snd (sthree.DeletePrefix b prefix w)))
  ∧ (∀ prefix expression,
       inert w (snd (sthree.DeleteMatching b prefix expression w))).
Proof.
  intros Hdry. split; [|split; [|split]].
  - intros fileName path. split; [by apply Put_dry|].
    intros [contents Hfile].
    unfold sthree.Put, mbind, M_bind, read_disk at 1, os.NotExist.
    rewrite bool_decide_eq_false_2 by (rewrite Hfile; intros [[=] _]).
    unfold read_disk, os.ReadFile. by rewrite Hfile, Hdry.
  - intros paths. by apply DeleteMany_dry.
  - intros prefix. by apply DeletePrefix_dry.
  - intros prefix expression. by apply DeleteMatching_dry.
Qed.

Lemma dry_run_sends_nothing_witness :
  fst (sthree.DeletePrefix (sample.handle 3 true) "nightly"
         (sample.world (sample.packages 3) []))
  = None
  ∧ inert (sample.world (sample.packages 3) [])
          (snd (sthree.DeletePrefix (sample.handle 3 true) "nightly"
                  (sample.world (sample.packages 3) []))).
Proof.
  exact (proj1 (proj2 (proj2 (@dry_run_sends_nothing re.fragment
                  (sample.handle 3 true) (sample.world (sample.packages 3) [])
                  eq_refl))) "nightly").
Defined.

(** [Exists], [Get] and [list] behave alike on a dry-run and on a live
    handle: the mode changes neither what they return nor what they do. *)
Theorem dry_run_reads_alike (b : sthree.Bucket) (w : World) :
  (∀ path, sthree.Exists (sthree.set_dryRun true b) path w
           = sthree.Exists (sthree.set_dryRun false b) path w)
  ∧ (∀ path fileName,
       sthree.Get (sthree.set_dryRun true b) path fileName w
       = sthree.Get (sthree.set_dryRun false b) path fileName w)
  ∧ (∀ prefix, sthree.list_ (sthree.set_dryRun true b) prefix w
               = sthree.list_ (sthree.set_dryRun false b) prefix w).
Proof.
  destruct (reads_ignore_mode b true w) as (HE & HG & HL).
  destruct (reads_ignore_mode b false w) as (HE' & HG' & HL').
  split; [|split].
  - intros path. by rewrite HE, HE'.
  - intros path fileName. by rewrite HG, HG'.
  - done.
Qed.

(** On a live handle a group of at most a thousand keys goes out in one
    bulk-delete request that names them all, in order, and an empty group
    in none.  When the request succeeds the keys are gone and the others
    are as before; when it fails its error is returned and the bucket is
    as before. *)
Theorem deleteGroup_within_limit (b : sthree.Bucket) (items : list s3.Key)
        (w : World) :
  sthree.dryRun b = false →
  Z.of_nat (length items) ≤ 1000 →
  bulk_deletes (new_calls w (snd (sthree.deleteGroup b items w)))
  = (if decide (items = []) then [] else [names items])
  ∧ length (new_calls w (snd (sthree.deleteGroup b items w)))
    = (if decide (items = []) then 0 else 1)%nat
  ∧ (next_ok (s3.faults (remote w)) →
     fst (sthree.deleteGroup b items w) = None
     ∧ ∀ k, s3.objects (remote (snd (sthree.deleteGroup b items w))) !! k
            = if decide (k ∈ names items) then None
              else s3.objects (remote w) !! k)
  ∧ (∀ e rest, s3.faults (remote w) = Some e :: rest → items ≠ [] →
               is_Some (fst (sthree.deleteGroup b items w))
               ∧ s3.objects (remote (snd (sthree.deleteGroup b items w)))
                 = s3.objects (remote w)).
Proof.
  intros Hdry Hlen.
  assert (∃ i, items = [] ∧ sthree.deleteGroup b items w = (None, w)
               ∨ items ≠ [] ∧ sthree.deleteGroup b items w
                               = bulk_delete b i (names items) w) as [i Hcase].
  { destruct (decide (items = [])) as [->|Hne].
    - exists false. left. by rewrite deleteGroup_nil.
    - destruct (decide (Z.to_nat 1000 ≤ length items)%nat).
      + exists true. right. split; [done|].
        rewrite deleteGroup_cut by done. by rewrite take_ge by lia.
      + exists false. right. split; [done|]. apply deleteGroup_small; [done|lia|done]. }
  destruct Hcase as [[-> ->]|[Hne ->]].
  - cbn [fst snd]. unfold new_calls. rewrite drop_all. repeat split; done.
  - rewrite !decide_False by done. rewrite bulk_delete_calls.
    split; [done|]. split; [done|]. split.
    + intros Hok. rewrite bulk_delete_ok by done. cbn [fst snd]. split; [done|].
      intros k. cbn. apply lookup_delete_all.
    + intros e rest Hf _. unfold bulk_delete, mbind, M_bind, on_remote, s3.DelMulti.
      rewrite (request_fault _ _ e rest) by done. by destruct i.
Qed.

Lemma deleteGroup_within_limit_witness :
  bulk_deletes
    (new_calls (sample.world (sample.packages 3) [])
       (snd (sthree.deleteGroup (sample.handle 3 false)
               (sample.records (sample.packages 3))
               (sample.world (sample.packages 3) []))))
  = (if decide (sample.records (sample.packages 3) = []) then []
     else [names (sample.records (sample.packages 3))]).
Proof.
  exact (proj1 (deleteGroup_within_limit (sample.handle 3 false)
                  (sample.records (sample.packages 3))
                  (sample.world (sample.packages 3) [])
                  eq_refl ltac:(vm_compute; discriminate))).
Defined.

(** On a live handle, when no request fails and at most a thousand keys
    start with the prefix, [DeletePrefix] returns [nil], every key that
    starts with the prefix (with ["/"] appended if it lacks one) is
    gone, and every other key is as before. *)
Theorem DeletePrefix_removes_prefix (b : sthree.Bucket) (prefix : string)
        (w : World) :
  sthree.dryRun b = false →
  s3.faults (remote w) = [] →
  Z.of_nat (length (under (sthree.list_prefix prefix) (s3.objects (remote w))))
  ≤ 1000 →
  fst (sthree.DeletePrefix b prefix w) = None
  ∧ ∀ k, s3.objects (remote (snd (sthree.DeletePrefix b prefix w))) !! k
         = if decide (String.prefix (sthree.list_prefix prefix) k = true)
           then None else s3.objects (remote w) !! k.
Proof.
  intros Hdry Hf Hlen. unfold sthree.DeletePrefix, mbind, M_bind.
  destruct (list_all b prefix w Hf) as (cs & -> & _).
  destruct (deleteGroup_live b
              (s3.key_of (s3.objects (remote w))
                 <$> under (sthree.list_prefix prefix) (s3.objects (remote w)))
              (advance cs [] w) Hdry eq_refl) as (Hr & Ho & _).
  split; [done|]. intros k. rewrite Ho.
  rewrite take_ge by (rewrite length_fmap; lia).
  rewrite names_key_of, lookup_delete_all. cbn.
  destruct (decide (k ∈ under _ _)) as [Hk|Hk].
  - unfold under in Hk. apply list_elem_of_filter in Hk as [Hp _].
    by rewrite decide_True.
  - destruct (decide (String.prefix _ k = true)) as [Hp|Hp]; [|done].
    destruct (s3.objects (remote w) !! k) as [o|] eqn:Hko; [|done].
    destruct Hk. unfold under, s3.sorted_keys. apply list_elem_of_filter.
    split; [done|].
    rewrite merge_sort_Permutation, elem_of_elements, elem_of_dom. by rewrite Hko.
Qed.

Lemma DeletePrefix_removes_prefix_witness :
  fst (sthree.DeletePrefix (sample.handle 3 false) "nightly"
         (sample.world ["nightly/a.rpm"; "nightly-old/b.rpm"] []))
  = None
  ∧ s3.objects
      (remote (snd (sthree.DeletePrefix (sample.handle 3 false) "nightly"
                      (sample.world ["nightly/a.rpm"; "nightly-old/b.rpm"] []))))
      !! "nightly-old/b.rpm"
    = if decide (String.prefix "nightly/" "nightly-old/b.rpm" = true)
      then None
      else sample.objects ["nightly/a.rpm"; "nightly-old/b.rpm"]
             !! "nightly-old/b.rpm".
Proof.
  destruct (DeletePrefix_removes_prefix (sample.handle 3 false) "nightly"
              (sample.world ["nightly/a.rpm"; "nightly-old/b.rpm"] [])
              eq_refl eq_refl ltac:(vm_compute; discriminate)) as [Hr Ho].
  split; [exact Hr|exact (Ho "nightly-old/b.rpm")].
Defined.

(** [DeleteMatching] with an expression that does not compile returns
    the error of the compiler with the expression and the name of the
    bucket, and neither lists nor deletes.  On a live handle, when the
    expression compiles, no request fails and at most a thousand keys
    match, it returns [nil], the keys that start with the prefix and
    whose full name matches are gone, and every other key is as before. *)
Theorem DeleteMatching_spec `{sthree.Regexp} (b : sthree.Bucket)
        (prefix expression : string) (w : World) :
  (∀ err, sthree.Compile expression = inr err →
          sthree.DeleteMatching b prefix expression w
          = (Some (errors.Wrapped err
                     "problem compiling expression %s for delete matching operation on %s"
                     [errors.Str expression; errors.Str (sthree.name b)]), w))
  ∧ (∀ m, sthree.Compile expression = inl m →
          sthree.dryRun b = false →
          s3.faults (remote w) = [] →
          Z.of_nat (length (matching m prefix (s3.objects (remote w)))) ≤ 1000 →
          fst (sthree.DeleteMatching b prefix expression w) = None
          ∧ ∀ k, s3.objects
                   (remote (snd (sthree.DeleteMatching b prefix expression w))) !! k
                 = if decide (sthree.MatchString m k = true
                              ∧ String.prefix (sthree.list_prefix prefix) k = true)
                   then None else s3.objects (remote w) !! k).
Proof.
  split.
  - intros err Herr. unfold sthree.DeleteMatching. by rewrite Herr.
  - intros m Hm Hdry Hf Hlen.
    destruct (DeleteMatching_live b prefix expression m w Hdry Hf Hm) as [Hr Ho].
    split; [done|]. intros k. rewrite Ho, take_ge, lookup_delete_all by lia.
    unfold matching.
    destruct (decide (k ∈ filter _ _)) as [Hk|Hk].
    + apply list_elem_of_filter in Hk as [Hm' Hk].
      unfold under in Hk. apply list_elem_of_filter in Hk as [Hp _].
      by rewrite decide_True.
    + destruct (decide (_ ∧ _)) as [[Hm' Hp]|Hn]; [|done].
      destruct (s3.objects (remote w) !! k) as [o|] eqn:Hko; [|done].
      destruct Hk. apply list_elem_of_filter. split; [done|].
      unfold under, s3.sorted_keys. apply list_elem_of_filter. split; [done|].
      rewrite merge_sort_Permutation, elem_of_elements, elem_of_dom. by rewrite Hko.
Qed.

Lemma DeleteMatching_spec_witness :
  sthree.DeleteMatching (sample.handle 3 false) "nightly/" "(rpm"
                        (sample.world ["nightly/a.rpm"] [])
  = (Some (errors.Wrapped
             (errors.Errorf "error parsing regexp: %s" [errors.Str "(rpm"])
             "problem compiling expression %s for delete matching operation on %s"
             [errors.Str "(rpm"; errors.Str "repo"]),
     sample.world ["nightly/a.rpm"] [])
  ∧ fst (sthree.DeleteMatching (sample.handle 3 false) "nightly/" "\.rpm$"
           (sample.world ["nightly/a.rpm"; "nightly/a.rpm.sig"] []))
    = None.
Proof.
  split.
  - exact (proj1 (@DeleteMatching_spec re.fragment (sample.handle 3 false)
                    "nightly/" "(rpm" (sample.world ["nightly/a.rpm"] []))
                 _ eq_refl).
  - refine (proj1 (proj2 (@DeleteMatching_spec re.fragment (sample.handle 3 false)
                    "nightly/" "\.rpm$"
                    (sample.world ["nightly/a.rpm"; "nightly/a.rpm.sig"] []))
                    (match re.compile "\.rpm$" with
                     | inl r => r
                     | inr _ => re.Void
                     end) _ eq_refl eq_refl _)).
    + vm_compute. reflexivity.
    + vm_compute. discriminate.
Defined.

(** [DeleteMany] without any path lists the whole bucket and does nothing
    else, on every handle and whatever the outcome of the requests. *)
Theorem DeleteMany_no_paths (b : sthree.Bucket) (w : World) :
  sthree.DeleteMany b [] w = (None, snd (sthree.list_ b "" w))
  ∧ (s3.faults (remote w) = [] →
     (1 ≤ length (new_calls w (snd (sthree.DeleteMany b [] w))))%nat).
Proof.
  assert (sthree.DeleteMany b [] w = (None, snd (sthree.list_ b "" w))) as Heq.
  { cbn [sthree.DeleteMany]. unfold sthree.contents, mbind, M_bind.
    destruct (sthree.list_ b "" w) as [files w1]. unfold mret, M_ret.
    cbn [sthree.DeleteMany_select]. unfold mret, M_ret.
    by rewrite deleteGroup_nil. }
  split; [done|]. intros Hf. rewrite Heq. cbn [snd].
  destruct (list_pages_count (s3.objects (remote w)) (sthree.list_prefix "")
              (S (size (s3.objects (remote w)))) 0%nat [] w)
    as (cs & Hcs & Hcount); [done|done|by left|lia| |].
  - pose proof (under_length (s3.objects (remote w)) (sthree.list_prefix "")). lia.
  - unfold sthree.list_. cbn [marker_at] in Hcs. rewrite Hcs, new_calls_advance.
    rewrite Hcount. unfold pages_for. lia.
Qed.

Lemma DeleteMany_no_paths_witness :
  (1 ≤ length (new_calls (sample.world ["nightly/a.rpm"] [])
                 (snd (sthree.DeleteMany (sample.handle 20 false) []
                         (sample.world ["nightly/a.rpm"] [])))))%nat.
Proof.
  exact (proj2 (DeleteMany_no_paths (sample.handle 20 false)
                  (sample.world ["nightly/a.rpm"] [])) eq_refl).
Defined.

(** [DeleteMany] with one path does not list the bucket and does not
    check that the path is a key: on a live handle it sends the delete
    request for that path, and nothing else, with the error of [Delete]
    wrapped once more; on a dry-run handle it does nothing. *)
Theorem DeleteMany_one_path (b : sthree.Bucket) (p : string) (w : World) :
  (sthree.dryRun b = true → sthree.DeleteMany b [p] w = (None, w))
  ∧ (sthree.dryRun b = false →
     new_calls w (snd (sthree.DeleteMany b [p] w)) = [s3.DelCall p]
     ∧ log (snd (sthree.DeleteMany b [p] w)) = log w
     ∧ fst (sthree.DeleteMany b [p] w)
       = errors.Wrap (fst (sthree.Delete b p w))
                     "single delete operation in multi-delete call").
Proof.
  split; intros Hdry; cbn [sthree.DeleteMany]; rewrite Hdry; [done|].
  unfold mbind, M_bind.
  destruct (Delete_sends b p w) as [Hcalls _].
  assert (log (snd (sthree.Delete b p w)) = log w) as Hlog.
  { unfold sthree.Delete, mbind, M_bind, on_remote.
    by destruct (s3.Del p (remote w)). }
  by destruct (sthree.Delete b p w) as [err w'].
Qed.

Lemma DeleteMany_one_path_witness :
  sthree.DeleteMany (sample.handle 20 true) ["gone"]
                    (sample.world ["nightly/a.rpm"] [])
  = (None, sample.world ["nightly/a.rpm"] [])
  ∧ new_calls (sample.world ["nightly/a.rpm"] [])
              (snd (sthree.DeleteMany (sample.handle 20 false) ["gone"]
                      (sample.world ["nightly/a.rpm"] [])))
    = [s3.DelCall "gone"].
Proof.
  split.
  - exact (proj1 (DeleteMany_one_path (sample.handle 20 true) "gone"
                    (sample.world ["nightly/a.rpm"] [])) eq_refl).
  - exact (proj1 (proj2 (DeleteMany_one_path (sample.handle 20 false) "gone"
                           (sample.world ["nightly/a.rpm"] [])) eq_refl)).
Defined.

(** [DeleteMany] with several paths on a live handle, when no request
    fails and at most a thousand of the paths are keys of the bucket:
    it returns [nil] although some paths may be missing, logs one
    warning for each missing path, in the order of the request, the
    requested keys are gone and every other key is as before. *)
Theorem DeleteMany_skips_missing (b : sthree.Bucket) (paths : list string)
        (w : World) :
  sthree.dryRun b = false →
  s3.faults (remote w) = [] →
  length paths ≠ 1%nat →
  Z.of_nat (length (present paths (s3.objects (remote w)))) ≤ 1000 →
  fst (sthree.DeleteMany b paths w) = None
  ∧ (∀ k, s3.objects (remote (snd (sthree.DeleteMany b paths w))) !! k
          = if decide (k ∈ paths) then None else s3.objects (remote w) !! k)
  ∧ log (snd (sthree.DeleteMany b paths w))
    = log w ++ ((λ p, grip.Warningf "path %s does not exist in bucket %s"
                        [errors.Str p; errors.Str (sthree.name b)])
                  <$> filter (λ p, s3.objects (remote w) !! p = None) paths).
Proof.
  intros Hdry Hf Hone Hlen.
  destruct (DeleteMany_live b paths w Hdry Hf Hone) as (Hr & _ & Hl).
  split; [done|]. split; [|done].
  apply DeleteMany_exact; [done|done|done|lia].
Qed.

Lemma DeleteMany_skips_missing_witness :
  fst (sthree.DeleteMany (sample.handle 3 false)
         ["nightly/a.rpm"; "nightly/gone.rpm"]
         (sample.world ["nightly/a.rpm"; "nightly/b.rpm"] []))
  = None
  ∧ log (snd (sthree.DeleteMany (sample.handle 3 false)
                ["nightly/a.rpm"; "nightly/gone.rpm"]
                (sample.world ["nightly/a.rpm"; "nightly/b.rpm"] [])))
    = log (sample.world ["nightly/a.rpm"; "nightly/b.rpm"] [])
      ++ ((λ p, grip.Warningf "path %s does not exist in bucket %s"
                  [errors.Str p; errors.Str "repo"])
            <$> filter (λ p, sample.objects ["nightly/a.rpm"; "nightly/b.rpm"] !! p
                             = None)
                       ["nightly/a.rpm"; "nightly/gone.rpm"]).
Proof.
  destruct (DeleteMany_skips_missing (sample.handle 3 false)
              ["nightly/a.rpm"; "nightly/gone.rpm"]
              (sample.world ["nightly/a.rpm"; "nightly/b.rpm"] [])
              eq_refl eq_refl ltac:(done) ltac:(vm_compute; discriminate))
    as (Hr & _ & Hl).
  split; [exact Hr|exact Hl].
Defined.

(** ** Synchronising a tree *)

Section syncing.

Import sthree.

Variable run : Bucket → SyncJob → M (option error).
Variable ID : SyncJob → string.
Variable b : Bucket.





Lemma list_pages_disk fuel : ∀ prefix lastKey output w,
  disk (snd (list_pages fuel prefix lastKey output w)) = disk w.
Proof.
  induction fuel as [|fuel IH]; intros prefix lastKey output w; [done|].
  destruct (s3.faults (remote w)) as [|[e|] rest] eqn:Hf.
  - rewrite list_pages_ok by (by rewrite Hf). cbv zeta.
    case_bool_decide; [|done]. by rewrite IH.
  - by rewrite (list_pages_fault _ _ _ _ _ e rest).
  - rewrite list_pages_ok by (by rewrite Hf). cbv zeta.
    case_bool_decide; [|done]. by rewrite IH.
Qed.

End syncing.


Lemma SyncTo_after_listing
      (run : sthree.Bucket → sthree.SyncJob → M (option error))
      (ID : sthree.SyncJob → string) (b : sthree.Bucket)
      (local prefix : string) (w : World) :
  sthree.SyncTo run ID b local prefix w
  = sthree.SyncTo_walk run ID (fst (sthree.contents b prefix w)) b
      local prefix (snd (sthree.contents b prefix w))
  ∧ disk (snd (sthree.contents b prefix w)) = disk w.
Proof.
  split.
  - unfold sthree.SyncTo, mbind, M_bind.
    by destruct (sthree.contents b prefix w).
  - unfold sthree.contents, mbind, M_bind.
    pose proof (list_pages_disk (S (size (s3.objects (remote w))))
                  (sthree.list_prefix prefix) "" [] w) as Hd.
    unfold sthree.list_.
    by destruct (sthree.list_pages _ _ _ _ w).
Qed.

(** [SyncTo] on a local directory that does not exist runs no job: it
    returns an error made of the error of the walk alone, and it leaves
    the bucket and the disk as the listing left them. *)
Theorem SyncTo_missing_directory
        (run : sthree.Bucket → sthree.SyncJob → M (option error))
        (ID : sthree.SyncJob → string) (b : sthree.Bucket)
        (local prefix : string) (w : World) :
  os.NotExist local (disk w) = true →
  fst (sthree.SyncTo run ID b local prefix w)
  = Some (errors.Resolved
            [errors.Errorf "lstat %s: no such file or directory"
                           [errors.Str local]])
  ∧ remote (snd (sthree.SyncTo run ID b local prefix w))
    = remote (snd (sthree.contents b prefix w))
  ∧ disk (snd (sthree.SyncTo run ID b local prefix w)) = disk w.
Proof.
  intros Hmiss.
  destruct (SyncTo_after_listing run ID b local prefix w) as [-> Hdisk].
  destruct (sthree.contents b prefix w) as [remote w1]. cbn [fst snd] in *.
  unfold sthree.SyncTo_walk, mbind, M_bind, read_disk.
  rewrite Hdisk, Hmiss.
  unfold logged, mret, M_ret. cbn. by rewrite Hdisk.
Qed.

Lemma SyncTo_missing_directory_witness :
  fst (sthree.SyncTo (λ _ _, mret None) sthree.localPath
         (sample.handle 20 false) "missing" "nightly"
         (sample.world ["nightly/a.rpm"] []))
  = Some (errors.Resolved
            [errors.Errorf "lstat %s: no such file or directory"
                           [errors.Str "missing"]]).
Proof.
  refine (proj1 (SyncTo_missing_directory _ _ _ _ _ _ _)).
  vm_compute; reflexivity.
Defined.



(** ** The build job *)

Section building.

Import repobuilder.

Context `{builder : jobImpl}.

Variable SyncFrom : sthree.Bucket → string → string → M (option error).
Variable SyncTo : sthree.Bucket → string → string → M (option error).

Lemma Clone_outcome (b : sthree.Bucket) (w : World) :
  (∃ c, fst (sthree.Clone b w) = (Some c, None)
        ∧ sthree.name c = sthree.name b
        ∧ sthree.dryRun c = false
        ∧ sthree.NewFilePermission c = sthree.NewFilePermission b)
  ∨ (∃ e, fst (sthree.Clone b w) = (None, Some e)).
Proof.
  unfold sthree.Clone. destruct (sthree.open b).
  - unfold mbind, M_bind, sthree.Open. cbn [sthree.open].
    unfold mbind, M_bind, queue_Start.
    destruct (default None (head (starts w))) as [e|]; cbn.
    + right. by eexists.
    + left. by eexists.
  - left. by eexists.
Qed.

Lemma same_request_refl j : same_request j j.
Proof. by repeat split. Qed.

Lemma same_request_trans j1 j2 j3 :
  same_request j1 j2 → same_request j2 j3 → same_request j1 j3.
Proof.
  unfold same_request.
  intros (-> & -> & -> & -> & -> & -> & -> & ->)
         (-> & -> & -> & -> & -> & -> & -> & ->).
  by repeat split.
Qed.

Lemma AddError_spec j err :
  Errors (AddError j err) = Errors j ++ option_list err
  ∧ workingDirs (AddError j err) = workingDirs j
  ∧ history (AddError j err) = history j
  ∧ IsComplete (AddError j err) = IsComplete j
  ∧ same_request j (AddError j err).
Proof.
  destruct err; cbn; rewrite ?app_nil_r; by repeat split.
Qed.

(** The loop over the repositories accounts for each of them: it is
    given a working directory, and its goroutine is started, finished
    and its handle closed; or the error of its clone is recorded. *)
Lemma fan_out_spec bucket remotes : ∀ j w,
  ∃ ds es,
    workingDirs (fst (fan_out SyncFrom SyncTo j bucket remotes w))
    = workingDirs j ++ ds
    ∧ sublist ds remotes
    ∧ Errors (fst (fan_out SyncFrom SyncTo j bucket remotes w)) = Errors j ++ es
    ∧ (length remotes ≤ length ds + length es)%nat
    ∧ (length es ≤ length remotes)%nat
    ∧ history (fst (fan_out SyncFrom SyncTo j bucket remotes w))
      = history j ++ (ds ≫= repository_events (sthree.name bucket))
    ∧ IsComplete (fst (fan_out SyncFrom SyncTo j bucket remotes w)) = IsComplete j
    ∧ same_request j (fst (fan_out SyncFrom SyncTo j bucket remotes w)).
Proof.
  induction remotes as [|remote remotes IH]; intros j w.
  - exists [], []. cbn. rewrite !app_nil_r.
    repeat split; try done. 
  - cbn [fan_out]. unfold mbind, M_bind.
    destruct (Clone_outcome bucket w) as [(c & Hc & Hname & _)|(e & Hc)];
      destruct (sthree.Clone bucket w) as [[clone cerr] w1];
      cbn [fst] in Hc; injection Hc as -> ->.
    + destruct (rebuild SyncFrom SyncTo _ remote c w1) as [err w2].
      match goal with
      | |- context [fan_out _ _ ?j' bucket remotes w2] =>
          destruct (IH j' w2) as (ds & es & -> & Hsub & -> & Hlo & Hhi & -> & -> & Hreq);
          destruct (AddError_spec
                      (record (Started remote)
                         (update j (workingDirs j ++ [remote]) (IsComplete j)
                                 (Errors j) (history j))) err)
            as (He & Hw & Hh & Hi & Hr)
      end.
      exists (remote :: ds), (option_list err ++ es).
      cbn [record update history IsComplete workingDirs Errors] in *.
      rewrite ?He, ?Hw, ?Hh, ?Hi. rewrite Hname in Hreq |- *.
      cbn [record update history IsComplete workingDirs Errors].
      rewrite <- !app_assoc. cbn [mbind list_bind repository_events app].
      split; [done|]. split; [by constructor|]. split; [done|].
      rewrite length_app. destruct err; unfold option_list; cbn [option_rect length].
      all: split; [lia|]. all: split; [lia|]. all: split; [done|].
      all: split; [done|].
      all: eapply same_request_trans; [|exact Hreq].
      all: unfold same_request in *; cbn in *; by repeat split.
    + cbn [errors.Wrapf AddError].
      match goal with
      | |- context [fan_out _ _ ?j' bucket remotes w1] =>
          destruct (IH j' w1) as (ds & es & -> & Hsub & -> & Hlo & Hhi & -> & -> & Hreq)
      end.
      eexists ds, (_ :: es).
      cbn [record update history IsComplete workingDirs Errors] in *.
      rewrite <- !app_assoc. cbn [app length].
      split; [done|]. split; [by constructor|]. split; [done|].
      split; [lia|]. split; [lia|]. split; [done|]. split; [done|].
      eapply same_request_trans; [|exact Hreq]. by repeat split.
Qed.

(** The handles the goroutines get are clones: what the sync
    operations do with the mode of a handle has no bearing on the loop. *)
Lemma fan_out_live bucket remotes :
  sthree.NewFilePermission bucket = s3.PublicRead →
  ∀ j w,
    fan_out SyncFrom SyncTo j bucket remotes w
    = fan_out (λ b, SyncFrom (live_public b)) (λ b, SyncTo (live_public b))
              j bucket remotes w.
Proof.
  intros Hperm. induction remotes as [|remote remotes IH]; intros j w; [done|].
  cbn [fan_out]. unfold mbind, M_bind.
  destruct (Clone_outcome bucket w) as [(c & Hc & _ & Hdry & Hp)|(e & Hc)];
    destruct (sthree.Clone bucket w) as [[clone cerr] w1];
    cbn [fst] in Hc; injection Hc as -> ->; [|apply IH].
  assert (live_public c = c) as Hlive.
  { unfold live_public. rewrite <- Hperm, <- Hp, <- Hdry. by destruct c. }
  unfold rebuild. rewrite Hlive.
  match goal with
  | |- (let '(_, _) := ?r in _) = _ => destruct r as [err w2]
  end.
  apply IH.
Qed.



End building.



(** Every handle [Run] passes to a sync operation is a clone made by
    [Clone]: it has the public-read permission and it is not in dry-run
    mode, also when the job asks for a dry run.  So a run is the same
    when the sync operations are made to take each handle as a live,
    public-read one. *)
Theorem Run_hands_over_live_handles `{builder : repobuilder.jobImpl}
        (SyncFrom SyncTo : sthree.Bucket → string → string → M (option error))
        (j : repobuilder.Job) (bucket : sthree.Bucket) (w : World) :
  repobuilder.Run SyncFrom SyncTo j bucket w
  = repobuilder.Run (λ b, SyncFrom (live_public b)) (λ b, SyncTo (live_public b))
                    j bucket w.
Proof.
  unfold repobuilder.Run, mbind, M_bind.
  destruct (sthree.Open bucket w) as [[bucket' [e|]] w1]; [done|].
  match goal with
  | |- (let '(_, _) := ?r in _) = _ => destruct r as [[[derived j1] stop] w2]
  end.
  destruct stop; [done|].
  by rewrite fan_out_live.
Qed.

Section appending.

Import repobuilder.

Context `{builder : jobImpl}.

Variable SyncFrom : sthree.Bucket → string → string → M (option error).
Variable SyncTo : sthree.Bucket → string → string → M (option error).

Lemma extends_refl j : extends j j.
Proof. repeat split; done. Qed.

Lemma extends_trans j1 j2 j3 : extends j1 j2 → extends j2 j3 → extends j1 j3.
Proof.
  intros (Hw1 & He1 & Hh1 & Hr1 & Hc1) (Hw2 & He2 & Hh2 & Hr2 & Hc2).
  split; [by etrans|]. split; [by etrans|]. split; [by etrans|].
  split; [by eapply same_request_trans|]. auto.
Qed.

Lemma extends_AddError j err : extends j (AddError j err).
Proof.
  destruct (AddError_spec j err) as (He & Hw & Hh & Hc & Hr).
  unfold extends. rewrite He, Hw, Hh, Hc.
  split; [done|]. split; [by apply prefix_app_r|]. split; [done|].
  split; [exact Hr|done].
Qed.

Lemma extends_record e j : extends j (record e j).
Proof.
  unfold extends. cbn. split; [done|]. split; [done|].
  split; [by apply prefix_app_r|]. by repeat split.
Qed.

Lemma extends_MarkComplete j : extends j (MarkComplete j).
Proof.
  unfold extends. cbn. split; [done|]. split; [done|].
  split; [by apply prefix_app_r|]. by repeat split.
Qed.

Lemma extends_fan_out bucket remotes j w :
  extends j (fst (fan_out SyncFrom SyncTo j bucket remotes w)).
Proof.
  destruct (fan_out_spec SyncFrom SyncTo bucket remotes j w)
    as (ds & es & Hw & _ & He & _ & _ & Hh & Hc & Hr).
  unfold extends. rewrite Hw, He, Hh, Hc.
  split; [by apply prefix_app_r|]. split; [by apply prefix_app_r|].
  split; [by apply prefix_app_r|]. done.
Qed.

End appending.

(** [Run] only adds to what the job has recorded: the working
    directories, the errors and the events at its start are kept, in
    front of those of the run; what the job asks for is not changed;
    and a job that was complete stays complete. *)
Theorem Run_only_appends `{builder : repobuilder.jobImpl}
        (SyncFrom SyncTo : sthree.Bucket → string → string → M (option error))
        (j : repobuilder.Job) (bucket : sthree.Bucket) (w : World) :
  let j' := fst (repobuilder.Run SyncFrom SyncTo j bucket w) in
  repobuilder.workingDirs j `prefix_of` repobuilder.workingDirs j'
  ∧ repobuilder.Errors j `prefix_of` repobuilder.Errors j'
  ∧ repobuilder.history j `prefix_of` repobuilder.history j'
  ∧ same_request j j'
  ∧ (repobuilder.IsComplete j = true → repobuilder.IsComplete j' = true).
Proof.
  cbv zeta. change (extends j (fst (repobuilder.Run SyncFrom SyncTo j bucket w))).
  unfold repobuilder.Run, mbind at 1, M_bind at 1.
  destruct (sthree.Open bucket w) as [[bucket' [e|]] w1];
    [apply extends_AddError|].
  unfold mbind at 1, M_bind at 1.
  match goal with
  | |- extends j (fst (let '(_, _) := ?r in _)) =>
      assert (extends j (snd (fst (fst r)))) as Hblock;
      [|destruct r as [[[derived j1] stop] w2]]
  end.
  { destruct (repobuilder.DryRun j); [|apply extends_refl].
    unfold mbind, M_bind.
    destruct (sthree.DryRunClone bucket' w1) as [[[c|] [e|]] w2];
      try apply extends_AddError.
    destruct (sthree.Open c w2) as [[c' [e|]] w3];
      [apply extends_AddError|apply extends_refl]. }
  cbn [fst snd] in Hblock.
  destruct stop.
  { eapply extends_trans; [exact Hblock|]. apply extends_record. }
  unfold mbind, M_bind.
  match goal with
  | |- context [repobuilder.fan_out _ _ j1 ?b ?rs w2] =>
      pose proof (extends_fan_out SyncFrom SyncTo b rs j1 w2) as Hfan;
      destruct (repobuilder.fan_out SyncFrom SyncTo j1 b rs w2) as [j2 w3]
  end.
  cbn [fst] in *. unfold mret, M_ret. cbn [fst].
  eapply extends_trans; [exact Hblock|].
  eapply extends_trans; [exact Hfan|].
  eapply extends_trans; [|apply extends_record].
  destruct (repobuilder.DryRun _).
  - eapply extends_trans; [|apply extends_record].
    eapply extends_trans; [|apply extends_MarkComplete]. apply extends_record.
  - eapply extends_trans; [|apply extends_MarkComplete]. apply extends_record.
Qed.



(** ** The content type of an upload *)

Lemma last_part_after_dot (ext : string) (stem : string) : ∀ cur,
  sthree.last_part (stem +:+ "." +:+ ext) cur = sthree.last_part ext "".
Proof.
  induction stem as [|c stem IH]; intros cur; [done|].
  change (String c stem +:+ "." +:+ ext) with (String c (stem +:+ "." +:+ ext)).
  cbn [sthree.last_part]. destruct (Ascii.eqb c "."); apply IH.
Qed.

(** [getMimeType] looks at nothing but the text after the last dot of
    the name: a name gets the type of its last extension, and a name
    without a dot is taken as an extension itself.  The type is never
    empty. *)
Theorem getMimeType_last_extension (stem ext : string) :
  sthree.getMimeType (stem +:+ "." +:+ ext) = sthree.getMimeType ext
  ∧ sthree.getMimeType ext ≠ "".
Proof.
  unfold sthree.getMimeType. rewrite last_part_after_dot. split; [done|].
  destruct (String.eqb _ "") eqn:Hempty; [done|].
  by apply String.eqb_neq.
Qed.
